(** * Prismerge: a shallow embedding of the merge engine

    The TypeScript sources embedded here are [js/src/option.ts],
    [js/src/result.ts], [js/src/data.ts], [js/src/connection.ts]
    (which also holds the [InsertManager]) and [js/src/merge.ts]; further
    on, [js/src/prisma.ts], the console reporter of [js/src/progress.ts]
    and the command-line program.

    Conventions.
    - A JavaScript [Option<T>] is a Rocq [option]; [Result<R, E>] is
      [Result R E]; a thrown value is an [Exn] carried by [Throw].
    - Effectful code lives in the monad [M], a state monad whose state
      survives a throw (as the heap of the JavaScript program does).
    - The SQLite driver, [crypto.randomUUID] and [String.prototype.replace]
      are not part of the repository: they are the fields of the class
      [Driver], and every property is proved for an arbitrary instance.
    - The [async] row callbacks of [Connection.each] are run to completion
      one after the other, the sequential reading the design prescribes for
      the engine; the comment of [each_rows] says what this leaves out. *)

From Stdlib Require Import List String Ascii ZArith NArith Lia Bool Arith.
From Stdlib Require Import PeanoNat Permutation Relations.
Import ListNotations.
Open Scope string_scope.

(** ** option.ts and result.ts *)

Inductive Result (R E : Type) : Type :=
| Ok (value : R)
| Err (value : E).
Arguments Ok {R E} value.
Arguments Err {R E} value.

Definition isOk {R E} (r : Result R E) : bool :=
  match r with Ok _ => true | Err _ => false end.

Definition isErr {R E} (r : Result R E) : bool :=
  match r with Ok _ => false | Err _ => true end.

Definition isSome {T} (o : option T) : bool :=
  match o with Some _ => true | None => false end.

(** The driver's [Error] objects, by their message. *)
Definition Error := string.

(** Values a running program can throw. *)
Inductive Exn : Type :=
| DriverError (e : Error)      (* [ErrClass.unwrap]: [throw this._value] *)
| UnwrapNone                   (* [NoneClass.unwrap]: "Tried to unwrap a None" *)
| TypeError                    (* a property read on [undefined] *)
| CyclicDependency (node : string)   (* toposort: "Cyclic dependency" *)
| UnknownNode                  (* toposort: "Unknown node" *)
| OutOfFuel.                   (* the model's recursion bound; never reached *)

Inductive Outcome (A : Type) : Type :=
| Ret (a : A)
| Throw (e : Exn).
Arguments Ret {A} a.
Arguments Throw {A} e.

(** The double quote character, and the text of a template literal. *)
Definition dq : string := String (ascii_of_nat 34) EmptyString.
Definition nl : string := String (ascii_of_nat 10) EmptyString.

(** [Array.prototype.join]. *)
Definition join (sep : string) (l : list string) : string := String.concat sep l.

(** Decimal text of a number, as a template literal prints it. *)
Fixpoint digits (fuel n : nat) (acc : string) : string :=
  match fuel with
  | 0 => acc
  | S fuel' =>
      let d := String (ascii_of_nat (48 + Nat.modulo n 10)) acc in
      if Nat.ltb n 10 then d else digits fuel' (Nat.div n 10) d
  end.

Definition show_nat (n : nat) : string := digits (S n) n EmptyString.

(** ** data.ts *)

Record Relation : Type := {
  fields : list string;
  references : list string
}.

Record ColumnType : Type := {
  ty_name : string;
  collection : bool;
  nullable : bool
}.

Record Column : Type := {
  col_name : string;
  ty : ColumnType;
  relation : option Relation;
  col_unique : bool;
  primary_key : bool
}.

Record Unique : Type := {
  columnNames : list string
}.

(** The constructor of [Model] derives [mapTable] and [primaryKeyIndex] from
    its three arguments and nothing reassigns them, so they are functions of
    the record below. *)
Record Model : Type := {
  model_name : string;
  columns : list Column;
  model_unique : option Unique
}.

Record MapTable : Type := {
  map_name : string
}.

Definition mapTable (m : Model) : MapTable :=
  {| map_name := model_name m ++ "_id_map" |}.

(** The loop of the constructor keeps the last column flagged as primary
    key. *)
Fixpoint primaryKeyIndex_from (idx : nat) (cols : list Column)
    (acc : option nat) : option nat :=
  match cols with
  | [] => acc
  | column :: rest =>
      primaryKeyIndex_from (S idx) rest
        (if primary_key column then Some idx else acc)
  end.

Definition primaryKeyIndex (m : Model) : option nat :=
  primaryKeyIndex_from 0 (columns m) None.

(** [this.columns[idx]!]: an index set by the constructor is in range. *)
Definition primaryKey (m : Model) : option Column :=
  match primaryKeyIndex m with
  | Some idx => nth_error (columns m) idx
  | None => None
  end.

Definition getCol (m : Model) (name : string) : option Column :=
  find (fun column => String.eqb (col_name column) name) (columns m).

Definition hasRelation (c : Column) : bool := isSome (relation c).

Definition includes (l : list string) (x : string) : bool :=
  existsb (String.eqb x) l.

Definition getRelatedColumn (c : Column) (m : Model) : option Column :=
  find (fun column =>
          match relation column with
          | Some r => includes (fields r) (col_name c)
          | None => false
          end) (columns m).

Definition quoted (c : Column) (modelName : string) : string :=
  "quote(" ++ dq ++ modelName ++ dq ++ "." ++ dq ++ col_name c ++ dq ++ ")".

(** [Schema.models] is a [Map]: its entries in insertion order; the keys of a
    [Map] are pairwise distinct. *)
Record Schema : Type := {
  models : list (string * Model)
}.

Definition Map_get {V} (entries : list (string * V)) (key : string) : option V :=
  match find (fun e => String.eqb (fst e) key) entries with
  | Some e => Some (snd e)
  | None => None
  end.

Definition Map_has {V} (entries : list (string * V)) (key : string) : bool :=
  isSome (Map_get entries key).

Definition Map_values {V} (entries : list (string * V)) : list V :=
  map snd entries.

Definition isRegular (c : Column) (schema : Schema) : bool :=
  negb (primary_key c) &&
  negb (collection (ty c)) &&
  negb (hasRelation c) &&
  negb (Map_has (models schema) (ty_name (ty c))).

(** ** The [toposort] package

    [Schema.sortedModels] calls [toposort.array(nodes, edges)], a
    dependency that is not part of the repository.  It is embedded here as
    the package implements it: a depth-first search that writes each node
    into [sorted] from the back once all its outgoing edges have been
    followed, so that for an edge [[a, b]] node [a] ends up before [b];
    a node met again on the current path raises "Cyclic dependency". *)
Module Toposort.

(** A [Set] keeps its elements in the order of their first insertion. *)
Definition Set_add (s : list string) (x : string) : list string :=
  if includes s x then s else s ++ [x].

Definition Set_delete (s : list string) (x : string) : list string :=
  filter (fun y => negb (String.eqb x y)) s.

(** [makeOutgoingEdges(edges).get(node) || new Set()]. *)
Definition outgoingEdges (edges : list (string * string)) (node : string)
  : list string :=
  fold_left Set_add
    (map snd (filter (fun e => String.eqb (fst e) node) edges)) [].

(** [makeNodesHash(nodes).get(node)]: the last index holding [node]. *)
Fixpoint nodesHash_from (idx : nat) (nodes : list string) (node : string)
    (acc : option nat) : option nat :=
  match nodes with
  | [] => acc
  | x :: rest =>
      nodesHash_from (S idx) rest node
        (if String.eqb x node then Some idx else acc)
  end.

Definition nodesHash (nodes : list string) (node : string) : option nat :=
  nodesHash_from 0 nodes node None.

(** The variables the closure [visit] shares with [toposort]. *)
Record State : Type := {
  cursor : nat;
  sorted : list (option string);    (* [None] is a hole of [new Array(n)] *)
  visited : list nat;
  predecessors : list string
}.

(** [arr[i] = v] on an index in range (the one case the search produces). *)
Fixpoint array_set {A} (l : list A) (i : nat) (v : A) : list A :=
  match l, i with
  | [], _ => []
  | _ :: rest, 0 => v :: rest
  | x :: rest, S i' => x :: array_set rest i' v
  end.

Definition mark_visited (i : nat) (st : State) : State :=
  {| cursor := cursor st; sorted := sorted st;
     visited := i :: visited st; predecessors := predecessors st |}.

Definition set_predecessors (p : list string) (st : State) : State :=
  {| cursor := cursor st; sorted := sorted st;
     visited := visited st; predecessors := p |}.

(** [sorted[--cursor] = node]. *)
Definition place (node : string) (st : State) : State :=
  {| cursor := pred (cursor st);
     sorted := array_set (sorted st) (pred (cursor st)) (Some node);
     visited := visited st; predecessors := predecessors st |}.

Section Visit.
Variable nodes : list string.
Variable edges : list (string * string).

(** The [do ... while (i)] loop over [outgoing], last child first. *)
Fixpoint visit_children (visit1 : string -> State -> Outcome State)
    (children : list string) (st : State) : Outcome State :=
  match children with
  | [] => Ret st
  | child :: rest =>
      match visit1 child st with
      | Ret st' => visit_children visit1 rest st'
      | Throw e => Throw e
      end
  end.

Fixpoint visit (fuel : nat) (node : string) (i : option nat) (st : State)
  : Outcome State :=
  match fuel with
  | 0 => Throw OutOfFuel
  | S fuel' =>
      if includes (predecessors st) node then Throw (CyclicDependency node)
      else
        match nodesHash nodes node, i with
        | Some _, Some i =>
            if existsb (Nat.eqb i) (visited st) then Ret st
            else
              let st := mark_visited i st in
              let outgoing := outgoingEdges edges node in
              let after :=
                match outgoing with
                | [] => Ret st
                | _ =>
                    let st :=
                      set_predecessors (Set_add (predecessors st) node) st in
                    match
                      visit_children
                        (fun child =>
                           visit fuel' child (nodesHash nodes child))
                        (rev outgoing) st
                    with
                    | Ret st =>
                        Ret (set_predecessors
                               (Set_delete (predecessors st) node) st)
                    | Throw e => Throw e
                    end
                end in
              match after with
              | Ret st => Ret (place node st)
              | Throw e => Throw e
              end
        | _, _ => Throw UnknownNode
        end
  end.

(** [while (i--) { if (!visited[i]) visit(nodes[i], i, new Set()) }] *)
Fixpoint visit_all (fuel : nat) (indices : list nat) (st : State)
  : Outcome State :=
  match indices with
  | [] => Ret st
  | i :: rest =>
      if existsb (Nat.eqb i) (visited st) then visit_all fuel rest st
      else
        match nth_error nodes i with
        | None => Throw UnknownNode
        | Some node =>
            match visit fuel node (Some i) (set_predecessors [] st) with
            | Ret st' => visit_all fuel rest st'
            | Throw e => Throw e
            end
        end
  end.

Definition unknown_edge (edge : string * string) : bool :=
  negb (isSome (nodesHash nodes (fst edge))) ||
  negb (isSome (nodesHash nodes (snd edge))).

(** [toposort.array(nodes, edges)].  A call of [visit] nests at most
    once per node, which bounds the recursion. *)
Definition array : Outcome (list (option string)) :=
  let n := List.length nodes in
  let st := {| cursor := n; sorted := repeat None n;
               visited := []; predecessors := [] |} in
  if existsb unknown_edge edges then Throw UnknownNode
  else
    match visit_all (S n) (rev (seq 0 n)) st with
    | Ret st' => Ret (sorted st')
    | Throw e => Throw e
    end.
End Visit.

End Toposort.

(** [Schema.sortedModels]: an entry of the result is [None] where
    [this.models.get(modelName)] is [undefined]. *)
Definition relationEdges (schema : Schema) : list (string * string) :=
  flat_map
    (fun entry =>
       let model := snd entry in
       flat_map
         (fun column =>
            if isSome (relation column) then
              match Map_get (models schema) (ty_name (ty column)) with
              | Some childModel => [(model_name model, model_name childModel)]
              | None => []
              end
            else [])
         (columns model))
    (models schema).

Definition sortedModels (schema : Schema) : Outcome (list (option Model)) :=
  let edges := relationEdges schema in
  match Toposort.array (map model_name (Map_values (models schema))) edges with
  | Ret modelNames =>
      Ret (rev (map (fun modelName =>
                       match modelName with
                       | Some modelName => Map_get (models schema) modelName
                       | None => None
                       end) modelNames))
  | Throw e => Throw e
  end.

(** The schema of the test suite ([__tests__/schema.ts]). *)
Definition stringTy : ColumnType :=
  {| ty_name := "String"; collection := false; nullable := false |}.

Definition idColumn : Column :=
  {| col_name := "id"; ty := stringTy; relation := None;
     col_unique := false; primary_key := true |}.

Definition Owner : Model :=
  {| model_name := "Owner";
     columns :=
       [ idColumn;
         {| col_name := "name"; ty := stringTy; relation := None;
            col_unique := false; primary_key := false |} ];
     model_unique := Some {| columnNames := ["name"] |} |}.

Definition TodoList : Model :=
  {| model_name := "TodoList";
     columns :=
       [ idColumn;
         {| col_name := "name"; ty := stringTy; relation := None;
            col_unique := false; primary_key := false |};
         {| col_name := "ownerId"; ty := stringTy; relation := None;
            col_unique := false; primary_key := false |};
         {| col_name := "owner";
            ty := {| ty_name := "Owner"; collection := false;
                     nullable := false |};
            relation := Some {| fields := ["ownerId"]; references := ["id"] |};
            col_unique := false; primary_key := false |} ];
     model_unique := Some {| columnNames := ["name"; "ownerId"] |} |}.

Definition testSchema : Schema :=
  {| models := [("Owner", Owner); ("TodoList", TodoList)] |}.

Definition testSchema' : Schema :=
  {| models := [("TodoList", TodoList); ("Owner", Owner)] |}.

(** ** The runtime the engine talks to

    A [Connection] object is known by its identity.  A row of a result set
    is a JavaScript object: reading a key it lacks gives [undefined]
    ([None]), which a template literal prints as [undefined] and
    [Array.prototype.join] as the empty string. *)
Definition ConnId : Type := nat.

Definition Row : Type := list (string * string).

Definition field (row : Row) (key : string) : option string := Map_get row key.

Definition text (v : option string) : string :=
  match v with Some s => s | None => "undefined" end.

Definition join_any (sep : string) (l : list (option string)) : string :=
  join sep (map (fun v => match v with Some s => s | None => EmptyString end) l).

(** The [sqlite] driver behind a [Connection], [crypto.randomUUID] and
    [String.prototype.replace].  [db_get_count] and [db_get_row] are
    [Database.get<T>] at the two row types the engine uses it with,
    [{count: number}] and [{[key: string]: any}]; a count is the result of
    SQL [COUNT], a natural number.  [db_each] gives what [Database.each]
    hands to its row callback, row by row, and how its promise settles;
    [db_close] is how the promise of [Database.close] settles. *)
Class Driver : Type := {
  DB : Type;
  db_exec : DB -> string -> DB * Result unit Error;
  db_get_count : DB -> string -> Result (option N) Error;
  db_get_row : DB -> string -> Result (option Row) Error;
  db_each : DB -> string -> list (Result Row Error) * Result N Error;
  db_close : DB -> Result unit Error;
  randomUUID : nat -> string;
  replace : string -> string -> string -> string
}.

(** Calls the engine makes on its collaborators, in program order. *)
Inductive Event : Type :=
| EvExec (conn : ConnId) (sql : string)
| EvGet (conn : ConnId) (sql : string)
| EvEach (conn : ConnId) (sql : string)
| EvClose (conn : ConnId)
| EvProgressCreate (model_name : string) (total_rows : N)
| EvInc (delta : N)
| EvFinish
| EvLog (line : string).

(** ** connection.ts: the [InsertManager] object

    [threshold] is the number the constructor is given, here an integer.
    ([parseInt] in the command-line program can also give [NaN], which no
    length reaches: only [flush] then empties the buffer, as with an integer
    above the number of statements of the run.) *)
Record InsertManager : Type := {
  statements : list string;
  count : N;
  connection : ConnId;
  threshold : Z
}.

Section WithDriver.
Context {driver : Driver}.

(** The part of the heap and of the outside world the engine acts on:
    the database behind every connection, the calls made so far, the
    number of UUIDs drawn, and the [InsertManager] of the running
    [mergeModel]. *)
Record World : Type := {
  dbs : ConnId -> DB;
  trace : list Event;
  uuids : nat;
  inserter : InsertManager
}.

Definition M (A : Type) : Type := World -> Outcome A * World.

Definition ret {A} (a : A) : M A := fun w => (Ret a, w).

Definition throw {A} (e : Exn) : M A := fun w => (Throw e, w).

Definition bind {A B} (m : M A) (k : A -> M B) : M B :=
  fun w =>
    match m w with
    | (Ret a, w') => k a w'
    | (Throw e, w') => (Throw e, w')
    end.

Notation "x <- m ;; k" := (bind m (fun x => k))
  (at level 61, m at next level, right associativity).
Notation "m ;; k" := (bind m (fun _ => k))
  (at level 61, right associativity).

(** A [for ... of] loop whose body is awaited. *)
Fixpoint forEach {A} (l : list A) (body : A -> M unit) : M unit :=
  match l with
  | [] => ret tt
  | x :: rest => body x ;; forEach rest body
  end.

(** [OkClass.unwrap] / [ErrClass.unwrap]. *)
Definition unwrapResult {R} (r : Result R Error) : M R :=
  match r with
  | Ok value => ret value
  | Err e => throw (DriverError e)
  end.

(** [SomeClass.unwrap] / [NoneClass.unwrap]. *)
Definition unwrapOption {T} (o : option T) : M T :=
  match o with
  | Some value => ret value
  | None => throw UnwrapNone
  end.

Definition emit (ev : Event) : M unit :=
  fun w =>
    (Ret tt, {| dbs := dbs w; trace := (trace w ++ [ev])%list;
                uuids := uuids w; inserter := inserter w |}).

Definition set_db (conn : ConnId) (db : DB) : M unit :=
  fun w =>
    (Ret tt,
     {| dbs := fun c => if Nat.eqb c conn then db else dbs w c;
        trace := trace w; uuids := uuids w; inserter := inserter w |}).

Definition get_inserter : M InsertManager := fun w => (Ret (inserter w), w).

Definition set_inserter (im : InsertManager) : M unit :=
  fun w =>
    (Ret tt, {| dbs := dbs w; trace := trace w;
                uuids := uuids w; inserter := im |}).

(** [crypto.randomUUID()]. *)
Definition crypto_randomUUID : M string :=
  fun w =>
    (Ret (randomUUID (uuids w)),
     {| dbs := dbs w; trace := trace w;
        uuids := S (uuids w); inserter := inserter w |}).

(** *** class [Connection] *)

Definition exec (conn : ConnId) (sql : string) : M (Result unit Error) :=
  fun w =>
    let (db', r) := db_exec (dbs w conn) sql in
    (emit (EvExec conn sql) ;; set_db conn db' ;; ret r) w.

Definition execOrError (conn : ConnId) (sql : string) : M unit :=
  r <- exec conn sql ;; unwrapResult r.

Definition get_count (conn : ConnId) (sql : string)
  : M (Result (option N) Error) :=
  fun w => (emit (EvGet conn sql) ;; ret (db_get_count (dbs w conn) sql)) w.

Definition get_row (conn : ConnId) (sql : string)
  : M (Result (option Row) Error) :=
  fun w => (emit (EvGet conn sql) ;; ret (db_get_row (dbs w conn) sql)) w.

(** The row callbacks of [each]: every delivered row starts its callback,
    whether or not an earlier one threw; the worker that awaits them
    rejects with the first throw.  The rows are those the database holds
    when the query starts.

    A callback is run to its end before the next one starts: this is the
    schedule on which the driver delivers a row once the callbacks of the
    rows before it have settled.  [Connection.each] does not impose it: a
    callback that waits for the driver, at the probe or at a commit, leaves
    the floor to the callbacks of the rows delivered meanwhile.  What does
    not depend on the schedule is which callbacks run, in which order they
    start, what each of them does, and what they hand to the batcher taken
    together. *)
Fixpoint each_rows (callback : Result Row Error -> M unit)
    (rows : list (Result Row Error)) (w : World) : option Exn * World :=
  match rows with
  | [] => (None, w)
  | r :: rest =>
      match callback r w with
      | (Ret _, w') => each_rows callback rest w'
      | (Throw e, w') => (Some e, snd (each_rows callback rest w'))
      end
  end.

(** [Connection.each]: [await this.db.each(...)] throws when the driver
    rejects, then [await worker] throws what a callback threw. *)
Definition each (conn : ConnId) (query : string)
    (callback : Result Row Error -> M unit) : M N :=
  fun w =>
    let (rows, completion) := db_each (dbs w conn) query in
    match emit (EvEach conn query) w with
    | (_, w0) =>
        let (thrown, w1) := each_rows callback rows w0 in
        match completion with
        | Err e => (Throw (DriverError e), w1)
        | Ok count =>
            match thrown with
            | Some e => (Throw e, w1)
            | None => (Ret count, w1)
            end
        end
    end.

(** [Connection.close]: [await this.db.close()], whose rejection is
    thrown on. *)
Definition close (conn : ConnId) : M unit :=
  fun w => (emit (EvClose conn) ;; unwrapResult (db_close (dbs w conn))) w.

(** *** class [InsertManager] *)

Definition new_InsertManager (conn : ConnId) (threshold : Z) : InsertManager :=
  {| statements := []; count := 0%N; connection := conn;
     threshold := threshold |}.

Definition batchSql (stmts : list string) : string :=
  "BEGIN TRANSACTION; " ++ join "; " stmts ++ "; COMMIT;".

Definition flush : M N :=
  this <- get_inserter ;;
  let batch := batchSql (statements this) in
  set_inserter {| statements := []; count := 0%N;
                  connection := connection this;
                  threshold := threshold this |} ;;
  execOrError (connection this) batch ;;
  ret (count this).

Definition maybeFlush : M N :=
  this <- get_inserter ;;
  if Z.geb (Z.of_nat (List.length (statements this))) (threshold this)
  then flush
  else ret 0%N.

Definition insert (statement : string) : M N :=
  this <- get_inserter ;;
  set_inserter {| statements := (statements this ++ [statement])%list;
                  count := (count this + 1)%N;
                  connection := connection this;
                  threshold := threshold this |} ;;
  maybeFlush.

Definition insertSupporting (statement : string) : M N :=
  this <- get_inserter ;;
  set_inserter {| statements := (statements this ++ [statement])%list;
                  count := count this;
                  connection := connection this;
                  threshold := threshold this |} ;;
  maybeFlush.

(** ** data.ts: the methods that reach the database *)

Definition createTableSql (t : MapTable) : string :=
  "CREATE TABLE " ++ map_name t
    ++ " ( old_id TEXT NOT NULL, new_id TEXT NOT NULL )".

Definition createInto (t : MapTable) (conn : ConnId) : M unit :=
  execOrError conn (createTableSql t).

Definition dropSql (t : MapTable) : string :=
  "DROP INDEX IF EXISTS " ++ dq ++ map_name t ++ "_old_id" ++ dq ++ "; "
    ++ "DROP INDEX IF EXISTS " ++ dq ++ map_name t ++ "_new_id" ++ dq ++ "; "
    ++ "DROP INDEX IF EXISTS " ++ dq ++ map_name t ++ "_new_id_old_id" ++ dq
    ++ "; "
    ++ "DROP TABLE IF EXISTS " ++ dq ++ map_name t ++ dq ++ ";".

Definition dropFrom (t : MapTable) (conn : ConnId) : M unit :=
  execOrError conn (dropSql t).

Definition createIndicesSql (t : MapTable) : string :=
  let n := dq ++ map_name t ++ dq in
  "CREATE INDEX " ++ dq ++ map_name t ++ "_old_id" ++ dq ++ " ON " ++ n
    ++ "(" ++ dq ++ "old_id" ++ dq ++ "); "
    ++ "CREATE INDEX " ++ dq ++ map_name t ++ "_new_id" ++ dq ++ " ON " ++ n
    ++ "(" ++ dq ++ "new_id" ++ dq ++ "); "
    ++ "CREATE INDEX " ++ dq ++ map_name t ++ "_new_id_old_id" ++ dq
    ++ " ON " ++ n
    ++ "(" ++ dq ++ "new_id" ++ dq ++ ", " ++ dq ++ "old_id" ++ dq ++ ");".

Definition createIndices (t : MapTable) (conn : ConnId) : M unit :=
  execOrError conn (createIndicesSql t).

(** [Model.verifyIntegrity].  The count is read from the property
    [count] of the row; a row without it, the column of the query being
    named [COUNT( * )], reads like a count of 0, as [undefined > 0] is
    false. *)
Definition integrityQuery (m : Model) : string :=
  "SELECT COUNT(*) FROM pragma_foreign_key_check('" ++ model_name m ++ "');".

Definition verifyIntegrity (m : Model) (conn : ConnId)
  : M (Result unit N) :=
  check <- get_count conn (integrityQuery m) ;;
  if isOk check then
    o <- unwrapResult check ;;
    count <- unwrapOption o ;;
    if N.ltb 0 count then ret (Err count) else ret (Ok tt)
  else ret (Ok tt).

(** ** merge.ts

    The white space of the SQL template literals is reduced to single
    blanks and line breaks. *)

Definition DEFAULT_MIN_INSERTS : Z := 1000.

Definition countQuery (model : Model) (primaryKey : Column) : string :=
  "SELECT COUNT(" ++ col_name primaryKey ++ ") AS count FROM "
    ++ dq ++ model_name model ++ dq ++ " WHERE 1".

Definition colsToCopy (model : Model) (schema : Schema) : list Column :=
  filter (fun column => isRegular column schema) (columns model).

Definition quotedColumns (model : Model) (schema : Schema) : string :=
  join ", "
    (map (fun col => quoted col (model_name model) ++ " AS " ++ col_name col)
       (colsToCopy model schema)).

Definition selectQuery (model : Model) (schema : Schema)
    (primaryKey : Column) : string :=
  "SELECT " ++ dq ++ col_name primaryKey ++ dq ++ " AS unquotedPk, "
    ++ "quote(" ++ dq ++ col_name primaryKey ++ dq ++ ") AS "
    ++ dq ++ col_name primaryKey ++ dq ++ ", "
    ++ quotedColumns model schema
    ++ " FROM " ++ dq ++ model_name model ++ dq ++ " WHERE 1;".

(** The loop over the columns of the unique index: the [JOIN] and [WHERE]
    clauses of the probe, [idx] counting from 0. *)
Fixpoint checkClauses (model : Model) (names : list string) (idx : nat)
    (checkJoins checkWheres : list string)
  : M (list string * list string) :=
  match names with
  | [] => ret (checkJoins, checkWheres)
  | name :: rest =>
      col <- unwrapOption (getCol model name) ;;
      match getRelatedColumn col model with
      | Some relatedColumn =>
          let key := dq ++ model_name model ++ dq ++ "."
                       ++ dq ++ col_name col ++ dq in
          let foreignKey := ty_name (ty relatedColumn) ++ "_id_map.new_id" in
          let checkJoin :=
            "JOIN " ++ ty_name (ty relatedColumn) ++ "_id_map ON "
              ++ key ++ " = " ++ foreignKey in
          let checkWhere :=
            ty_name (ty relatedColumn) ++ "_id_map.old_id = ?"
              ++ show_nat (idx + 1) in
          checkClauses model rest (S idx)
            (checkJoins ++ [checkJoin])%list
            (checkWheres ++ [checkWhere])%list
      | None =>
          let checkWhere := name ++ " = ?" ++ show_nat (idx + 1) in
          checkClauses model rest (S idx) checkJoins
            (checkWheres ++ [checkWhere])%list
      end
  end.

Definition buildCheckSqlTemplate (model : Model) (primaryKey : Column)
  : M (option string) :=
  match model_unique model with
  | Some unique =>
      clauses <- checkClauses model (columnNames unique) 0 [] [] ;;
      let (checkJoins, checkWheres) := clauses in
      ret (Some
             ("SELECT quote(" ++ col_name primaryKey ++ ") AS "
                ++ col_name primaryKey ++ " FROM "
                ++ dq ++ model_name model ++ dq ++ nl
                ++ join nl checkJoins ++ nl
                ++ "WHERE " ++ join " AND " checkWheres ++ nl
                ++ "LIMIT 1;"))
  | None => ret None
  end.

(** The count loop: the running total, and the first connection whose
    count exceeds every count before it.  [primary] starts as
    [connections[0]], which is [undefined] for an empty array. *)
Fixpoint countRows (countQuery : string) (conns : list ConnId)
    (totalRows : N) (primary : option ConnId) (primaryCount : N)
  : M (N * option ConnId) :=
  match conns with
  | [] => ret (totalRows, primary)
  | conn :: rest =>
      r <- get_count conn countQuery ;;
      o <- unwrapResult r ;;
      count <- unwrapOption o ;;
      let totalRows := (totalRows + count)%N in
      if N.ltb primaryCount count
      then countRows countQuery rest totalRows (Some conn) count
      else countRows countQuery rest totalRows primary primaryCount
  end.

(** [conn === primary] on object identities. *)
Definition sameConn (conn : option ConnId) (primary : option ConnId) : bool :=
  match conn, primary with
  | Some a, Some b => Nat.eqb a b
  | None, None => true
  | _, _ => false
  end.

Definition sortedConnections (connections : list ConnId)
    (primary : option ConnId) : list (option ConnId) :=
  primary ::
  map Some (filter (fun conn => negb (sameConn (Some conn) primary))
              connections).

(** [progress.inc(...)] and [progress.finish()] on the reporter. *)
Definition progress_inc (delta : N) : M unit := emit (EvInc delta).

Definition progress_finish : M unit := emit EvFinish.

(** The textual substitution of [?1 ... ?k] in the probe. *)
Fixpoint substitute (checkSql : string) (row : Row) (names : list string)
    (idx : nat) : string :=
  match names with
  | [] => checkSql
  | col :: rest =>
      let value := field row col in
      substitute (replace checkSql ("?" ++ show_nat (idx + 1)) (text value))
        row rest (S idx)
  end.

(** The existence check of one row; [Some v] when a row was found, [v]
    being [existingRow[primaryKey.name]]. *)
Definition probe (model : Model) (merged : ConnId) (primaryKey : Column)
    (checkSqlTemplate : string) (row : Row) : M (option (option string)) :=
  unique <- unwrapOption (model_unique model) ;;
  let checkSql := substitute checkSqlTemplate row (columnNames unique) 0 in
  found <- get_row merged checkSql ;;
  match found with
  | Ok (Some existingRow) => ret (Some (field existingRow (col_name primaryKey)))
  | Ok None => ret None
  | Err _ => ret None
  end.

(** The three arrays the insert is built from. *)
Fixpoint insertParts (model : Model) (schema : Schema) (row : Row)
    (cols : list Column)
    (selectValues : list (option string))
    (selectColumns joinStatements : list string)
  : list (option string) * list string * list string :=
  match cols with
  | [] => (selectValues, selectColumns, joinStatements)
  | column :: rest =>
      match getRelatedColumn column model with
      | Some relatedColumn =>
          let oldId := field row (col_name column) in
          let selectValue := ty_name (ty relatedColumn) ++ "_id_map.new_id" in
          let joinStatement :=
            "LEFT JOIN " ++ ty_name (ty relatedColumn) ++ "_id_map"
              ++ " ON " ++ ty_name (ty relatedColumn)
              ++ "_id_map.old_id = " ++ text oldId in
          insertParts model schema row rest
            (selectValues ++ [Some selectValue])%list
            (selectColumns ++ [col_name column])%list
            (joinStatements ++ [joinStatement])%list
      | None =>
          if isRegular column schema then
            insertParts model schema row rest
              (selectValues ++ [field row (col_name column)])%list
              (selectColumns ++ [col_name column])%list
              joinStatements
          else
            insertParts model schema row rest
              selectValues selectColumns joinStatements
      end
  end.

Definition insert_sql (model : Model) (schema : Schema)
    (primaryKey : Column) (row : Row) (newPk : string) : string :=
  match insertParts model schema row (columns model)
          [Some ("'" ++ newPk ++ "'")] [col_name primaryKey] [] with
  | (selectValues, selectColumns, joinStatements) =>
      "INSERT INTO " ++ dq ++ model_name model ++ dq
        ++ " (" ++ join ", " selectColumns ++ ")" ++ nl
        ++ "SELECT " ++ join_any ", " selectValues ++ nl
        ++ "FROM (SELECT 1) AS dummy" ++ nl
        ++ join nl joinStatements ++ nl
        ++ "LIMIT 1"
  end.

(** The two inserts into the identity map: the one of the matched branch
    takes the key as the probe returned it, already quoted. *)
Definition idMapInsertExisting (model : Model) (oldPk existingId : string)
  : string :=
  "INSERT INTO " ++ dq ++ map_name (mapTable model) ++ dq
    ++ " (old_id, new_id) VALUES ('" ++ oldPk ++ "', " ++ existingId ++ ")".

Definition idMapInsert (model : Model) (oldPk newPk : string) : string :=
  "INSERT INTO " ++ dq ++ map_name (mapTable model) ++ dq
    ++ " (old_id, new_id)" ++ nl
    ++ "VALUES ('" ++ oldPk ++ "', '" ++ newPk ++ "')".

(** The callback [mergeModel] hands to [conn.each]. *)
Definition mergeRow (model : Model) (schema : Schema) (merged : ConnId)
    (primaryKey : Column) (checkSqlTemplate : option string)
    (isPrimary : bool) (rowResult : Result Row Error) : M unit :=
  let isSecondary := negb isPrimary in
  match rowResult with
  | Err _ => ret tt
  | Ok row =>
      let oldPk := field row "unquotedPk" in
      existingPk <-
        (if isSecondary then
           match checkSqlTemplate with
           | Some template => probe model merged primaryKey template row
           | None => ret None
           end
         else ret None) ;;
      match existingPk with
      | Some existingId =>
          n <- insert (idMapInsertExisting model (text oldPk)
                         (text existingId)) ;;
          progress_inc n
      | None =>
          newPk <- (if isPrimary then ret (text oldPk)
                    else crypto_randomUUID) ;;
          n <- insert (insert_sql model schema primaryKey row newPk) ;;
          progress_inc n ;;
          n <- insertSupporting (idMapInsert model (text oldPk) newPk) ;;
          progress_inc n
      end
  end.

(** The loop over [sortedConnections]; an [undefined] connection has no
    method [each]. *)
Definition mergeSource (model : Model) (schema : Schema) (merged : ConnId)
    (primaryKey : Column) (checkSqlTemplate : option string)
    (primary : option ConnId) (conn : option ConnId) : M unit :=
  let isPrimary := sameConn conn primary in
  match conn with
  | None => throw TypeError
  | Some conn =>
      each conn (selectQuery model schema primaryKey)
        (mergeRow model schema merged primaryKey checkSqlTemplate isPrimary) ;;
      n <- flush ;;
      progress_inc n
  end.

Definition mergeModel (model : Model) (schema : Schema)
    (connections : list ConnId) (merged : ConnId) (minInserts : Z)
    (showProgress : bool) : M unit :=
  createInto (mapTable model) merged ;;
  set_inserter (new_InsertManager merged minInserts) ;;
  primaryKey <- unwrapOption (primaryKey model) ;;
  checkSqlTemplate <- buildCheckSqlTemplate model primaryKey ;;
  counted <- countRows (countQuery model primaryKey) connections 0%N
               (nth_error connections 0) 0%N ;;
  let (totalRows, primary) := counted in
  (if showProgress then emit (EvProgressCreate (model_name model) totalRows)
   else ret tt) ;;
  forEach (sortedConnections connections primary)
    (mergeSource model schema merged primaryKey checkSqlTemplate primary) ;;
  n <- flush ;;
  progress_inc n ;;
  createIndices (mapTable model) merged ;;
  progress_finish.

Definition fastPragmas : string :=
  "PRAGMA synchronous = OFF; PRAGMA journal_mode = OFF; "
    ++ "PRAGMA temp_store = MEMORY; PRAGMA cache_size = -16000; "
    ++ "PRAGMA foreign_keys = OFF;".

Definition safePragmas : string :=
  "PRAGMA synchronous = ON; PRAGMA journal_mode = DELETE; "
    ++ "PRAGMA foreign_keys = ON;".

(** An entry [None] of [order] is [undefined]: reading its [mapTable]
    throws. *)
Definition mergeEach (schema : Schema) (connections : list ConnId)
    (merged : ConnId) (minInserts : Z) (showProgress : bool)
    (order : list (option Model)) : M unit :=
  forEach order
    (fun currentModel =>
       match currentModel with
       | Some currentModel =>
           mergeModel currentModel schema connections merged minInserts
             showProgress
       | None => throw TypeError
       end).

Definition copySchemaRow (merged : ConnId) (result : Result Row Error)
  : M unit :=
  row <- unwrapResult result ;;
  match field row "sql" with
  | Some sql =>
      if String.eqb sql EmptyString then ret tt else execOrError merged sql
  | None => ret tt
  end.

Definition prismerge (schema : Schema) (connections : list ConnId)
    (merged : ConnId) (minInserts : Z) (showProgress : bool) : M unit :=
  order <- (fun w => match sortedModels schema with
                     | Ret order => (Ret order, w)
                     | Throw e => (Throw e, w)
                     end) ;;
  execOrError merged fastPragmas ;;
  match nth_error connections 0 with
  | Some first =>
      each first "SELECT sql FROM sqlite_master;" (copySchemaRow merged) ;;
      ret tt
  | None => throw TypeError
  end ;;
  mergeEach schema connections merged minInserts showProgress order ;;
  execOrError merged safePragmas.

(** The body of the integrity loop of [merge]. *)
Definition reportIntegrity (merged : ConnId) (currentModel : Model) : M unit :=
  integrity <- verifyIntegrity currentModel merged ;;
  match integrity with
  | Err value =>
      emit (EvLog ("Table " ++ model_name currentModel ++ " has "
                     ++ show_nat (N.to_nat value)
                     ++ " foreign key integrity problems"))
  | Ok _ => ret tt
  end.

(** [vacuum] is called without [await]: the statement is issued, what
    becomes of it does not reach [merge]. *)
Definition vacuum (conn : ConnId) : M unit :=
  _ <- exec conn "VACUUM;" ;; ret tt.

(** [merge], from the point where [getSchema()] has returned and the
    connections are open. *)
Definition merge (schema : Schema) (connections : list ConnId)
    (merged : ConnId) (minInserts : Z) (keepIdMaps : bool) : M unit :=
  prismerge schema connections merged minInserts true ;;
  forEach (Map_values (models schema)) (reportIntegrity merged) ;;
  (if negb keepIdMaps then
     forEach (Map_values (models schema))
       (fun currentModel => dropFrom (mapTable currentModel) merged)
   else ret tt) ;;
  vacuum merged ;;
  close merged.

End WithDriver.

Notation "x <- m ;; k" := (bind m (fun x => k))
  (at level 61, m at next level, right associativity).
Notation "m ;; k" := (bind m (fun _ => k))
  (at level 61, right associativity).

(** * Vocabulary of the properties *)

(** ** Readings of the trace *)

(** The SQL texts executed on connection [c], in order. *)
Definition execs (c : ConnId) (tr : list Event) : list string :=
  flat_map (fun ev => match ev with
                      | EvExec c' sql => if Nat.eqb c' c then [sql] else []
                      | _ => []
                      end) tr.

(** The queries sent to [Connection.get] of connection [c]. *)
Definition gets (c : ConnId) (tr : list Event) : list string :=
  flat_map (fun ev => match ev with
                      | EvGet c' sql => if Nat.eqb c' c then [sql] else []
                      | _ => []
                      end) tr.

(** The connections streamed with [Connection.each]. *)
Definition eachs (tr : list Event) : list ConnId :=
  flat_map (fun ev => match ev with EvEach c _ => [c] | _ => [] end) tr.

(** The amounts handed to [progress.inc]. *)
Definition incs (tr : list Event) : list N :=
  flat_map (fun ev => match ev with EvInc delta => [delta] | _ => [] end) tr.

(** The lines printed with [console.log]. *)
Definition logs (tr : list Event) : list string :=
  flat_map (fun ev => match ev with EvLog line => [line] | _ => [] end) tr.

Definition sumN (l : list N) : N := fold_right N.add 0%N l.

(** ** The batcher, as the design words it

    [feed T pending stmts]: statements arrive one by one behind [pending];
    whenever the buffer holds at least [T] statements it leaves as one
    batch.  The result is the batches in order and the statements still
    pending. *)
Fixpoint feed (T : Z) (pending : list string) (stmts : list string)
  : list (list string) * list string :=
  match stmts with
  | [] => ([], pending)
  | s :: rest =>
      let buffer := (pending ++ [s])%list in
      if Z.geb (Z.of_nat (List.length buffer)) T
      then let (batches, left) := feed T [] rest in (buffer :: batches, left)
      else feed T buffer rest
  end.

(** A buffer never counts more progress than it holds statements; every
    [InsertManager] starts so and stays so. *)
Definition consistent (im : InsertManager) : Prop :=
  N.to_nat (count im) <= List.length (statements im).

Section WorldVocabulary.
Context {driver : Driver}.

(** The [InsertManager] with an empty buffer. *)
Definition emptied (im : InsertManager) : InsertManager :=
  {| statements := []; count := 0%N;
     connection := connection im; threshold := threshold im |}.

(** The [InsertManager] after one more statement, [k] of it progress. *)
Definition pushed (im : InsertManager) (statement : string) (k : N)
  : InsertManager :=
  {| statements := (statements im ++ [statement])%list;
     count := (count im + k)%N;
     connection := connection im; threshold := threshold im |}.

Definition with_inserter (w : World) (im : InsertManager) : World :=
  {| dbs := dbs w; trace := trace w; uuids := uuids w; inserter := im |}.

(** Does the driver accept [sql] on connection [c] in world [w]? *)
Definition exec_result (w : World) (c : ConnId) (sql : string)
  : Result unit Error :=
  snd (db_exec (dbs w c) sql).

(** The world once the driver has run [sql] on connection [c]. *)
Definition executed (w : World) (c : ConnId) (sql : string) : World :=
  {| dbs := fun c' => if Nat.eqb c' c then fst (db_exec (dbs w c) sql)
                      else dbs w c';
     trace := (trace w ++ [EvExec c sql])%list;
     uuids := uuids w; inserter := inserter w |}.

(** One batch commit: the buffer is emptied, then its statements are
    executed as one transaction; the count comes back when the driver
    accepted them. *)
Definition committed (w : World) : Outcome N * World :=
  let this := inserter w in
  let batch := batchSql (statements this) in
  let w0 := with_inserter w (emptied this) in
  (match exec_result w0 (connection this) batch with
   | Ok _ => Ret (count this)
   | Err e => Throw (DriverError e)
   end,
   executed w0 (connection this) batch).
End WorldVocabulary.

(** ** What becomes of a source row *)

(** Either the probe found a row, whose key it returned, or the row was
    inserted under a key chosen for it. *)
Inductive RowOutcome : Type :=
| Matched (existingId : option string)
| Inserted (newPk : string).

Section RowVocabulary.
Context {driver : Driver}.

Definition oldPk (row : Row) : string := text (field row "unquotedPk").

(** The insert into the model's table: none for a matched row. *)
Definition model_statement (model : Model) (schema : Schema)
    (primaryKey : Column) (row : Row) (o : RowOutcome) : list string :=
  match o with
  | Matched _ => []
  | Inserted newPk => [insert_sql model schema primaryKey row newPk]
  end.

(** The insert into the identity map: the old key of the row, and the key
    the destination holds for it. *)
Definition idMap_statement (model : Model) (row : Row) (o : RowOutcome)
  : string :=
  match o with
  | Matched existingId =>
      idMapInsertExisting model (oldPk row) (text existingId)
  | Inserted newPk => idMapInsert model (oldPk row) newPk
  end.

(** The statements one processed row hands to the batcher. *)
Definition row_statements (model : Model) (schema : Schema)
    (primaryKey : Column) (row : Row) (o : RowOutcome) : list string :=
  (model_statement model schema primaryKey row o
     ++ [idMap_statement model row o])%list.

(** The rows a stream delivered, without the read errors. *)
Definition ok_rows (results : list (Result Row Error)) : list Row :=
  flat_map (fun r => match r with Ok row => [row] | Err _ => [] end) results.

(** The batches one source leaves behind: those its statements fill, then
    the [flush] that follows the stream. *)
Definition source_batches (T : Z) (stmts : list string) : list (list string) :=
  (fst (feed T [] stmts) ++ [snd (feed T [] stmts)])%list.

(** [Run merged w w' stmts rows]: from [w] to [w'] the engine handed
    [stmts] to the batcher, [rows] of them counting as progress, and
    touched nothing but the destination. *)
Record Run (merged : ConnId) (w w' : World) (stmts : list string) (rows : N)
  : Prop := {
  run_frame : forall c, c <> merged -> dbs w' c = dbs w c;
  run_connection : connection (inserter w') = connection (inserter w);
  run_threshold : threshold (inserter w') = threshold (inserter w);
  run_execs :
    execs merged (trace w')
    = (execs merged (trace w)
         ++ map batchSql
              (fst (feed (threshold (inserter w))
                      (statements (inserter w)) stmts)))%list;
  run_pending :
    statements (inserter w')
    = snd (feed (threshold (inserter w)) (statements (inserter w)) stmts);
  run_progress :
    (sumN (incs (trace w')) + count (inserter w')
     = sumN (incs (trace w)) + count (inserter w) + rows)%N;
  run_eachs : eachs (trace w') = eachs (trace w);
  run_extends : exists evs, trace w' = (trace w ++ evs)%list
}.
End RowVocabulary.

Arguments run_frame {driver merged w w' stmts rows} _ c _.
Arguments run_connection {driver merged w w' stmts rows} _.
Arguments run_threshold {driver merged w w' stmts rows} _.
Arguments run_execs {driver merged w w' stmts rows} _.
Arguments run_pending {driver merged w w' stmts rows} _.
Arguments run_progress {driver merged w w' stmts rows} _.
Arguments run_eachs {driver merged w w' stmts rows} _.
Arguments run_extends {driver merged w w' stmts rows} _.

Section ProbeVocabulary.
Context {driver : Driver}.

(** The world after [Connection.get] was asked [sql] on [c]. *)
Definition asked (w : World) (c : ConnId) (sql : string) : World :=
  {| dbs := dbs w; trace := (trace w ++ [EvGet c sql])%list;
     uuids := uuids w; inserter := inserter w |}.

(** The text of the probe for [row]. *)
Definition probeSql (model : Model) (template : string) (row : Row) : string :=
  match model_unique model with
  | Some unique => substitute template row (columnNames unique) 0
  | None => template
  end.

(** Is the probe run for a row?  Only for a secondary source and a model
    with a probe template. *)
Definition probed (template : option string) (isPrimary : bool) : bool :=
  negb isPrimary && isSome template.

(** What the existence check of [row] finds in world [w]: the key of an
    existing row, or nothing (also when the probe is not run, or fails). *)
Definition found (w : World) (model : Model) (merged : ConnId)
    (primaryKey : Column) (template : option string) (isPrimary : bool)
    (row : Row) : option (option string) :=
  if isPrimary then None
  else
    match template with
    | None => None
    | Some t =>
        match db_get_row (dbs w merged) (probeSql model t row) with
        | Ok (Some existingRow) =>
            Some (field existingRow (col_name primaryKey))
        | _ => None
        end
    end.

(** The key chosen for a row that is inserted. *)
Definition chosenPk (w : World) (isPrimary : bool) (row : Row) : string :=
  if isPrimary then oldPk row else randomUUID (uuids w).

Definition row_outcome (w : World) (model : Model) (merged : ConnId)
    (primaryKey : Column) (template : option string) (isPrimary : bool)
    (row : Row) : RowOutcome :=
  match found w model merged primaryKey template isPrimary row with
  | Some existingId => Matched existingId
  | None => Inserted (chosenPk w isPrimary row)
  end.

(** What holds of an outcome whatever the world: a row of the primary is
    never matched, and is inserted under its own key. *)
Definition outcome_ok (isPrimary : bool) (row : Row) (o : RowOutcome) : Prop :=
  match o with
  | Matched _ => isPrimary = false
  | Inserted newPk => isPrimary = true -> newPk = oldPk row
  end.
End ProbeVocabulary.

Section StateVocabulary.
Context {driver : Driver}.

(** The database the statements [stmts] leave behind, executed one after
    the other. *)
Definition db_after (db : DB) (stmts : list string) : DB :=
  fold_left (fun db sql => fst (db_exec db sql)) stmts db.

(** [w'] is reached from [w]: calls were added to the trace, every
    database is what the statements executed on it since have made of it,
    and the UUIDs drawn are still drawn. *)
Definition reached (w w' : World) : Prop :=
  exists evs,
    trace w' = (trace w ++ evs)%list /\
    (forall c, dbs w' c = db_after (dbs w c) (execs c evs)) /\
    uuids w <= uuids w'.

End StateVocabulary.

Section SourceVocabulary.
Context {driver : Driver}.

(** The statements the processed rows of one source hand over. *)
Definition processed_statements (model : Model) (schema : Schema)
    (primaryKey : Column) (processed : list (Row * RowOutcome))
  : list string :=
  flat_map (fun p => row_statements model schema primaryKey (fst p) (snd p))
    processed.

(** [Drained merged w w' batches rows streamed]: from [w] to [w'] the
    engine committed [batches] on the destination, in this order, reported
    [rows] rows of progress, streamed the connections [streamed], left the
    buffer empty and touched no other database. *)
Record Drained (merged : ConnId) (w w' : World)
    (batches : list (list string)) (rows : N) (streamed : list ConnId)
  : Prop := {
  dr_frame : forall c, c <> merged -> dbs w' c = dbs w c;
  dr_connection : connection (inserter w') = connection (inserter w);
  dr_threshold : threshold (inserter w') = threshold (inserter w);
  dr_execs :
    execs merged (trace w')
    = (execs merged (trace w) ++ map batchSql batches)%list;
  dr_pending : statements (inserter w') = [];
  dr_count : count (inserter w') = 0%N;
  dr_progress :
    (sumN (incs (trace w'))
     = sumN (incs (trace w)) + count (inserter w) + rows)%N;
  dr_eachs : eachs (trace w') = (eachs (trace w) ++ streamed)%list;
  dr_extends : exists evs, trace w' = (trace w ++ evs)%list
}.

(** The rows source [c] delivers in world [w]. *)
Definition source_rows (w : World) (c : ConnId) (query : string) : list Row :=
  ok_rows (fst (db_each (dbs w c) query)).

(** The count source [c] reports in world [w]. *)
Definition source_count (w : World) (c : ConnId) (query : string) : N :=
  match db_get_count (dbs w c) query with
  | Ok (Some n) => n
  | _ => 0%N
  end.

(** [p] is the source with the largest count, the earliest of them. *)
Definition is_primary (connections : list ConnId) (counts : list N)
    (p : ConnId) : Prop :=
  exists i m,
    nth_error connections i = Some p /\ nth_error counts i = Some m /\
    (forall j n, nth_error counts j = Some n -> (n <= m)%N) /\
    (forall j n, j < i -> nth_error counts j = Some n -> (n < m)%N).

(** The secondary sources, in input order. *)
Definition secondaries (connections : list ConnId) (p : ConnId)
  : list ConnId :=
  filter (fun c => negb (Nat.eqb c p)) connections.
End SourceVocabulary.

Arguments dr_frame {driver merged w w' batches rows streamed} _ c _.
Arguments dr_connection {driver merged w w' batches rows streamed} _.
Arguments dr_threshold {driver merged w w' batches rows streamed} _.
Arguments dr_execs {driver merged w w' batches rows streamed} _.
Arguments dr_pending {driver merged w w' batches rows streamed} _.
Arguments dr_count {driver merged w w' batches rows streamed} _.
Arguments dr_progress {driver merged w w' batches rows streamed} _.
Arguments dr_eachs {driver merged w w' batches rows streamed} _.
Arguments dr_extends {driver merged w w' batches rows streamed} _.

Section ModelVocabulary.
Context {driver : Driver}.

(** The rows of one source together with what became of each. *)
Definition SourceRun : Type := (ConnId * list (Row * RowOutcome))%type.

(** Every row the source delivered is there, once and in order, and its
    outcome is possible for a source that is primary or not. *)
Definition source_run_ok (w : World) (query : string) (p : ConnId)
    (run : SourceRun) : Prop :=
  map fst (snd run) = source_rows w (fst run) query /\
  Forall (fun ro => outcome_ok (Nat.eqb (fst run) p) (fst ro) (snd ro))
    (snd run).

(** The batches a model leaves behind: those of its sources in turn, then
    the last [flush], on an empty buffer. *)
Definition model_batches (model : Model) (schema : Schema)
    (primaryKey : Column) (T : Z) (runs : list SourceRun)
  : list (list string) :=
  (flat_map (fun run => source_batches T
                          (processed_statements model schema primaryKey
                             (snd run))) runs ++ [[]])%list.

Definition processed_rows (runs : list SourceRun) : list (Row * RowOutcome) :=
  flat_map snd runs.
End ModelVocabulary.

(** The sizes of the batches [feed] makes depend on sizes only:
    [feedN T n k] feeds [k] statements behind [n] pending ones. *)
Fixpoint feedN (T : Z) (n k : nat) : list nat * nat :=
  match k with
  | 0 => ([], n)
  | S k' =>
      if Z.geb (Z.of_nat (n + 1)) T
      then let (sizes, left) := feedN T 0 k' in ((n + 1) :: sizes, left)
      else feedN T (n + 1) k'
  end.

Section SubmitVocabulary.
Context {driver : Driver}.

(** [submits merged w w' stmts]: between [w] and [w'] the statements
    [stmts] joined, in order, the stream of statements handed to the
    batcher, each of which is either committed to the destination in a
    batch or still pending in the buffer. *)
Definition submits (merged : ConnId) (w w' : World) (stmts : list string)
  : Prop :=
  exists batches,
    execs merged (trace w')
    = (execs merged (trace w) ++ map batchSql batches)%list /\
    (List.concat batches ++ statements (inserter w'))%list
    = (statements (inserter w) ++ stmts)%list.
End SubmitVocabulary.

Section ProbeQueries.
Context {driver : Driver}.

(** The probes sent for one row: at most one. *)
Definition probe_queries (model : Model) (template : option string)
    (isPrimary : bool) (row : Row) : list string :=
  if probed template isPrimary
  then match template with
       | Some t => [probeSql model t row]
       | None => []
       end
  else [].
End ProbeQueries.

(** ** A scripted driver

    Used to run the engine on concrete inputs: a database answers every
    call with what its script says, whatever the SQL text, and closes
    without error. *)
Record MockDB : Type := {
  mock_exec : Result unit Error;
  mock_count : Result (option N) Error;
  mock_found : Result (option Row) Error;
  mock_rows : list (Result Row Error);
  mock_done : Result N Error
}.

(** [String.prototype.replace] with a pattern and a replacement free of
    [$]: the first occurrence is replaced. *)
Fixpoint replace_first (s pattern replacement : string) : string :=
  if String.prefix pattern s
  then replacement ++ substring (String.length pattern) (String.length s) s
  else match s with
       | EmptyString => EmptyString
       | String c rest => String c (replace_first rest pattern replacement)
       end.

Definition MockDriver : Driver :=
  {| DB := MockDB;
     db_exec := fun db _ => (db, mock_exec db);
     db_get_count := fun db _ => mock_count db;
     db_get_row := fun db _ => mock_found db;
     db_each := fun db _ => (mock_rows db, mock_done db);
     db_close := fun _ => Ok tt;
     randomUUID := fun n => "uuid-" ++ show_nat n;
     replace := replace_first |}.

Definition MockWorld : Type := @World MockDriver.

(** A source holding [rows], and an empty destination. *)
Definition mockSource (rows : list Row) : MockDB :=
  {| mock_exec := Ok tt;
     mock_count := Ok (Some (N.of_nat (List.length rows)));
     mock_found := Ok None;
     mock_rows := map Ok rows;
     mock_done := Ok (N.of_nat (List.length rows)) |}.

Definition mockWorld (db : ConnId -> MockDB) (im : InsertManager) : MockWorld :=
  @Build_World MockDriver db [] 0 im.

(** A destination that accepts every statement and answers every probe with
    [found]. *)
Definition mockDestination (found : Result (option Row) Error) : MockDB :=
  {| mock_exec := Ok tt; mock_count := Ok (Some 0%N); mock_found := found;
     mock_rows := []; mock_done := Ok 0%N |}.

(** A row of [Owner] as the select statement of the engine returns it. *)
Definition ownerRow (id name : string) : Row :=
  [("unquotedPk", id); ("id", "'" ++ id ++ "'"); ("name", "'" ++ name ++ "'")].

(** Scenario "duplicate across sources": connection 0 is the destination,
    which already holds Woody under key [a]; connections 1 and 2 are the
    inputs, each with its own Woody. *)
Definition duplicateWorld : MockWorld :=
  mockWorld
    (fun c => match c with
              | 0 => mockDestination (Ok (Some [("id", "'a'")]))
              | 1 => mockSource [ownerRow "a" "Woody"]
              | _ => mockSource [ownerRow "b" "Woody"]
              end)
    (new_InsertManager 0 0).

(** Scenario "no foreign keys": connection 1 holds Woody, connection 2 holds
    Jessie and Bo; the destination finds no duplicate. *)
Definition ownersWorld : MockWorld :=
  mockWorld
    (fun c => match c with
              | 0 => mockDestination (Ok None)
              | 1 => mockSource [ownerRow "w" "Woody"]
              | _ => mockSource [ownerRow "j" "Jessie"; ownerRow "b" "Bo"]
              end)
    (new_InsertManager 0 0).

(** Scenario "batch boundary": one input with ten rows. *)
Definition tenOwners : list Row :=
  map (fun n => ownerRow ("id" ++ show_nat n) ("name" ++ show_nat n)) (seq 0 10).

Definition tenWorld : MockWorld :=
  mockWorld
    (fun c => match c with
              | 0 => mockDestination (Ok None)
              | _ => mockSource tenOwners
              end)
    (new_InsertManager 0 0).

(** A source whose stream delivers a read error between two rows. *)
Definition brokenSource : MockDB :=
  {| mock_exec := Ok tt; mock_count := Ok (Some 3%N); mock_found := Ok None;
     mock_rows := [Ok (ownerRow "w" "Woody"); Err "disk I/O error";
                   Ok (ownerRow "b" "Bo")];
     mock_done := Ok 3%N |}.

Definition brokenWorld : MockWorld :=
  mockWorld
    (fun c => match c with
              | 0 => mockDestination (Ok None)
              | _ => brokenSource
              end)
    (new_InsertManager 0 0).

(** A source whose stream ends in a rejection. *)
Definition rejectingSource : MockDB :=
  {| mock_exec := Ok tt; mock_count := Ok (Some 1%N); mock_found := Ok None;
     mock_rows := [Ok (ownerRow "w" "Woody")];
     mock_done := Err "database disk image is malformed" |}.

Definition rejectingWorld : MockWorld :=
  mockWorld
    (fun c => match c with
              | 0 => mockDestination (Ok None)
              | _ => rejectingSource
              end)
    (new_InsertManager 0 0).

(** A destination on which the foreign-key check cannot be run, and one on
    which it counts no violation. *)
Definition uncheckedWorld : MockWorld :=
  mockWorld
    (fun _ => {| mock_exec := Ok tt;
                 mock_count := Err "no such table: pragma_foreign_key_check";
                 mock_found := Ok None; mock_rows := []; mock_done := Ok 0%N |})
    (new_InsertManager 0 0).

Definition cleanWorld : MockWorld :=
  mockWorld (fun _ => mockDestination (Ok None)) (new_InsertManager 0 0).




(** The probe template of [Owner]. *)
Definition ownerTemplate : string :=
  "SELECT quote(id) AS id FROM " ++ dq ++ "Owner" ++ dq ++ nl ++ nl
    ++ "WHERE name = ?1" ++ nl ++ "LIMIT 1;".

(** A destination that refuses every statement, and a buffer with two
    statements pending. *)
Definition failingDB : MockDB :=
  {| mock_exec := Err "disk I/O error"; mock_count := Ok (Some 0%N);
     mock_found := Ok None; mock_rows := []; mock_done := Ok 0%N |}.

Definition twoPending : InsertManager :=
  {| statements := ["INSERT 1"; "INSERT 2"]; count := 1%N;
     connection := 0; threshold := 3 |}.

(** * Vocabulary of the proofs *)

(** [before x y l]: [x] occurs in [l] strictly before an occurrence of [y]. *)
Definition before {A} (x y : A) (l : list A) : Prop :=
  exists l1 l2 l3, l = (l1 ++ x :: l2 ++ y :: l3)%list.

(** ** The search of [toposort] *)
Module ToposortSpec.
Import Toposort.

(** [topo E l]: every edge out of a member of [l] leads further right. *)
Fixpoint topo (E : string -> string -> Prop) (l : list string) : Prop :=
  match l with
  | [] => True
  | x :: rest => (forall y, E x y -> In y rest) /\ topo E rest
  end.

Section Search.
Variable nodes : list string.
Variable E : string -> string -> Prop.

(** The invariant of the search: [P] is the current path, [L] the nodes
    already written to [sorted]. *)
Record SearchInv (P L : list string) (st : State) : Prop := {
  inv_sorted : sorted st = (repeat None (cursor st) ++ map Some L)%list;
  inv_cursor : cursor st + List.length L = List.length nodes;
  inv_nodup : NoDup (P ++ L);
  inv_incl : incl (P ++ L) nodes;
  inv_visited : forall i x, nth_error nodes i = Some x ->
                            (In i (visited st) <-> In x (P ++ L));
  inv_topo : topo E L
}.

(** What one call of [visit] achieves. *)
Definition visit_spec (visit1 : string -> State -> Outcome State)
    (P : list string) (child : string) : Prop :=
  forall st L,
    SearchInv P L st -> predecessors st = P ->
    exists st' new,
      visit1 child st = Ret st' /\
      SearchInv P (new ++ L) st' /\ predecessors st' = P /\ In child (new ++ L).
End Search.

Arguments inv_sorted {nodes E P L st} _.
Arguments inv_cursor {nodes E P L st} _.
Arguments inv_nodup {nodes E P L st} _.
Arguments inv_incl {nodes E P L st} _.
Arguments inv_visited {nodes E P L st} _ {i x} _.
Arguments inv_topo {nodes E P L st} _.
End ToposortSpec.

(** ** The relation graph of a schema *)

(** What a [Map] filled by [getSchema] guarantees: distinct keys, each the name
    of its model. *)
Definition schema_wf (s : Schema) : Prop :=
  NoDup (map fst (models s)) /\
  Forall (fun entry => fst entry = model_name (snd entry)) (models s).

(** The relation graph: [A] has a column carrying a relation whose type
    names the model [B]. *)
Definition relation_edge (s : Schema) (A B : string) : Prop :=
  exists model column,
    In model (Map_values (models s)) /\ model_name model = A /\
    In column (columns model) /\ isSome (relation column) = true /\
    ty_name (ty column) = B /\ Map_has (models s) B = true.

Definition acyclic_schema (s : Schema) : Prop :=
  forall A, ~ clos_trans string (relation_edge s) A A.

(** The model a name stands for. *)
Definition noModel : Model :=
  {| model_name := EmptyString; columns := []; model_unique := None |}.

Definition modelNamed (s : Schema) (name : string) : Model :=
  match Map_get (models s) name with
  | Some m => m
  | None => noModel
  end.

(** ** Steps of a run *)

(** An event that is neither a commit, nor progress, nor a stream. *)
Definition silent (ev : Event) : Prop :=
  match ev with
  | EvExec _ _ | EvInc _ | EvEach _ _ => False
  | _ => True
  end.

Section CallbackVocabulary.
Context {driver : Driver}.
Variable model : Model.
Variable schema : Schema.
Variable merged : ConnId.
Variable primaryKey : Column.

(** The first step of the callback: the existence check. *)
Definition existenceCheck (template : option string) (isPrimary : bool)
    (row : Row) : M (option (option string)) :=
  if negb isPrimary then
    match template with
    | Some t => probe model merged primaryKey t row
    | None => ret None
    end
  else ret None.

(** The rest of the callback, on what the check found. *)
Definition afterCheck (isPrimary : bool) (row : Row)
    (existingPk : option (option string)) : M unit :=
  match existingPk with
  | Some existingId =>
      n <- insert (idMapInsertExisting model (oldPk row) (text existingId)) ;;
      progress_inc n
  | None =>
      newPk <- (if isPrimary then ret (oldPk row) else crypto_randomUUID) ;;
      n <- insert (insert_sql model schema primaryKey row newPk) ;;
      progress_inc n ;;
      n <- insertSupporting (idMapInsert model (oldPk row) newPk) ;;
      progress_inc n
  end.
End CallbackVocabulary.

Section HandedVocabulary.
Context {driver : Driver}.


End HandedVocabulary.

Section WorldSteps.
Context {driver : Driver}.

(** Whatever [m] does, the world it leaves is reached from the one it
    started in. *)
Definition tracks {A} (m : M A) : Prop :=
  forall w, reached w (snd (m w)).

(** The outcome of a processed row is what the existence check found, and
    the key chosen, in a state [w_r] between [w] and [w']. *)
Definition tied (model : Model) (merged : ConnId) (primaryKey : Column)
    (template : option string) (w w' : World) (isPrimary : bool)
    (ro : Row * RowOutcome) : Prop :=
  exists w_r,
    reached w w_r /\ reached w_r w' /\
    snd ro = row_outcome w_r model merged primaryKey template isPrimary
               (fst ro).

(** The world once [Connection.get] was asked [query] on each of [conns]. *)
Definition counted (w : World) (query : string) (conns : list ConnId) : World :=
  {| dbs := dbs w;
     trace := (trace w ++ map (fun c => EvGet c query) conns)%list;
     uuids := uuids w; inserter := inserter w |}.

(** [m] sends nothing to [Connection.get] and draws no UUID. *)
Definition plain (merged : ConnId) {A} (m : M A) : Prop :=
  forall w, gets merged (trace (snd (m w))) = gets merged (trace w)
            /\ uuids (snd (m w)) = uuids w.
End WorldSteps.

(** * The rest of the code *)

(** ** prisma.ts

    [getSchema] reads the data model Prisma generates ([Prisma.dmmf]).  The
    two records hold what the code reads of a [DMMF.Field] and of a
    [DMMF.Model]; the two relation properties of a field are optional. *)
Record DMMF_Field : Type := {
  field_name : string;
  field_type : string;
  isList : bool;
  isReadOnly : bool;
  isUnique : bool;
  isId : bool;
  relationFromFields : option (list string);
  relationToFields : option (list string)
}.

Record DMMF_Model : Type := {
  dmmf_name : string;
  dmmf_fields : list DMMF_Field;
  uniqueFields : list (list string)
}.

Definition relationFromColumn (column : DMMF_Field) : option Relation :=
  match relationToFields column, relationFromFields column with
  | Some toFields, Some fromFields =>
      if Nat.ltb 0 (List.length toFields) && Nat.ltb 0 (List.length fromFields)
      then Some {| fields := fromFields; references := toFields |}
      else None
  | _, _ => None
  end.

Definition columnTypeFromColumn (column : DMMF_Field) : ColumnType :=
  {| ty_name := field_type column; collection := isList column;
     nullable := negb (isReadOnly column) |}.

Definition handleColumn (column : DMMF_Field) : Column :=
  {| col_name := field_name column;
     ty := columnTypeFromColumn column;
     relation := relationFromColumn column;
     col_unique := isUnique column;
     primary_key := isId column |}.

(** [model.uniqueFields[0]] is an array, truthy whenever it is there. *)
Definition handleModel (model : DMMF_Model) : Model :=
  let columns := map handleColumn (dmmf_fields model) in
  let unique :=
    match nth_error (uniqueFields model) 0 with
    | Some first => Some {| columnNames := first |}
    | None =>
        match find col_unique columns with
        | Some uniqueCol => Some {| columnNames := [col_name uniqueCol] |}
        | None => None
        end
    end in
  {| model_name := dmmf_name model; columns := columns;
     model_unique := unique |}.

(** [Map.prototype.set]: the value of a key that is there is replaced where
    it stands, a new key goes to the end. *)
Fixpoint Map_set {V} (entries : list (string * V)) (key : string) (value : V)
  : list (string * V) :=
  match entries with
  | [] => [(key, value)]
  | e :: rest =>
      if String.eqb (fst e) key then (fst e, value) :: rest
      else e :: Map_set rest key value
  end.

Definition getSchema (datamodel : list DMMF_Model) : Schema :=
  {| models :=
       fold_left (fun entries model =>
                    Map_set entries (dmmf_name model) (handleModel model))
         datamodel [] |}.

(** ** progress.ts

    [ConsoleProgress], the reporter [ProgressIndicator.create] returns when
    the standard input is no terminal.  A method returns the object as it
    has become and the lines it printed. *)
Module ConsoleProgress.

Record t : Type := {
  model_name : string;
  total_rows : N;
  count : N
}.

Definition new (model_name : string) (total_rows : N) : t :=
  {| model_name := model_name; total_rows := total_rows; count := 0%N |}.

Definition report (this : t) : string :=
  model_name this ++ ": Processed " ++ show_nat (N.to_nat (count this))
    ++ "/" ++ show_nat (N.to_nat (total_rows this)) ++ " records".

Definition inc (this : t) (delta : N) : t * list string :=
  let this := {| model_name := model_name this;
                 total_rows := total_rows this;
                 count := (count this + delta)%N |} in
  (this, if N.eqb delta 0 then [] else [report this]).

Definition finish (this : t) : t * list string :=
  let this := {| model_name := model_name this;
                 total_rows := total_rows this;
                 count := total_rows this |} in
  (this, [report this]).

(** The reporter fed the progress calls of a trace, in order. *)
Fixpoint console (this : t) (tr : list Event) : t * list string :=
  match tr with
  | [] => (this, [])
  | ev :: rest =>
      let (this1, lines1) :=
        match ev with
        | EvInc delta => inc this delta
        | EvFinish => finish this
        | _ => (this, [])
        end in
      let (this2, lines2) := console this1 rest in
      (this2, (lines1 ++ lines2)%list)
  end.

End ConsoleProgress.

(** ** The command-line program

    From the point where the options are parsed.  The file system is the
    list of the paths that exist; [answer] is what the user types when
    asked. *)
Module CLI.

Record CLIOptions : Type := {
  outputPath : string;
  remove : bool;
  minInserts : Z;
  keepIdMaps : bool
}.

Definition existsSync (fs : list string) (path : string) : bool :=
  includes fs path.

Definition unlinkSync (fs : list string) (path : string) : list string :=
  filter (fun p => negb (String.eqb p path)) fs.

(** [answer.match(/[yY]/)]. *)
Fixpoint matches_yY (answer : string) : bool :=
  match answer with
  | EmptyString => false
  | String c rest =>
      Ascii.eqb c "y"%char || Ascii.eqb c "Y"%char || matches_yY rest
  end.

(** What the program does, in order.  [merge] is called with three
    arguments, so that its fourth, [keepIdMaps], takes its default. *)
Inductive Step : Type :=
| Question (query : string)
| Log (line : string)
| Exit (code : nat)
| Merge (inputPaths : list string) (outputPath : string) (minInserts : Z)
    (keepIdMaps : bool).

Definition main (options : CLIOptions) (inputPaths : list string)
    (fs : list string) (answer : string) : list string * list Step :=
  let path := outputPath options in
  let fs :=
    if remove options && existsSync fs path then unlinkSync fs path
    else fs in
  let run := Merge inputPaths path (minInserts options) false in
  if existsSync fs path then
    let question :=
      Question ("Output path '" ++ path
                  ++ "' already exists, overwrite it (y/n)? ") in
    if matches_yY answer then
      (unlinkSync fs path,
       [question; Log ("Deleted '" ++ path ++ "'"); run])
    else
      (fs,
       [question;
        Log ("Refusing to write to existing database '" ++ path ++ "'");
        Exit 1])
  else (fs, [run]).

End CLI.

(** ** More vocabulary *)

(** The connections closed, in order. *)
Definition closes (tr : list Event) : list ConnId :=
  flat_map (fun ev => match ev with EvClose c => [c] | _ => [] end) tr.

(** An event that writes to no connection but [merged] and closes none. *)
Definition harmless (merged : ConnId) (ev : Event) : Prop :=
  match ev with
  | EvExec c _ => c = merged
  | EvClose _ => False
  | _ => True
  end.

(** A predicate on the [InsertManager]: it commits to [merged]. *)
Definition toMerged (merged : ConnId) (im : InsertManager) : Prop :=
  connection im = merged.

Definition anyInserter (im : InsertManager) : Prop := True.

Section Confinement.
Context {driver : Driver}.

(** From [w] to [w'] no database but that of [merged] has changed, and
    the calls made are harmless. *)
Definition Confined (merged : ConnId) (w w' : World) : Prop :=
  (forall c, c <> merged -> dbs w' c = dbs w c) /\
  exists evs, trace w' = (trace w ++ evs)%list /\ Forall (harmless merged) evs.

(** [m] keeps the property [I] of the [InsertManager] and is confined. *)
Definition good (merged : ConnId) (I : InsertManager -> Prop) {A} (m : M A)
  : Prop :=
  forall w, I (inserter w) ->
            I (inserter (snd (m w))) /\ Confined merged w (snd (m w)).

(** [m] is confined up to its last call, which closes [merged]: either
    it makes this call, and ends as [Database.close] does, or it has
    thrown before. *)
Definition closing (merged : ConnId) (m : M unit) : Prop :=
  forall w,
    (forall c, c <> merged -> dbs (snd (m w)) c = dbs w c) /\
    exists evs,
      Forall (harmless merged) evs /\
      ((trace (snd (m w)) = (trace w ++ evs ++ [EvClose merged])%list /\
        fst (m w) = match db_close (dbs (snd (m w)) merged) with
                    | Ok _ => Ret tt
                    | Err e => Throw (DriverError e)
                    end)
       \/
       (trace (snd (m w)) = (trace w ++ evs)%list /\
        exists e, fst (m w) = Throw e)).
End Confinement.

(** A column that gets a place in the insert built for a row: a foreign
    key, or a regular column. *)
Definition copied (model : Model) (schema : Schema) (column : Column) : bool :=
  isSome (getRelatedColumn column model) || isRegular column schema.

Definition isForeignKey (model : Model) (column : Column) : bool :=
  isSome (getRelatedColumn column model).

(** Is every column the unique index names a column of the model? *)
Definition uniqueResolves (model : Model) (names : list string) : bool :=
  forallb (fun name => isSome (getCol model name)) names.

(** The names of the unique index that are foreign keys. *)
Definition uniqueForeignKeys (model : Model) (names : list string)
  : list string :=
  filter (fun name => match getCol model name with
                      | Some col => isForeignKey model col
                      | None => false
                      end) names.

(** The calls a client makes on an [InsertManager]. *)
Inductive Call : Type :=
| CallInsert (statement : string)
| CallInsertSupporting (statement : string)
| CallFlush.

(** The statements a sequence of calls hands over, and how many of them
    count as progress. *)
Definition submitted (l : list Call) : list string :=
  flat_map (fun c => match c with
                     | CallInsert s | CallInsertSupporting s => [s]
                     | CallFlush => []
                     end) l.

Definition regular (l : list Call) : N :=
  N.of_nat (List.length
              (filter (fun c => match c with CallInsert _ => true | _ => false end)
                 l)).

Section MoreVocabulary.
Context {driver : Driver}.

Definition call (c : Call) : M N :=
  match c with
  | CallInsert s => insert s
  | CallInsertSupporting s => insertSupporting s
  | CallFlush => flush
  end.

Fixpoint calls (l : list Call) : M (list N) :=
  match l with
  | [] => ret []
  | c :: rest =>
      n <- call c ;;
      ns <- calls rest ;;
      ret (n :: ns)
  end.

(** The line [merge] prints for a table with [value] violations. *)
Definition integrityLine (currentModel : Model) (value : N) : string :=
  "Table " ++ model_name currentModel ++ " has "
    ++ show_nat (N.to_nat value) ++ " foreign key integrity problems".

(** What the integrity loop prints for a model in world [w]. *)
Definition violations (w : World) (merged : ConnId) (currentModel : Model)
  : list string :=
  match db_get_count (dbs w merged) (integrityQuery currentModel) with
  | Ok (Some value) =>
      if N.ltb 0 value then [integrityLine currentModel value] else []
  | _ => []
  end.

(** The statements the schema copy of [prismerge] sends for the rows the
    stream of [sqlite_master] delivers. *)
Definition schemaStatements (results : list (Result Row Error)) : list string :=
  flat_map (fun r =>
              match r with
              | Ok row =>
                  match field row "sql" with
                  | Some sql =>
                      if String.eqb sql EmptyString then [] else [sql]
                  | None => []
                  end
              | Err _ => []
              end) results.
End MoreVocabulary.

(** What a search that may meet a cycle ends with: a result that is [ok],
    or the error naming a node that lies on a cycle of [E]; no other error. *)
Definition search_post {X} (E : string -> string -> Prop) (ok : X -> Prop)
    (r : Outcome X) : Prop :=
  match r with
  | Ret x => ok x
  | Throw (CyclicDependency node) => clos_trans string E node node
  | Throw _ => False
  end.

(** ** More scenarios *)

(** The tables of the test suite as a Prisma data model. *)
Definition scalarField (name : string) (id unique : bool) : DMMF_Field :=
  {| field_name := name; field_type := "String"; isList := false;
     isReadOnly := false; isUnique := unique; isId := id;
     relationFromFields := None; relationToFields := None |}.

Definition ownerDMMF : DMMF_Model :=
  {| dmmf_name := "Owner";
     dmmf_fields := [scalarField "id" true false; scalarField "name" false true];
     uniqueFields := [] |}.

Definition todoListDMMF : DMMF_Model :=
  {| dmmf_name := "TodoList";
     dmmf_fields :=
       [ scalarField "id" true false; scalarField "name" false false;
         scalarField "ownerId" false false;
         {| field_name := "owner"; field_type := "Owner"; isList := false;
            isReadOnly := false; isUnique := false; isId := false;
            relationFromFields := Some ["ownerId"];
            relationToFields := Some ["id"] |} ];
     uniqueFields := [["name"; "ownerId"]] |}.

(** A model that refers to itself, and a model without a primary key. *)
Definition Category : Model :=
  {| model_name := "Category";
     columns :=
       [ idColumn;
         {| col_name := "parentId"; ty := stringTy; relation := None;
            col_unique := false; primary_key := false |};
         {| col_name := "parent";
            ty := {| ty_name := "Category"; collection := false;
                     nullable := true |};
            relation := Some {| fields := ["parentId"]; references := ["id"] |};
            col_unique := false; primary_key := false |} ];
     model_unique := None |}.

Definition treeSchema : Schema := {| models := [("Category", Category)] |}.

Definition Keyless : Model :=
  {| model_name := "Keyless";
     columns :=
       [ {| col_name := "name"; ty := stringTy; relation := None;
            col_unique := false; primary_key := false |} ];
     model_unique := None |}.

(** Connection 1 holds Woody; the rows of connection 2 cannot be counted. *)
Definition uncountedSource : MockDB :=
  {| mock_exec := Ok tt; mock_count := Err "no such table: Owner";
     mock_found := Ok None; mock_rows := []; mock_done := Ok 0%N |}.

Definition uncountedWorld : MockWorld :=
  mockWorld
    (fun c => match c with
              | 0 => mockDestination (Ok None)
              | 1 => mockSource [ownerRow "w" "Woody"]
              | _ => uncountedSource
              end)
    (new_InsertManager 0 0).

(** The statements the merge of one model executes on the destination,
    [batches] being the batches it commits. *)
Definition model_segment (segment : Model * list (list string)) : list string :=
  (createTableSql (mapTable (fst segment))
     :: map batchSql (snd segment)
     ++ [createIndicesSql (mapTable (fst segment))])%list.

(** Every call but the creation of a progress reporter. *)
Definition notProgressCreate (ev : Event) : bool :=
  match ev with
  | EvProgressCreate _ _ => false
  | _ => true
  end.

Section Alike.
Context {driver : Driver}.

(** Two worlds that differ at most in the progress reporters created. *)
Definition alike (w1 w2 : World) : Prop :=
  dbs w1 = dbs w2 /\ uuids w1 = uuids w2 /\ inserter w1 = inserter w2 /\
  filter notProgressCreate (trace w1) = filter notProgressCreate (trace w2).

(** From alike worlds [m1] and [m2] end alike, with the same outcome. *)
Definition oblivious {A} (m1 m2 : M A) : Prop :=
  forall w1 w2,
    alike w1 w2 ->
    fst (m1 w1) = fst (m2 w2) /\ alike (snd (m1 w1)) (snd (m2 w2)).
End Alike.

(** * Properties *)

(** ** Lists and sets of strings *)

Ltac split3 := split; [|split].
Ltac split4 := split; [|split3].

Lemma includes_In (l : list string) (x : string) :
  includes l x = true <-> In x l.
Proof.
  unfold includes. rewrite existsb_exists. split.
  - intros [y [Hy Heq]]. apply String.eqb_eq in Heq. now subst.
  - intros H. exists x. split; [assumption | apply String.eqb_refl].
Qed.

Lemma includes_false (l : list string) (x : string) :
  includes l x = false <-> ~ In x l.
Proof.
  rewrite <- includes_In. destruct (includes l x); split; congruence.
Qed.

Lemma existsb_nat_In (l : list nat) (i : nat) :
  existsb (Nat.eqb i) l = true <-> In i l.
Proof.
  rewrite existsb_exists. split.
  - intros [y [Hy Heq]]. apply Nat.eqb_eq in Heq. now subst.
  - intros H. exists i. split; [assumption | apply Nat.eqb_refl].
Qed.


Lemma before_rev {A} (x y : A) (l : list A) :
  before x y l -> before y x (rev l).
Proof.
  intros (l1 & l2 & l3 & ->).
  exists (rev l3), (rev l2), (rev l1).
  rewrite rev_app_distr. simpl. rewrite rev_app_distr. simpl.
  now rewrite <- !app_assoc.
Qed.

Lemma before_map {A B} (f : A -> B) (x y : A) (l : list A) :
  before x y l -> before (f x) (f y) (map f l).
Proof.
  intros (l1 & l2 & l3 & ->).
  exists (map f l1), (map f l2), (map f l3).
  rewrite map_app. simpl. now rewrite map_app.
Qed.

(** ** The depth-first search of [toposort] *)

Module ToposortFacts.
Import Toposort.
Import ToposortSpec.

Lemma Set_add_In (s : list string) (x y : string) :
  In y (Set_add s x) <-> In y s \/ y = x.
Proof.
  unfold Set_add. destruct (includes s x) eqn:Hs.
  - apply includes_In in Hs. split; [tauto | intros [H | ->]; assumption].
  - rewrite in_app_iff. simpl. intuition.
Qed.

Lemma fold_Set_add_In (l acc : list string) (y : string) :
  In y (fold_left Set_add l acc) <-> In y acc \/ In y l.
Proof.
  revert acc. induction l as [|x l IH]; intros acc; simpl.
  - tauto.
  - rewrite IH, Set_add_In. intuition.
Qed.

Lemma outgoingEdges_In (edges : list (string * string)) (a b : string) :
  In b (outgoingEdges edges a) <-> In (a, b) edges.
Proof.
  unfold outgoingEdges. rewrite fold_Set_add_In, in_map_iff. split.
  - intros [[] | [[a' b'] [Hb Hin]]]. simpl in Hb. subst b'.
    apply filter_In in Hin as [Hin Ha]. simpl in Ha.
    apply String.eqb_eq in Ha. now subst.
  - intros H. right. exists (a, b). split; [reflexivity|].
    apply filter_In. split; [assumption | apply String.eqb_refl].
Qed.

Lemma Set_delete_add (s : list string) {x : string} :
  ~ In x s -> Set_delete (Set_add s x) x = s.
Proof.
  intros Hx. unfold Set_add.
  replace (includes s x) with false by (symmetry; now apply includes_false).
  unfold Set_delete. rewrite filter_app. simpl.
  rewrite String.eqb_refl. simpl. rewrite app_nil_r.
  induction s as [|y s IH]; simpl; [reflexivity|].
  destruct (String.eqb x y) eqn:E.
  - apply String.eqb_eq in E. subst. exfalso. apply Hx. now left.
  - simpl. f_equal. apply IH. intros H. apply Hx. now right.
Qed.

Lemma Set_add_fresh (s : list string) {x : string} :
  ~ In x s -> Set_add s x = (s ++ [x])%list.
Proof.
  intros Hx. unfold Set_add.
  now replace (includes s x) with false by (symmetry; now apply includes_false).
Qed.

Lemma nodesHash_from_sound (l : list string) (x : string) :
  forall k acc i,
    nodesHash_from k l x acc = Some i ->
    acc = Some i \/ exists j, i = k + j /\ nth_error l j = Some x.
Proof.
  induction l as [|y l IH]; intros k acc i H; simpl in H.
  - now left.
  - apply IH in H as [H | [j [-> Hj]]].
    + destruct (String.eqb y x) eqn:E.
      * apply String.eqb_eq in E. subst y. injection H as <-.
        right. exists 0. split; [lia | reflexivity].
      * now left.
    + right. exists (S j). split; [lia | assumption].
Qed.

Lemma nodesHash_from_complete (l : list string) (x : string) :
  forall k acc,
    In x l -> exists j, nodesHash_from k l x acc = Some (k + j)
                        /\ nth_error l j = Some x.
Proof.
  induction l as [|y l IH]; intros k acc Hin; [destruct Hin|].
  simpl. destruct (in_dec string_dec x l) as [Hl | Hl].
  - destruct (IH (S k) (if String.eqb y x then Some k else acc) Hl)
      as [j [Hj Hn]].
    exists (S j). split; [rewrite Hj; f_equal; lia | assumption].
  - destruct Hin as [-> | Hin]; [|contradiction].
    rewrite String.eqb_refl. exists 0. split; [|reflexivity].
    clear IH. rewrite Nat.add_0_r.
    assert (G : forall k' acc', ~ In x l ->
              nodesHash_from k' l x acc' = acc').
    { clear. induction l as [|z l IH]; intros k' acc' Hn; simpl; [reflexivity|].
      rewrite IH by (intros H; apply Hn; now right).
      destruct (String.eqb z x) eqn:E; [|reflexivity].
      apply String.eqb_eq in E. subst. exfalso. apply Hn. now left. }
    now apply G.
Qed.

Lemma nodesHash_nth {nodes : list string} {x : string} {i : nat} :
  NoDup nodes -> nth_error nodes i = Some x -> nodesHash nodes x = Some i.
Proof.
  intros Hnd Hi.
  destruct (@nodesHash_from_complete nodes x 0 None) as [j [Hj Hn]].
  { eapply nth_error_In; eassumption. }
  unfold nodesHash. rewrite Hj. simpl. f_equal.
  eapply NoDup_nth_error; try eassumption.
  - apply nth_error_Some. congruence.
  - congruence.
Qed.

Lemma nodesHash_In (nodes : list string) (x : string) :
  In x nodes -> isSome (nodesHash nodes x) = true.
Proof.
  intros H. destruct (@nodesHash_from_complete nodes x 0 None H) as [j [Hj _]].
  unfold nodesHash. now rewrite Hj.
Qed.

Lemma array_set_holes (c : nat) (v : option string) (rest : list (option string)) :
  array_set (repeat None (S c) ++ rest) c v = (repeat None c ++ v :: rest)%list.
Proof.
  induction c as [|c IH]; [reflexivity|].
  change (repeat None (S (S c)) ++ rest)%list
    with (@None string :: (repeat None (S c) ++ rest))%list.
  cbn [array_set]. rewrite IH. reflexivity.
Qed.


Lemma topo_before (E : string -> string -> Prop) (l : list string) :
  topo E l -> NoDup l ->
  forall a b, In a l -> E a b -> before a b l.
Proof.
  induction l as [|x l IH]; intros Ht Hnd a b Ha Hab; [destruct Ha|].
  destruct Ht as [Hx Ht]. inversion Hnd as [|? ? Hnx Hnd']; subst.
  destruct Ha as [-> | Ha].
  - apply Hx in Hab. apply in_split in Hab as (l2 & l3 & ->).
    now exists [], l2, l3.
  - destruct (IH Ht Hnd' a b Ha Hab) as (l1 & l2 & l3 & ->).
    now exists (x :: l1), l2, l3.
Qed.

Section Acyclic.
Variable nodes : list string.
Variable edges : list (string * string).

Let E (a b : string) : Prop := In (a, b) edges.

Hypothesis nodes_NoDup : NoDup nodes.
Hypothesis edges_known : forall a b, E a b -> In a nodes /\ In b nodes.
Hypothesis acyclic : forall x, ~ clos_trans string E x x.

Let Inv := SearchInv nodes E.
Let visit_spec := ToposortSpec.visit_spec nodes E.


Lemma Inv_set_predecessors {P L} p {st} :
  Inv P L st -> Inv P L (set_predecessors p st).
Proof. intros [H1 H2 H3 H4 H5 H6]. now constructor. Qed.

Lemma Inv_length {P L st} :
  Inv P L st -> List.length P + List.length L <= List.length nodes.
Proof.
  intros H. rewrite <- length_app.
  apply NoDup_incl_length; [apply (inv_nodup H) | apply (inv_incl H)].
Qed.

(** Entering an unvisited node [x]. *)
Lemma Inv_enter {P L st i x} :
  Inv P L st -> nth_error nodes i = Some x -> ~ In i (visited st) ->
  Inv (P ++ [x]) L (mark_visited i st).
Proof.
  intros H Hi Hv.
  assert (Hx : ~ In x (P ++ L)).
  { intros Hin. apply Hv. now apply (inv_visited H Hi). }
  constructor; simpl.
  - apply (inv_sorted H).
  - apply (inv_cursor H).
  - rewrite <- app_assoc. simpl. apply NoDup_Add with (a := x) (l := (P ++ L)%list).
    + apply Add_app.
    + split; [apply (inv_nodup H) | exact Hx].
  - intros y Hy. rewrite <- app_assoc in Hy. apply in_app_iff in Hy.
    simpl in Hy. destruct Hy as [Hy | [<- | Hy]].
    + apply (inv_incl H). apply in_app_iff. now left.
    + eapply nth_error_In; eassumption.
    + apply (inv_incl H). apply in_app_iff. now right.
  - intros j y Hj. rewrite <- app_assoc. rewrite in_app_iff. simpl.
    rewrite (inv_visited H Hj), in_app_iff.
    split.
    + intros [<- | [Hy | Hy]]; [|tauto|tauto].
      right. left. congruence.
    + intros [Hy | [<- | Hy]]; [tauto| |tauto].
      left. eapply NoDup_nth_error; try eassumption.
      * apply nth_error_Some. congruence.
      * congruence.
  - apply (inv_topo H).
Qed.

(** Leaving node [x] once all its children are placed. *)
Lemma Inv_leave {P L st x} :
  Inv (P ++ [x]) L st ->
  (forall y, E x y -> In y L) ->
  Inv P (x :: L) (place x st).
Proof.
  intros H Hch.
  assert (Hlen := Inv_length H). rewrite length_app in Hlen. simpl in Hlen.
  assert (Hc := inv_cursor H).
  destruct (cursor st) as [|c] eqn:Ec; [lia|].
  constructor; unfold place; rewrite ?Ec; simpl.
  - rewrite (inv_sorted H), Ec. apply array_set_holes.
  - lia.
  - generalize (inv_nodup H). rewrite <- app_assoc. simpl. auto.
  - generalize (inv_incl H). rewrite <- app_assoc. simpl. auto.
  - intros j y Hj. rewrite (inv_visited H Hj), <- app_assoc. simpl. tauto.
  - split; [assumption | apply (inv_topo H)].
Qed.


Lemma visit_children_ok visit1 P :
  forall children st L,
    (forall c, In c children -> visit_spec visit1 P c) ->
    Inv P L st -> predecessors st = P ->
    exists st' new,
      visit_children visit1 children st = Ret st' /\
      Inv P (new ++ L) st' /\ predecessors st' = P /\
      forall c, In c children -> In c (new ++ L).
Proof.
  induction children as [|c cs IH]; intros st L Hspec HI HP.
  - exists st, []. simpl. split4; try assumption; try reflexivity.
    intros c [].
  - destruct (Hspec c (or_introl eq_refl) st L HI HP)
      as (st1 & new1 & Hv & HI1 & HP1 & Hc).
    destruct (IH st1 (new1 ++ L)%list
                (fun c' H => Hspec c' (or_intror H)) HI1 HP1)
      as (st2 & new2 & Hvs & HI2 & HP2 & Hcs).
    exists st2, (new2 ++ new1)%list. simpl. rewrite Hv, <- app_assoc.
    split4; try assumption.
    intros c' [<- | Hc']; [|now apply Hcs].
    apply in_app_iff. now right.
Qed.

Lemma visit_ok :
  forall fuel node idx st P L,
    Inv P L st -> predecessors st = P ->
    nth_error nodes idx = Some node ->
    (forall p, In p P -> clos_trans string E p node) ->
    List.length nodes < fuel + List.length P ->
    exists st' new,
      visit nodes edges fuel node (Some idx) st = Ret st' /\
      Inv P (new ++ L) st' /\ predecessors st' = P /\ In node (new ++ L).
Proof.
  induction fuel as [|fuel IH]; intros node idx st P L HI HP Hidx Hpath Hfuel.
  - assert (Hlen := Inv_length HI). simpl in Hfuel. lia.
  - assert (HnP : ~ In node P).
    { intros Hin. exact (acyclic _ (Hpath node Hin)). }
    cbn [visit]. rewrite HP.
    replace (includes P node) with false
      by (symmetry; now apply includes_false).
    rewrite (nodesHash_nth nodes_NoDup Hidx).
    destruct (existsb (Nat.eqb idx) (visited st)) eqn:Hvis.
    + apply existsb_nat_In in Hvis.
      exists st, []. simpl. split4; try assumption; try reflexivity.
      apply (inv_visited HI Hidx) in Hvis.
      apply in_app_iff in Hvis. tauto.
    + assert (Hnv : ~ In idx (visited st)).
      { intros H. apply existsb_nat_In in H. congruence. }
      assert (HI1 := Inv_enter HI Hidx Hnv).
      assert (Hmid : exists st3 new,
                 match outgoingEdges edges node with
                 | [] => Ret (mark_visited idx st)
                 | _ :: _ =>
                     match
                       visit_children
                         (fun child =>
                            visit nodes edges fuel child (nodesHash nodes child))
                         (rev (outgoingEdges edges node))
                         (set_predecessors
                            (Set_add (predecessors (mark_visited idx st)) node)
                            (mark_visited idx st))
                     with
                     | Ret st0 =>
                         Ret (set_predecessors
                                (Set_delete (predecessors st0) node) st0)
                     | Throw e => Throw e
                     end
                 end = Ret st3 /\
                 Inv (P ++ [node]) (new ++ L) st3 /\ predecessors st3 = P /\
                 forall y, E node y -> In y (new ++ L)).
      { destruct (outgoingEdges edges node) as [|c0 cs0] eqn:Hout.
        - exists (mark_visited idx st), []. simpl.
          split4; try assumption; try reflexivity.
          intros y Hy. apply outgoingEdges_In in Hy.
          rewrite Hout in Hy. destruct Hy.
        - rewrite <- Hout. clear c0 cs0 Hout.
          simpl predecessors. rewrite HP, (Set_add_fresh _ HnP).
          destruct (@visit_children_ok
                      (fun child =>
                         visit nodes edges fuel child (nodesHash nodes child))
                      (P ++ [node])%list
                      (rev (outgoingEdges edges node))
                      (set_predecessors (P ++ [node])%list (mark_visited idx st))
                      L)
            as (st2 & new & Hvs & HI2 & HP2 & Hcs).
          + intros c Hc. apply in_rev in Hc. apply outgoingEdges_In in Hc.
            intros st0 L0 HI0 HP0.
            destruct (edges_known _ _ Hc) as [_ Hcn].
            apply In_nth_error in Hcn as [j Hj].
            rewrite (nodesHash_nth nodes_NoDup Hj).
            apply IH; try assumption.
            * intros p Hp. apply in_app_iff in Hp.
              destruct Hp as [Hp | [<- | []]].
              -- eapply t_trans; [apply Hpath; eassumption|].
                 now apply t_step.
              -- now apply t_step.
            * rewrite length_app. simpl. lia.
          + now apply Inv_set_predecessors.
          + reflexivity.
          + rewrite Hvs. exists (set_predecessors P st2), new.
            rewrite HP2.
            replace (Set_delete (P ++ [node]) node) with P
              by (rewrite <- (Set_add_fresh _ HnP);
                  symmetry; now apply Set_delete_add).
            split4; try reflexivity.
            * now apply Inv_set_predecessors.
            * intros y Hy. apply Hcs. apply -> in_rev.
              now apply outgoingEdges_In. }
      destruct Hmid as (st3 & new & -> & HI3 & HP3 & Hch).
      exists (place node st3), (node :: new)%list.
      split4; try reflexivity.
      * simpl. now apply Inv_leave.
      * simpl. assumption.
      * now left.
Qed.

Lemma visit_all_ok :
  forall fuel indices st L,
    List.length nodes < fuel ->
    Inv [] L st ->
    (forall i, In i indices -> i < List.length nodes) ->
    exists st' new,
      visit_all nodes edges fuel indices st = Ret st' /\
      Inv [] (new ++ L) st' /\
      forall i, In i indices -> In i (visited st').
Proof.
  intros fuel indices. induction indices as [|i rest IH];
    intros st L Hfuel HI Hrange.
  - exists st, []. simpl. split3; try assumption; try reflexivity.
    intros i [].
  - cbn [visit_all].
    assert (Hmono : forall st1 new1 st2 new2 j,
               Inv [] (new1 ++ L) st1 -> Inv [] (new2 ++ new1 ++ L) st2 ->
               j < List.length nodes ->
               In j (visited st1) -> In j (visited st2)).
    { intros st1 new1 st2 new2 j H1 H2 Hj Hin.
      destruct (nth_error nodes j) as [x|] eqn:Hx.
      - apply (inv_visited H2 Hx). simpl.
        apply (inv_visited H1 Hx) in Hin. simpl in Hin.
        apply in_app_iff. now right.
      - apply nth_error_None in Hx. lia. }
    destruct (existsb (Nat.eqb i) (visited st)) eqn:Hvis.
    + destruct (IH st L Hfuel HI (fun j H => Hrange j (or_intror H)))
        as (st' & new & Hv & HI' & Hin).
      exists st', new. split3; try assumption.
      intros j [<- | Hj]; [|now apply Hin].
      apply existsb_nat_In in Hvis.
      apply (Hmono st [] st' new i); simpl; try assumption.
      apply Hrange. now left.
    + assert (Hi : i < List.length nodes) by (apply Hrange; now left).
      destruct (nth_error nodes i) as [node|] eqn:Hnode;
        [|apply nth_error_None in Hnode; lia].
      destruct (@visit_ok fuel node i (set_predecessors [] st) [] L)
        as (st1 & new1 & Hv1 & HI1 & HP1 & Hin1); try assumption.
      * now apply Inv_set_predecessors.
      * reflexivity.
      * intros p [].
      * simpl. lia.
      * rewrite Hv1.
        destruct (IH st1 (new1 ++ L)%list Hfuel HI1
                    (fun j H => Hrange j (or_intror H)))
          as (st' & new & Hv & HI' & Hin).
        exists st', (new ++ new1)%list. rewrite <- app_assoc.
        split3; try assumption.
        intros j [<- | Hj]; [|now apply Hin].
        apply (Hmono st1 new1 st' new i); try assumption.
        apply (inv_visited HI1 Hnode). simpl. assumption.
Qed.

(** On an acyclic graph [toposort.array] returns all the nodes, each
    once, every edge leading from left to right. *)
Lemma array_ok :
  exists L,
    array nodes edges = Ret (map Some L) /\
    Permutation L nodes /\
    forall a b, E a b -> before a b L.
Proof.
  unfold array.
  replace (existsb (unknown_edge nodes) edges) with false.
  2:{ symmetry. apply not_true_is_false. intros H.
      apply existsb_exists in H as [[a b] [Hin Hu]].
      unfold unknown_edge in Hu. simpl in Hu.
      destruct (edges_known _ _ Hin) as [Ha Hb].
      rewrite (nodesHash_In _ _ Ha), (nodesHash_In _ _ Hb) in Hu.
      discriminate. }
  set (n := List.length nodes).
  destruct (@visit_all_ok (S n) (rev (seq 0 n))
              {| cursor := n; sorted := repeat None n;
                 visited := []; predecessors := [] |} [])
    as (st' & L & Hv & HI & Hall).
  - unfold n. lia.
  - constructor; simpl.
    + now rewrite app_nil_r.
    + unfold n. lia.
    + constructor.
    + intros x [].
    + intros i x _. tauto.
    + exact I.
  - intros i Hi. apply in_rev in Hi. apply in_seq in Hi. unfold n in Hi. lia.
  - rewrite Hv. rewrite app_nil_r in HI.
    assert (Hnd : NoDup L) by apply (inv_nodup HI).
    assert (Hincl : incl nodes L).
    { intros x Hx. apply In_nth_error in Hx as [i Hi].
      apply (inv_visited HI Hi). apply Hall.
      apply -> in_rev. apply in_seq. split; [lia|]. simpl.
      apply nth_error_Some. congruence. }
    assert (Hperm : Permutation L nodes).
    { apply NoDup_Permutation; try assumption.
      intros x. split; [apply (inv_incl HI) | apply Hincl]. }
    exists L. split3.
    + f_equal. rewrite (inv_sorted HI).
      assert (cursor st' = 0).
      { generalize (inv_cursor HI). rewrite (Permutation_length Hperm). lia. }
      now rewrite H.
    + assumption.
    + intros a b Hab. apply (@topo_before E); try assumption.
      * apply (inv_topo HI).
      * apply Hincl. apply (edges_known _ _ Hab).
Qed.
End Acyclic.
End ToposortFacts.

(** ** The topological scheduler *)


Lemma Map_get_In {V} {entries : list (string * V)} {k : string} {v : V} :
  Map_get entries k = Some v -> In (k, v) entries.
Proof.
  unfold Map_get. destruct (find _ entries) as [[k' v']|] eqn:Hf; [|discriminate].
  intros H. injection H as <-. apply find_some in Hf as [Hin Hk].
  simpl in Hk. apply String.eqb_eq in Hk. now subst.
Qed.

Lemma In_Map_get {V} (entries : list (string * V)) (k : string) (v : V) :
  NoDup (map fst entries) -> In (k, v) entries -> Map_get entries k = Some v.
Proof.
  unfold Map_get. induction entries as [|[k' v'] rest IH]; intros Hnd Hin;
    [destruct Hin|].
  simpl in *. inversion Hnd as [|? ? Hk' Hnd']; subst.
  destruct Hin as [Heq | Hin].
  - injection Heq as -> ->. now rewrite String.eqb_refl.
  - destruct (String.eqb k' k) eqn:E.
    + apply String.eqb_eq in E. subst k'. exfalso. apply Hk'.
      apply in_map_iff. now exists (k, v).
    + now apply IH.
Qed.

Lemma relationEdges_In (s : Schema) (a b : string) :
  In (a, b) (relationEdges s) <->
  exists entry column childModel,
    In entry (models s) /\ In column (columns (snd entry)) /\
    isSome (relation column) = true /\
    Map_get (models s) (ty_name (ty column)) = Some childModel /\
    a = model_name (snd entry) /\ b = model_name childModel.
Proof.
  unfold relationEdges. rewrite in_flat_map. split.
  - intros (entry & Hentry & Hin). apply in_flat_map in Hin as (column & Hcol & Hin).
    destruct (isSome (relation column)) eqn:Hrel; [|destruct Hin].
    destruct (Map_get (models s) (ty_name (ty column))) as [child|] eqn:Hget;
      [|destruct Hin].
    destruct Hin as [Heq | []]. injection Heq as <- <-.
    exists entry, column, child. tauto.
  - intros (entry & column & child & Hentry & Hcol & Hrel & Hget & -> & ->).
    exists entry. split; [assumption|]. apply in_flat_map.
    exists column. split; [assumption|]. rewrite Hrel, Hget. now left.
Qed.

Lemma relationEdges_edge (s : Schema) (a b : string) :
  schema_wf s -> (In (a, b) (relationEdges s) <-> relation_edge s a b).
Proof.
  intros [Hnd Hnames]. rewrite relationEdges_In. rewrite Forall_forall in Hnames.
  split.
  - intros (entry & column & child & Hentry & Hcol & Hrel & Hget & -> & ->).
    exists (snd entry), column. unfold Map_values.
    assert (Hchild := Map_get_In Hget).
    apply Hnames in Hchild. simpl in Hchild.
    repeat split; try assumption.
    + now apply in_map.
    + unfold Map_has. rewrite <- Hchild, Hget. reflexivity.
  - intros (model & column & Hmodel & <- & Hcol & Hrel & <- & Hhas).
    apply in_map_iff in Hmodel as (entry & <- & Hentry).
    unfold Map_has in Hhas.
    destruct (Map_get (models s) (ty_name (ty column))) as [child|] eqn:Hget;
      [|discriminate].
    exists entry, column, child. repeat split; try assumption.
    apply Map_get_In, Hnames in Hget. exact Hget.
Qed.

Lemma clos_trans_incl {A} (R S : A -> A -> Prop) :
  (forall x y, R x y -> S x y) ->
  forall x y, clos_trans A R x y -> clos_trans A S x y.
Proof.
  intros HRS x y H. induction H as [x y H | x y z _ IH1 _ IH2].
  - apply t_step. now apply HRS.
  - eapply t_trans; eassumption.
Qed.


Lemma sortedModels_order (s : Schema) :
  schema_wf s -> acyclic_schema s ->
  exists order : list Model,
    sortedModels s = Ret (map Some order) /\
    Permutation order (Map_values (models s)) /\
    forall A B, relation_edge s A B ->
      exists modelA modelB,
        model_name modelA = A /\ model_name modelB = B /\
        before modelB modelA order.
Proof.
  intros Hwf Hacyc. assert (Hwf' := Hwf). destruct Hwf' as [Hnd Hnames].
  assert (Hkeys : map model_name (Map_values (models s)) = map fst (models s)).
  { unfold Map_values. rewrite map_map. apply map_ext_in.
    intros e He. rewrite Forall_forall in Hnames. symmetry. now apply Hnames. }
  assert (Hget : forall e, In e (models s) ->
                           Map_get (models s) (fst e) = Some (snd e)).
  { intros [k v] He. now apply In_Map_get. }
  destruct (@ToposortFacts.array_ok
              (map model_name (Map_values (models s))) (relationEdges s))
    as (L & Harr & Hperm & Hord).
  - now rewrite Hkeys.
  - intros a b Hab. apply relationEdges_In in Hab
      as (entry & column & child & Hentry & Hcol & Hrel & Hg & -> & ->).
    split.
    + apply in_map. unfold Map_values. now apply in_map.
    + apply in_map. unfold Map_values.
      apply Map_get_In in Hg. now apply (in_map snd) in Hg.
  - intros x Hx. apply (Hacyc x).
    eapply clos_trans_incl; [|exact Hx].
    intros a b. now apply relationEdges_edge.
  - rewrite Hkeys in Hperm.
    assert (HL : forall n, In n L ->
                 Map_get (models s) n = Some (modelNamed s n)
                 /\ model_name (modelNamed s n) = n).
    { intros n Hn. apply (Permutation_in _ Hperm) in Hn.
      apply in_map_iff in Hn as (e & <- & He).
      unfold modelNamed. rewrite (Hget e He). split; [reflexivity|].
      rewrite Forall_forall in Hnames. symmetry. now apply Hnames. }
    exists (rev (map (modelNamed s) L)). split3.
    + unfold sortedModels. rewrite Harr. f_equal.
      rewrite map_rev. f_equal. rewrite !map_map.
      apply map_ext_in. intros n Hn. apply HL. assumption.
    + rewrite <- Permutation_rev.
      transitivity (map (modelNamed s) (map fst (models s))).
      * now apply Permutation_map.
      * unfold Map_values. rewrite map_map.
        erewrite map_ext_in; [reflexivity|].
        intros e He. unfold modelNamed. simpl. now rewrite (Hget e He).
    + intros A B HAB.
      assert (Hb : before A B L).
      { apply Hord. now apply relationEdges_edge. }
      assert (HA : In A L) by (destruct Hb as (l1 & l2 & l3 & ->);
                               apply in_app_iff; right; now left).
      assert (HB : In B L) by (destruct Hb as (l1 & l2 & l3 & ->);
                               apply in_app_iff; right; right;
                               apply in_app_iff; right; now left).
      exists (modelNamed s A), (modelNamed s B).
      split; [apply HL, HA|]. split; [apply HL, HB|].
      apply before_rev. now apply before_map.
Qed.

(** ** The monad *)

Section MonadFacts.
Context {driver : Driver}.

Lemma bind_Ret {A B} {m : M A} (k : A -> M B) {w w' : World} {a : A} :
  m w = (Ret a, w') -> bind m k w = k a w'.
Proof. intros H. unfold bind. now rewrite H. Qed.

Lemma bind_Throw {A B} {m : M A} (k : A -> M B) {w w' : World} {e : Exn} :
  m w = (Throw e, w') -> bind m k w = (Throw e, w').
Proof. intros H. unfold bind. now rewrite H. Qed.

(** A sequence that returns has a first part that returned. *)
Lemma bind_inv {A B} (m : M A) (k : A -> M B) {w : World} {b : B} :
  fst (bind m k w) = Ret b ->
  exists a w', m w = (Ret a, w') /\ bind m k w = k a w'.
Proof.
  unfold bind. destruct (m w) as [[a | e] w'] eqn:Hm; simpl; intros H.
  - now exists a, w'.
  - discriminate.
Qed.

Lemma exec_eq (c : ConnId) (sql : string) (w : World) :
  exec c sql w = (Ret (exec_result w c sql), executed w c sql).
Proof.
  unfold exec, exec_result, executed, bind, emit, set_db, ret. simpl.
  destruct (db_exec (dbs w c) sql) as [db' r]. reflexivity.
Qed.

Lemma execOrError_eq (c : ConnId) (sql : string) (w : World) :
  execOrError c sql w =
  (match exec_result w c sql with
   | Ok _ => Ret tt
   | Err e => Throw (DriverError e)
   end, executed w c sql).
Proof.
  unfold execOrError, bind. rewrite exec_eq.
  destruct (exec_result w c sql) as [[] | e]; reflexivity.
Qed.

Lemma flush_eq (w : World) : flush w = committed w.
Proof.
  unfold flush, committed, bind, get_inserter, set_inserter. simpl.
  rewrite execOrError_eq. unfold with_inserter, emptied.
  destruct (exec_result _ _ _) as [[] | e]; reflexivity.
Qed.

Lemma maybeFlush_eq (w : World) :
  maybeFlush w =
  if Z.geb (Z.of_nat (List.length (statements (inserter w))))
           (threshold (inserter w))
  then committed w else (Ret 0%N, w).
Proof.
  unfold maybeFlush, bind, get_inserter. simpl.
  destruct (Z.geb _ _); [apply flush_eq | reflexivity].
Qed.

Lemma insert_eq (statement : string) (w : World) :
  insert statement w =
  let w1 := with_inserter w (pushed (inserter w) statement 1) in
  if Z.geb (Z.of_nat (List.length (statements (inserter w)) + 1))
           (threshold (inserter w))
  then committed w1 else (Ret 0%N, w1).
Proof.
  unfold insert, bind, get_inserter, set_inserter. simpl.
  rewrite maybeFlush_eq. simpl. rewrite length_app. simpl. reflexivity.
Qed.

Lemma insertSupporting_eq (statement : string) (w : World) :
  insertSupporting statement w =
  let w1 := with_inserter w (pushed (inserter w) statement 0) in
  if Z.geb (Z.of_nat (List.length (statements (inserter w)) + 1))
           (threshold (inserter w))
  then committed w1 else (Ret 0%N, w1).
Proof.
  unfold insertSupporting, bind, get_inserter, set_inserter. simpl.
  rewrite maybeFlush_eq. simpl. rewrite length_app. simpl.
  unfold with_inserter, pushed. rewrite N.add_0_r. reflexivity.
Qed.

(** The invariant of the buffer. *)
Lemma consistent_new (c : ConnId) (T : Z) : consistent (new_InsertManager c T).
Proof. unfold consistent. simpl. lia. Qed.

Lemma consistent_emptied (im : InsertManager) : consistent (emptied im).
Proof. unfold consistent. simpl. lia. Qed.

Lemma consistent_pushed (im : InsertManager) (s : string) (k : N) :
  consistent im -> (k <= 1)%N -> consistent (pushed im s k).
Proof.
  unfold consistent. simpl. rewrite length_app. simpl. lia.
Qed.
End MonadFacts.

(** One step of a sequence that returns: name what its first part returned
    and the world it left. *)
Ltac step H :=
  match type of H with
  | fst (bind ?m ?k ?w) = Ret _ =>
      let a := fresh "a" in
      let w1 := fresh "w" in
      let Hm := fresh "Hm" in
      let Hk := fresh "Hk" in
      destruct (bind_inv m k H) as (a & w1 & Hm & Hk);
      rewrite Hk in H; try rewrite Hk; clear Hk
  end.

(** ** The insert batcher *)

Section BatcherContract.
Context {driver : Driver}.

(** C6. [insert] appends the statement and adds 1 to the progress count,
  [insertSupporting] appends it and leaves the count; either one commits
  the buffer exactly when it then holds at least [threshold] statements,
  and returns 0 otherwise.  A commit ([flush]) sends the whole buffer as
  one transaction, leaves the buffer empty and the count 0, and returns the
  count it found, which is 0 for an empty buffer. *)
Theorem InsertManager_contract (w : World) (statement : string) :
  consistent (inserter w) ->
  let this := inserter w in
  let c := connection this in
  let full :=
    Z.geb (Z.of_nat (List.length (statements this ++ [statement])))
          (threshold this) in
  let answer (sql : string) (n : N) : Outcome N :=
    match exec_result w c sql with
    | Ok _ => Ret n
    | Err e => Throw (DriverError e)
    end in
  (* insert *)
  insert statement w =
    (let w1 := with_inserter w (pushed this statement 1) in
     if full then committed w1 else (Ret 0%N, w1)) /\
  fst (insert statement w) =
    (if full
     then answer (batchSql (statements this ++ [statement])) (count this + 1)%N
     else Ret 0%N) /\
  (* insertSupporting *)
  insertSupporting statement w =
    (let w1 := with_inserter w (pushed this statement 0) in
     if full then committed w1 else (Ret 0%N, w1)) /\
  fst (insertSupporting statement w) =
    (if full
     then answer (batchSql (statements this ++ [statement])) (count this)
     else Ret 0%N) /\
  (* flush *)
  flush w = committed w /\
  fst (flush w) = answer (batchSql (statements this)) (count this) /\
  inserter (snd (flush w)) = emptied this /\
  trace (snd (flush w))
    = (trace w ++ [EvExec c (batchSql (statements this))])%list /\
  (statements this = [] -> count this = 0%N) /\
  (* the buffer stays consistent *)
  consistent (inserter (snd (insert statement w))) /\
  consistent (inserter (snd (insertSupporting statement w))) /\
  consistent (inserter (snd (flush w))).
Proof.
  intros Hc this c full answer.
  assert (Hfull : full = Z.geb (Z.of_nat (List.length (statements this) + 1))
                               (threshold this)).
  { unfold full. now rewrite length_app. }
  rewrite insert_eq, insertSupporting_eq, flush_eq. fold this.
  rewrite <- Hfull. cbv zeta.
  repeat match goal with |- _ /\ _ => split end; try reflexivity.
  - destruct full; reflexivity.
  - destruct full; [|reflexivity]. unfold committed. simpl.
    now rewrite N.add_0_r.
  - intros Hnil. unfold consistent in Hc. fold this in Hc.
    rewrite Hnil in Hc. simpl in Hc. lia.
  - destruct full; simpl.
    + apply consistent_emptied.
    + apply consistent_pushed; [exact Hc | lia].
  - destruct full; simpl.
    + apply consistent_emptied.
    + apply consistent_pushed; [exact Hc | lia].
  - simpl. apply consistent_emptied.
Qed.

(** C9. [flush] empties the buffer and zeroes the count before the batch
  is executed: whatever the driver answers, the [InsertManager] is empty
  afterwards; when the driver fails, the error is thrown and the
  statements of the batch are gone. *)
Theorem flush_discards_before_exec (w : World) :
  let this := inserter w in
  let batch := batchSql (statements this) in
  flush w
    = (execOrError (connection this) batch ;; ret (count this))
        (with_inserter w (emptied this)) /\
  statements (inserter (snd (flush w))) = [] /\
  count (inserter (snd (flush w))) = 0%N /\
  forall e,
    exec_result w (connection this) batch = Err e ->
    fst (flush w) = Throw (DriverError e) /\
    inserter (snd (flush w)) = emptied this.
Proof.
  intros this batch. rewrite flush_eq. unfold committed. fold this batch.
  split; [|split; [|split]]; try reflexivity.
  - unfold bind. rewrite execOrError_eq. simpl.
    change (exec_result (with_inserter w (emptied this)) (connection this) batch)
      with (exec_result w (connection this) batch).
    destruct (exec_result w (connection this) batch) as [[] | e]; reflexivity.
  - intros e He. simpl.
    change (exec_result (with_inserter w (emptied this)) (connection this) batch)
      with (exec_result w (connection this) batch).
    rewrite He. split; reflexivity.
Qed.
End BatcherContract.


Lemma InsertManager_contract_witness :
  consistent twoPending /\
  fst (insert (driver := MockDriver) "INSERT 3"
         (mockWorld (fun _ => mockSource []) twoPending)) = Ret 2%N.
Proof.
  assert (H : consistent twoPending) by (unfold consistent; simpl; lia).
  split; [exact H|].
  destruct (InsertManager_contract (driver := MockDriver)
              (mockWorld (fun _ => mockSource []) twoPending) "INSERT 3" H)
    as (_ & -> & _).
  reflexivity.
Defined.

Lemma flush_discards_before_exec_witness :
  exec_result (driver := MockDriver) (mockWorld (fun _ => failingDB) twoPending)
    0 (batchSql ["INSERT 1"; "INSERT 2"]) = Err "disk I/O error" /\
  fst (flush (driver := MockDriver) (mockWorld (fun _ => failingDB) twoPending))
    = Throw (DriverError "disk I/O error") /\
  inserter (snd (flush (driver := MockDriver)
                   (mockWorld (fun _ => failingDB) twoPending)))
    = emptied twoPending.
Proof.
  split; [reflexivity|].
  destruct (flush_discards_before_exec (driver := MockDriver)
              (mockWorld (fun _ => failingDB) twoPending))
    as (_ & _ & _ & H).
  apply H. reflexivity.
Defined.

(** ** Readings of the trace, and the batcher of the design *)

Lemma execs_app (c : ConnId) (t1 t2 : list Event) :
  execs c (t1 ++ t2) = (execs c t1 ++ execs c t2)%list.
Proof. apply flat_map_app. Qed.

Lemma gets_app (c : ConnId) (t1 t2 : list Event) :
  gets c (t1 ++ t2) = (gets c t1 ++ gets c t2)%list.
Proof. apply flat_map_app. Qed.

Lemma eachs_app (t1 t2 : list Event) :
  eachs (t1 ++ t2) = (eachs t1 ++ eachs t2)%list.
Proof. apply flat_map_app. Qed.

Lemma incs_app (t1 t2 : list Event) :
  incs (t1 ++ t2) = (incs t1 ++ incs t2)%list.
Proof. apply flat_map_app. Qed.

Lemma logs_app (t1 t2 : list Event) :
  logs (t1 ++ t2) = (logs t1 ++ logs t2)%list.
Proof. apply flat_map_app. Qed.

Lemma sumN_app (l1 l2 : list N) : sumN (l1 ++ l2) = (sumN l1 + sumN l2)%N.
Proof.
  induction l1 as [|x l1 IH]; simpl; [reflexivity|]. rewrite IH. lia.
Qed.

Lemma feed_app (T : Z) (l1 l2 : list string) :
  forall pending,
    feed T pending (l1 ++ l2) =
    (let (b1, p1) := feed T pending l1 in
     let (b2, p2) := feed T p1 l2 in
     ((b1 ++ b2)%list, p2)).
Proof.
  induction l1 as [|s l1 IH]; intros pending; simpl.
  - now destruct (feed T pending l2).
  - destruct (Z.geb _ T).
    + rewrite IH. destruct (feed T [] l1) as [b1 p1].
      now destruct (feed T p1 l2).
    + apply IH.
Qed.

Lemma feed_concat (T : Z) (l : list string) :
  forall pending,
    (List.concat (fst (feed T pending l)) ++ snd (feed T pending l))%list
    = (pending ++ l)%list.
Proof.
  induction l as [|s l IH]; intros pending; simpl.
  - now rewrite app_nil_r.
  - destruct (Z.geb _ T).
    + specialize (IH []). destruct (feed T [] l) as [b p]. simpl in *.
      rewrite <- app_assoc, IH, <- app_assoc. reflexivity.
    + rewrite IH, <- app_assoc. reflexivity.
Qed.


(** ** Runs of the engine *)

Section RunFacts.
Context {driver : Driver}.
Variable merged : ConnId.

Lemma Run_refl (w : World) : Run merged w w [] 0.
Proof.
  constructor; simpl; try reflexivity.
  - now rewrite app_nil_r.
  - lia.
  - exists []. now rewrite app_nil_r.
Qed.

Lemma Run_trans (w w1 w2 : World) (s1 s2 : list string) (r1 r2 : N) :
  Run merged w w1 s1 r1 -> Run merged w1 w2 s2 r2 ->
  Run merged w w2 (s1 ++ s2) (r1 + r2).
Proof.
  intros H1 H2. constructor.
  - intros c Hc. rewrite (run_frame H2 c Hc). apply (run_frame H1 c Hc).
  - rewrite (run_connection H2). apply (run_connection H1).
  - rewrite (run_threshold H2). apply (run_threshold H1).
  - rewrite (run_execs H2), (run_execs H1), (run_threshold H1),
      (run_pending H1), feed_app.
    destruct (feed _ (statements (inserter w)) s1) as [b1 p1]. simpl.
    destruct (feed _ p1 s2) as [b2 p2]. simpl.
    now rewrite map_app, app_assoc.
  - rewrite (run_pending H2), (run_threshold H1), (run_pending H1), feed_app.
    destruct (feed _ (statements (inserter w)) s1) as [b1 p1]. simpl.
    now destruct (feed _ p1 s2) as [b2 p2].
  - generalize (run_progress H1) (run_progress H2). lia.
  - rewrite (run_eachs H2). apply (run_eachs H1).
  - destruct (run_extends H1) as [e1 E1]. destruct (run_extends H2) as [e2 E2].
    exists (e1 ++ e2)%list. now rewrite E2, E1, app_assoc.
Qed.


Lemma emit_Run (ev : Event) (w : World) :
  silent ev -> Run merged w (snd (emit ev w)) [] 0.
Proof.
  intros Hs. constructor; simpl; try reflexivity.
  - rewrite execs_app. destruct ev; simpl in *; solve [tauto | reflexivity].
  - rewrite incs_app. destruct ev; simpl in *; try tauto;
      rewrite app_nil_r; lia.
  - rewrite eachs_app. destruct ev; simpl in *; try tauto;
      now rewrite app_nil_r.
  - now exists [ev].
Qed.

Lemma committed_execs (w : World) :
  connection (inserter w) = merged ->
  execs merged (trace (snd (committed w)))
  = (execs merged (trace w) ++ [batchSql (statements (inserter w))])%list.
Proof.
  intros Hc. unfold committed. simpl. rewrite execs_app. simpl.
  now rewrite Hc, Nat.eqb_refl.
Qed.

Lemma committed_frame (w : World) {c : ConnId} :
  connection (inserter w) = merged -> c <> merged ->
  dbs (snd (committed w)) c = dbs w c.
Proof.
  intros Hc Hn. unfold committed. simpl. rewrite Hc.
  apply Nat.eqb_neq in Hn. now rewrite Hn.
Qed.

Lemma committed_Ret (w : World) (n : N) :
  fst (committed w) = Ret n -> n = count (inserter w).
Proof.
  unfold committed. simpl. destruct (exec_result _ _ _); simpl; congruence.
Qed.

(** A statement pushed with [k] of progress, its return value reported. *)
Lemma push_Run (w : World) (s : string) (k : N) (op : M N) :
  (op w =
   let w1 := with_inserter w (pushed (inserter w) s k) in
   if Z.geb (Z.of_nat (List.length (statements (inserter w)) + 1))
            (threshold (inserter w))
   then committed w1 else (Ret 0%N, w1)) ->
  connection (inserter w) = merged ->
  fst ((n <- op ;; progress_inc n) w) = Ret tt ->
  Run merged w (snd ((n <- op ;; progress_inc n) w)) [s] k.
Proof.
  intros Hop Hc Hret. unfold bind in *. rewrite Hop in *. cbv zeta in *.
  set (w1 := with_inserter w (pushed (inserter w) s k)) in *.
  assert (Hlen : List.length (statements (inserter w) ++ [s])
                 = List.length (statements (inserter w)) + 1)
    by (rewrite length_app; reflexivity).
  destruct (Z.geb (Z.of_nat (List.length (statements (inserter w)) + 1))
                  (threshold (inserter w))) eqn:Hfull.
  - destruct (committed w1) as [[n | e] w2] eqn:Hcom; [|discriminate].
    assert (Hn : n = count (inserter w1))
      by (apply committed_Ret; now rewrite Hcom).
    assert (Hw2 : w2 = snd (committed w1)) by now rewrite Hcom.
    assert (Hc1 : connection (inserter w1) = merged) by exact Hc.
    unfold progress_inc. simpl. constructor; simpl.
    + intros c Hne. rewrite Hw2, (committed_frame w1 Hc1 Hne). reflexivity.
    + now rewrite Hw2.
    + now rewrite Hw2.
    + rewrite execs_app, app_nil_r, Hw2, (committed_execs w1 Hc1).
      rewrite Hlen, Hfull. simpl. reflexivity.
    + rewrite Hlen, Hfull, Hw2. reflexivity.
    + rewrite Hw2, Hn. simpl. rewrite !incs_app, !sumN_app. simpl. lia.
    + rewrite eachs_app, app_nil_r, Hw2. simpl.
      rewrite eachs_app. simpl. now rewrite app_nil_r.
    + rewrite Hw2. simpl. eexists. rewrite <- app_assoc. reflexivity.
  - unfold progress_inc. simpl. constructor; simpl; try reflexivity.
    + rewrite execs_app, app_nil_r, Hlen, Hfull. simpl.
      now rewrite app_nil_r.
    + now rewrite Hlen, Hfull.
    + rewrite incs_app, sumN_app. simpl. lia.
    + rewrite eachs_app. simpl. now rewrite app_nil_r.
    + now exists [EvInc 0%N].
Qed.

Lemma insert_Run (w : World) (s : string) :
  connection (inserter w) = merged ->
  fst ((n <- insert s ;; progress_inc n) w) = Ret tt ->
  Run merged w (snd ((n <- insert s ;; progress_inc n) w)) [s] 1.
Proof. apply push_Run. apply insert_eq. Qed.

Lemma insertSupporting_Run (w : World) (s : string) :
  connection (inserter w) = merged ->
  fst ((n <- insertSupporting s ;; progress_inc n) w) = Ret tt ->
  Run merged w (snd ((n <- insertSupporting s ;; progress_inc n) w)) [s] 0.
Proof. apply push_Run. apply insertSupporting_eq. Qed.
End RunFacts.

Arguments Run_trans {driver merged w w1 w2 s1 s2 r1 r2} _ _.

(** ** The states a run passes through *)

Section ReachedFacts.
Context {driver : Driver}.

Lemma db_after_app (db : DB) (l1 l2 : list string) :
  db_after db (l1 ++ l2) = db_after (db_after db l1) l2.
Proof. apply fold_left_app. Qed.

Lemma reached_refl (w : World) : reached w w.
Proof.
  exists []. split; [now rewrite app_nil_r|]. split; [reflexivity | lia].
Qed.

Lemma reached_trans (w w1 w2 : World) :
  reached w w1 -> reached w1 w2 -> reached w w2.
Proof.
  intros (e1 & E1 & D1 & U1) (e2 & E2 & D2 & U2).
  exists (e1 ++ e2)%list. split; [now rewrite E2, E1, app_assoc|].
  split; [|lia].
  intros c. now rewrite D2, D1, execs_app, db_after_app.
Qed.

(** A state on the way from [w1] to [w2] is on the way from [w] to [w'],
    when [w1] is reached from [w] and [w'] from [w2]. *)
Lemma tied_widen (model : Model) (merged : ConnId) (primaryKey : Column)
    (template : option string) (w w1 w2 w' : World) (isPrimary : bool)
    (ro : Row * RowOutcome) :
  reached w w1 -> reached w2 w' ->
  tied model merged primaryKey template w1 w2 isPrimary ro ->
  tied model merged primaryKey template w w' isPrimary ro.
Proof.
  intros H1 H2 (w_r & Ha & Hb & Ho). exists w_r.
  split; [exact (reached_trans _ _ _ H1 Ha)|].
  split; [exact (reached_trans _ _ _ Hb H2) | exact Ho].
Qed.


Lemma tracks_run {A} (m : M A) (w w' : World) (o : Outcome A) :
  tracks m -> m w = (o, w') -> reached w w'.
Proof. intros Hm E. specialize (Hm w). now rewrite E in Hm. Qed.

Lemma tracks_ret {A} (a : A) : tracks (ret a).
Proof. intros w. apply reached_refl. Qed.

Lemma tracks_throw {A} (e : Exn) : tracks (@throw _ A e).
Proof. intros w. apply reached_refl. Qed.

Lemma tracks_bind {A B} (m : M A) (k : A -> M B) :
  tracks m -> (forall a, tracks (k a)) -> tracks (bind m k).
Proof.
  intros Hm Hk w. unfold bind. specialize (Hm w).
  destruct (m w) as [[a | e] w1]; simpl in *; [|exact Hm].
  exact (reached_trans _ _ _ Hm (Hk a w1)).
Qed.

Lemma tracks_emit (ev : Event) :
  match ev with EvExec _ _ => False | _ => True end -> tracks (emit ev).
Proof.
  intros Hev w. exists [ev]. split; [reflexivity|]. split; [|simpl; lia].
  intros c. destruct ev; solve [reflexivity | destruct Hev].
Qed.

Lemma tracks_exec (conn : ConnId) (sql : string) : tracks (exec conn sql).
Proof.
  intros w. rewrite exec_eq. exists [EvExec conn sql].
  split; [reflexivity|]. split; [|simpl; lia].
  intros c. simpl. destruct (Nat.eqb c conn) eqn:Hc.
  - apply Nat.eqb_eq in Hc. subst c. rewrite Nat.eqb_refl. reflexivity.
  - rewrite Nat.eqb_sym, Hc. reflexivity.
Qed.

Lemma tracks_unwrapResult {R} (r : Result R Error) : tracks (unwrapResult r).
Proof. destruct r; [apply tracks_ret | apply tracks_throw]. Qed.

Lemma tracks_unwrapOption {T} (o : option T) : tracks (unwrapOption o).
Proof. destruct o; [apply tracks_ret | apply tracks_throw]. Qed.

Lemma tracks_execOrError (conn : ConnId) (sql : string) :
  tracks (execOrError conn sql).
Proof.
  apply tracks_bind; [apply tracks_exec | intros r; apply tracks_unwrapResult].
Qed.

Lemma reached_executed (w : World) (c : ConnId) (sql : string) :
  reached w (executed w c sql).
Proof.
  generalize (tracks_execOrError c sql w). now rewrite execOrError_eq.
Qed.

Lemma tracks_get_count (c : ConnId) (sql : string) : tracks (get_count c sql).
Proof. intros w. apply (tracks_emit (EvGet c sql) I w). Qed.

Lemma tracks_get_row (c : ConnId) (sql : string) : tracks (get_row c sql).
Proof. intros w. apply (tracks_emit (EvGet c sql) I w). Qed.

Lemma tracks_crypto_randomUUID : tracks crypto_randomUUID.
Proof.
  intros w. exists []. split; [simpl; now rewrite app_nil_r|].
  split; [reflexivity | simpl; lia].
Qed.

Lemma tracks_get_inserter : tracks get_inserter.
Proof. intros w. apply reached_refl. Qed.

Lemma tracks_set_inserter (im : InsertManager) : tracks (set_inserter im).
Proof.
  intros w. exists []. split; [simpl; now rewrite app_nil_r|].
  split; [reflexivity | simpl; lia].
Qed.

Lemma tracks_forEach {A} (l : list A) (body : A -> M unit) :
  (forall x, tracks (body x)) -> tracks (forEach l body).
Proof.
  intros Hbody. induction l as [|x l IH]; simpl.
  - apply tracks_ret.
  - apply tracks_bind; [apply Hbody | intros _; exact IH].
Qed.

Lemma each_rows_reached (callback : Result Row Error -> M unit)
    (rows : list (Result Row Error)) :
  (forall r, tracks (callback r)) ->
  forall w, reached w (snd (each_rows callback rows w)).
Proof.
  intros Hcb. induction rows as [|r rows IH]; intros w; simpl.
  - apply reached_refl.
  - specialize (Hcb r w).
    destruct (callback r w) as [[[] | e] w1]; simpl in *;
      exact (reached_trans _ _ _ Hcb (IH w1)).
Qed.

Lemma tracks_flush : tracks flush.
Proof.
  unfold flush.
  apply tracks_bind; [apply tracks_get_inserter | intros this].
  apply tracks_bind; [apply tracks_set_inserter | intros _].
  apply tracks_bind; [apply tracks_execOrError | intros _].
  apply tracks_ret.
Qed.

Lemma tracks_maybeFlush : tracks maybeFlush.
Proof.
  unfold maybeFlush.
  apply tracks_bind; [apply tracks_get_inserter | intros this].
  destruct (Z.geb _ _); [apply tracks_flush | apply tracks_ret].
Qed.

Lemma tracks_insert (s : string) : tracks (insert s).
Proof.
  unfold insert.
  apply tracks_bind; [apply tracks_get_inserter | intros this].
  apply tracks_bind; [apply tracks_set_inserter | intros _].
  apply tracks_maybeFlush.
Qed.

Lemma tracks_insertSupporting (s : string) : tracks (insertSupporting s).
Proof.
  unfold insertSupporting.
  apply tracks_bind; [apply tracks_get_inserter | intros this].
  apply tracks_bind; [apply tracks_set_inserter | intros _].
  apply tracks_maybeFlush.
Qed.

Lemma tracks_progress_inc (n : N) : tracks (progress_inc n).
Proof. apply tracks_emit. exact I. Qed.

Lemma tracks_probe (model : Model) (merged : ConnId) (primaryKey : Column)
    (template : string) (row : Row) :
  tracks (probe model merged primaryKey template row).
Proof.
  unfold probe.
  apply tracks_bind; [apply tracks_unwrapOption | intros unique].
  apply tracks_bind; [apply tracks_get_row | intros found].
  destruct found as [[existingRow|] | e]; apply tracks_ret.
Qed.

Lemma tracks_mergeRow (model : Model) (schema : Schema) (merged : ConnId)
    (primaryKey : Column) (template : option string) (isPrimary : bool)
    (rowResult : Result Row Error) :
  tracks (mergeRow model schema merged primaryKey template isPrimary
            rowResult).
Proof.
  unfold mergeRow. destruct rowResult as [row | e]; [|apply tracks_ret].
  apply tracks_bind.
  - destruct (negb isPrimary); [|apply tracks_ret].
    destruct template; [apply tracks_probe | apply tracks_ret].
  - intros [existingId|].
    + apply tracks_bind; [apply tracks_insert | intros n].
      apply tracks_progress_inc.
    + apply tracks_bind.
      * destruct isPrimary; [apply tracks_ret | apply tracks_crypto_randomUUID].
      * intros newPk.
        apply tracks_bind; [apply tracks_insert | intros n].
        apply tracks_bind; [apply tracks_progress_inc | intros _].
        apply tracks_bind; [apply tracks_insertSupporting | intros n'].
        apply tracks_progress_inc.
Qed.

Lemma tracks_flush_inc : tracks (n <- flush ;; progress_inc n).
Proof.
  apply tracks_bind; [apply tracks_flush | intros n].
  apply tracks_progress_inc.
Qed.

Lemma tracks_each (conn : ConnId) (query : string)
    (callback : Result Row Error -> M unit) :
  (forall r, tracks (callback r)) -> tracks (each conn query callback).
Proof.
  intros Hcb w. unfold each.
  destruct (db_each (dbs w conn) query) as [rows completion]. simpl.
  assert (H := each_rows_reached callback rows Hcb
                 (snd (emit (EvEach conn query) w))).
  simpl in H.
  destruct (each_rows callback rows _) as [thrown w1]. simpl in H.
  assert (Hall : reached w w1).
  { exact (reached_trans _ _ _ (tracks_emit (EvEach conn query) I w) H). }
  destruct completion; [destruct thrown|]; exact Hall.
Qed.

Lemma tracks_mergeSource (model : Model) (schema : Schema) (merged : ConnId)
    (primaryKey : Column) (template : option string)
    (primary conn : option ConnId) :
  tracks (mergeSource model schema merged primaryKey template primary conn).
Proof.
  unfold mergeSource. destruct conn as [conn|]; [|apply tracks_throw].
  apply tracks_bind.
  - apply tracks_each. intros r. apply tracks_mergeRow.
  - intros _. apply tracks_flush_inc.
Qed.

Lemma tracks_checkClauses (model : Model) (names : list string) :
  forall idx checkJoins checkWheres,
    tracks (checkClauses model names idx checkJoins checkWheres).
Proof.
  induction names as [|name rest IH]; intros idx joins wheres;
    cbn [checkClauses].
  - apply tracks_ret.
  - apply tracks_bind; [apply tracks_unwrapOption | intros col].
    destruct (getRelatedColumn col model); apply IH.
Qed.

Lemma tracks_buildCheckSqlTemplate (model : Model) (primaryKey : Column) :
  tracks (buildCheckSqlTemplate model primaryKey).
Proof.
  unfold buildCheckSqlTemplate.
  destruct (model_unique model) as [unique|]; [|apply tracks_ret].
  apply tracks_bind; [apply tracks_checkClauses | intros [joins wheres]].
  apply tracks_ret.
Qed.

Lemma tracks_countRows (query : string) (conns : list ConnId) :
  forall totalRows primary primaryCount,
    tracks (countRows query conns totalRows primary primaryCount).
Proof.
  induction conns as [|conn rest IH]; intros totalRows primary primaryCount;
    cbn [countRows].
  - apply tracks_ret.
  - apply tracks_bind; [apply tracks_get_count | intros r].
    apply tracks_bind; [apply tracks_unwrapResult | intros o].
    apply tracks_bind; [apply tracks_unwrapOption | intros n].
    destruct (N.ltb primaryCount n); apply IH.
Qed.
End ReachedFacts.

(** ** One source row *)

Section RowFacts.
Context {driver : Driver}.
Variable model : Model.
Variable schema : Schema.
Variable merged : ConnId.
Variable primaryKey : Column.

Lemma bind_assoc {A B C} (m : M A) (f : A -> M B) (g : B -> M C) (w : World) :
  bind (bind m f) g w = bind m (fun x => bind (f x) g) w.
Proof.
  unfold bind. destruct (m w) as [[a | e] w1]; [|reflexivity].
  reflexivity.
Qed.

Lemma probe_eq (template : string) (row : Row) (w : World) :
  model_unique model <> None ->
  probe model merged primaryKey template row w =
  (Ret (found w model merged primaryKey (Some template) false row),
   asked w merged (probeSql model template row)).
Proof.
  intros Hu. unfold probe, found, probeSql.
  destruct (model_unique model) as [unique|]; [|congruence].
  unfold bind, unwrapOption, ret, get_row, emit. simpl.
  destruct (db_get_row _ _) as [[existingRow|] | e]; reflexivity.
Qed.


Lemma existenceCheck_eq (template : option string) (isPrimary : bool)
    (row : Row) (w : World) :
  isSome template = isSome (model_unique model) ->
  existenceCheck model merged primaryKey template isPrimary row w =
  (Ret (found w model merged primaryKey template isPrimary row),
   if probed template isPrimary
   then match template with
        | Some t => asked w merged (probeSql model t row)
        | None => w
        end
   else w).
Proof.
  intros Hu. unfold existenceCheck, probed, found.
  destruct isPrimary; simpl; [reflexivity|].
  destruct template as [t|]; simpl; [|reflexivity].
  rewrite probe_eq.
  - reflexivity.
  - destruct (model_unique model); [congruence | discriminate].
Qed.


Lemma mergeRow_Ok (template : option string) (isPrimary : bool) (row : Row) :
  mergeRow model schema merged primaryKey template isPrimary (Ok row)
  = bind (existenceCheck model merged primaryKey template isPrimary row) (afterCheck model schema primaryKey isPrimary row).
Proof. reflexivity. Qed.

Lemma asked_Run (w : World) (sql : string) :
  Run merged w (asked w merged sql) [] 0.
Proof. apply (emit_Run merged (EvGet merged sql) w). exact I. Qed.

Lemma afterCheck_Run (isPrimary : bool) (row : Row)
    (existingPk : option (option string)) (w : World) :
  connection (inserter w) = merged ->
  fst (afterCheck model schema primaryKey isPrimary row existingPk w) = Ret tt ->
  Run merged w (snd (afterCheck model schema primaryKey isPrimary row existingPk w))
    (row_statements model schema primaryKey row
       match existingPk with
       | Some existingId => Matched existingId
       | None => Inserted (chosenPk w isPrimary row)
       end) 1.
Proof.
  intros Hc Hret. destruct existingPk as [existingId|]; simpl in *.
  - now apply insert_Run.
  - set (newPk := chosenPk w isPrimary row).
    set (w0 := if isPrimary then w
               else {| dbs := dbs w; trace := trace w;
                       uuids := S (uuids w); inserter := inserter w |}).
    assert (Hnew : (if isPrimary then ret (oldPk row) else crypto_randomUUID) w
                   = (Ret newPk, w0)).
    { unfold newPk, w0, chosenPk. now destruct isPrimary. }
    assert (H0 : Run merged w w0 [] 0).
    { unfold w0. destruct isPrimary; [apply Run_refl|].
      constructor; simpl; try reflexivity.
      - now rewrite app_nil_r.
      - lia.
      - exists []. now rewrite app_nil_r. }
    assert (Hc0 : connection (inserter w0) = merged).
    { now rewrite (run_connection H0). }
    rewrite (bind_Ret _ Hnew) in *.
    set (step1 := n <- insert (insert_sql model schema primaryKey row newPk) ;;
                  progress_inc n).
    set (step2 := n <- insertSupporting (idMapInsert model (oldPk row) newPk) ;;
                  progress_inc n).
    assert (Heq : forall w,
               (n <- insert (insert_sql model schema primaryKey row newPk) ;;
                progress_inc n ;;
                n0 <- insertSupporting (idMapInsert model (oldPk row) newPk) ;;
                progress_inc n0) w
               = bind step1 (fun _ => step2) w).
    { intros w'. unfold step1. now rewrite bind_assoc. }
    rewrite Heq in *.
    destruct (bind_inv _ _ Hret) as ([] & w1 & Hs1 & Hs).
    rewrite Hs in *.
    assert (H1 : Run merged w0 w1 [insert_sql model schema primaryKey row newPk] 1).
    { assert (Hw1 : w1 = snd (step1 w0)) by (rewrite Hs1; reflexivity).
      rewrite Hw1. apply insert_Run; [assumption|].
      change (fst (step1 w0) = Ret tt). now rewrite Hs1. }
    assert (Hc1 : connection (inserter w1) = merged).
    { now rewrite (run_connection H1). }
    assert (H2 := insertSupporting_Run merged w1
                    (idMapInsert model (oldPk row) newPk) Hc1 Hret).
    fold step2 in H2.
    apply (Run_trans H0 (Run_trans H1 H2)).
Qed.

(** What processing one delivered row does. *)
Lemma mergeRow_Run (template : option string) (isPrimary : bool)
    (row : Row) (w : World) :
  isSome template = isSome (model_unique model) ->
  connection (inserter w) = merged ->
  fst (mergeRow model schema merged primaryKey template isPrimary (Ok row) w)
    = Ret tt ->
  Run merged w
    (snd (mergeRow model schema merged primaryKey template isPrimary (Ok row) w))
    (row_statements model schema primaryKey row
       (row_outcome w model merged primaryKey template isPrimary row)) 1.
Proof.
  intros Hu Hc. rewrite mergeRow_Ok. unfold bind.
  rewrite (existenceCheck_eq _ _ _ w Hu).
  set (w0 := if probed template isPrimary
             then match template with
                  | Some t => asked w merged (probeSql model t row)
                  | None => w
                  end
             else w).
  assert (H0 : Run merged w w0 [] 0).
  { unfold w0. destruct (probed template isPrimary); [|apply Run_refl].
    destruct template; [apply asked_Run | apply Run_refl]. }
  assert (Hc0 : connection (inserter w0) = merged).
  { now rewrite (run_connection H0). }
  assert (Hu0 : uuids w0 = uuids w).
  { unfold w0. destruct (probed template isPrimary); [|reflexivity].
    now destruct template. }
  intros Hret.
  assert (H1 := afterCheck_Run isPrimary row
                  (found w model merged primaryKey template isPrimary row)
                  w0 Hc0 Hret).
  unfold row_outcome.
  replace (chosenPk w0 isPrimary row) with (chosenPk w isPrimary row) in H1
    by (unfold chosenPk; now rewrite Hu0).
  apply (Run_trans H0 H1).
Qed.





Lemma idMapInsertExisting_text (old_id existingId : string) :
  idMapInsertExisting model old_id existingId
  = "INSERT INTO " ++ dq ++ (model_name model ++ "_id_map") ++ dq
      ++ " (old_id, new_id) VALUES ('" ++ old_id ++ "', " ++ existingId
      ++ ")".
Proof. reflexivity. Qed.

Lemma row_outcome_ok (template : option string) (isPrimary : bool)
    (row : Row) (w : World) :
  outcome_ok isPrimary row
    (row_outcome w model merged primaryKey template isPrimary row).
Proof.
  unfold row_outcome, found, outcome_ok, chosenPk.
  destruct isPrimary; [reflexivity|].
  destruct template as [t|]; [|discriminate].
  destruct (db_get_row _ _) as [[r|]|e]; try discriminate. reflexivity.
Qed.
End RowFacts.

(** ** One source *)

Section SourceFacts.
Context {driver : Driver}.
Variable model : Model.
Variable schema : Schema.
Variable merged : ConnId.
Variable primaryKey : Column.
Variable template : option string.

Hypothesis template_unique : isSome template = isSome (model_unique model).

Let callback (isPrimary : bool) : Result Row Error -> M unit :=
  mergeRow model schema merged primaryKey template isPrimary.

(** A read error is passed over. *)
Lemma mergeRow_Err (isPrimary : bool) (e : Error) (w : World) :
  callback isPrimary (Err e) w = (Ret tt, w).
Proof. reflexivity. Qed.

Lemma each_rows_Run (isPrimary : bool) (results : list (Result Row Error)) :
  forall w,
    connection (inserter w) = merged ->
    fst (each_rows (callback isPrimary) results w) = None ->
    exists processed,
      map fst processed = ok_rows results /\
      Forall (fun p => outcome_ok isPrimary (fst p) (snd p)) processed /\
      Run merged w (snd (each_rows (callback isPrimary) results w))
        (processed_statements model schema primaryKey processed)
        (N.of_nat (List.length processed)) /\
      Forall (tied model merged primaryKey template w
                (snd (each_rows (callback isPrimary) results w)) isPrimary)
        processed.
Proof.
  induction results as [|[row | e] rest IH]; intros w Hc Hnone.
  - exists []. simpl.
    split4; [reflexivity | constructor | apply Run_refl | constructor].
  - cbn [each_rows] in *.
    destruct (callback isPrimary (Ok row) w) as [[[] | e] w1] eqn:Hrow;
      [|discriminate].
    assert (H1 : Run merged w w1
                   (row_statements model schema primaryKey row
                      (row_outcome w model merged primaryKey template
                         isPrimary row)) 1).
    { assert (Hw1 : w1 = snd (callback isPrimary (Ok row) w))
        by now rewrite Hrow.
      rewrite Hw1. apply mergeRow_Run; try assumption.
      unfold callback in Hrow. now rewrite Hrow. }
    destruct (IH w1) as (processed & Hrows & Hok & Hrun & Htied).
    { now rewrite (run_connection H1). }
    { assumption. }
    assert (Hstep : reached w w1).
    { apply (tracks_run (callback isPrimary (Ok row)) w w1 (Ret tt));
        [apply tracks_mergeRow | exact Hrow]. }
    assert (Hrest : reached w1 (snd (each_rows (callback isPrimary) rest w1))).
    { apply each_rows_reached. intros r. apply tracks_mergeRow. }
    exists ((row, row_outcome w model merged primaryKey template isPrimary row)
            :: processed).
    split4.
    + simpl. now rewrite Hrows.
    + constructor; [apply row_outcome_ok | assumption].
    + replace (N.of_nat (List.length (_ :: processed)))
        with (1 + N.of_nat (List.length processed))%N
        by (simpl List.length; lia).
      apply (Run_trans H1 Hrun).
    + constructor.
      * exists w. split; [apply reached_refl|].
        split; [exact (reached_trans _ _ _ Hstep Hrest) | reflexivity].
      * eapply Forall_impl; [|exact Htied]. intros ro.
        apply tied_widen; [exact Hstep | apply reached_refl].
  - cbn [each_rows] in *. rewrite mergeRow_Err in *.
    apply IH; assumption.
Qed.

(** [flush] followed by the report of what it returned. *)
Lemma flush_Drained (w : World) :
  connection (inserter w) = merged ->
  fst ((n <- flush ;; progress_inc n) w) = Ret tt ->
  Drained merged w (snd ((n <- flush ;; progress_inc n) w))
    [statements (inserter w)] 0 [].
Proof.
  intros Hc. unfold bind. rewrite flush_eq.
  destruct (committed w) as [[n | e] w1] eqn:Hcom; [|discriminate].
  intros _.
  assert (Hn : n = count (inserter w))
    by (apply committed_Ret; now rewrite Hcom).
  assert (Hw1 : w1 = snd (committed w)) by now rewrite Hcom.
  unfold progress_inc. simpl. rewrite Hw1. constructor; simpl.
  - intros c Hne. rewrite Hc. apply Nat.eqb_neq in Hne. now rewrite Hne.
  - reflexivity.
  - reflexivity.
  - rewrite !execs_app. simpl. rewrite Hc, Nat.eqb_refl, !app_nil_r.
    reflexivity.
  - reflexivity.
  - reflexivity.
  - rewrite !incs_app, !sumN_app. simpl. lia.
  - rewrite !eachs_app. simpl. now rewrite !app_nil_r.
  - eexists. rewrite <- app_assoc. reflexivity.
Qed.

(** A source streamed to its end, then flushed. *)
Lemma mergeSource_Drained (primary : option ConnId) (conn : ConnId)
    (w : World) :
  connection (inserter w) = merged ->
  statements (inserter w) = [] ->
  fst (mergeSource model schema merged primaryKey template primary
         (Some conn) w) = Ret tt ->
  exists processed,
    map fst processed
      = source_rows w conn (selectQuery model schema primaryKey) /\
    Forall (fun p => outcome_ok (sameConn (Some conn) primary) (fst p) (snd p))
      processed /\
    Drained merged w
      (snd (mergeSource model schema merged primaryKey template primary
              (Some conn) w))
      (source_batches (threshold (inserter w))
         (processed_statements model schema primaryKey processed))
      (N.of_nat (List.length processed)) [conn] /\
    Forall (tied model merged primaryKey template w
              (snd (mergeSource model schema merged primaryKey template
                      primary (Some conn) w))
              (sameConn (Some conn) primary))
      processed.
Proof.
  intros Hc Hnil. unfold mergeSource.
  set (isPrimary := sameConn (Some conn) primary).
  set (query := selectQuery model schema primaryKey).
  intros Hret.
  destruct (bind_inv _ _ Hret) as (cnt & w1 & Heach & Hrest).
  rewrite Hrest in *. clear Hrest.
  unfold each in Heach. unfold source_rows. fold query.
  destruct (db_each (dbs w conn) query) as [results completion].
  simpl in Heach.
  set (w0 := {| dbs := dbs w; trace := (trace w ++ [EvEach conn query])%list;
                uuids := uuids w; inserter := inserter w |}) in *.
  destruct (each_rows (mergeRow model schema merged primaryKey template
                         isPrimary) results w0) as [thrown w1'] eqn:Hrows.
  destruct completion as [count | e]; [|discriminate].
  destruct thrown as [e|]; [discriminate|].
  injection Heach as _ <-.
  destruct (@each_rows_Run isPrimary results w0)
    as (processed & Hp & Hok & Hrun & Htied).
  { exact Hc. }
  { unfold callback. now rewrite Hrows. }
  unfold callback in Hrun, Htied. rewrite Hrows in Hrun, Htied.
  simpl in Hrun, Htied.
  assert (Hc1 : connection (inserter w1') = merged).
  { now rewrite (run_connection Hrun). }
  assert (Hfl := flush_Drained w1' Hc1 Hret).
  exists processed. split4; [assumption | assumption | |].
  2:{ eapply Forall_impl; [|exact Htied]. intros ro. apply tied_widen.
      - exact (tracks_emit (EvEach conn query) I w).
      - apply tracks_flush_inc. }
  simpl fst.
  constructor.
  - intros c Hne. rewrite (dr_frame Hfl c Hne). apply (run_frame Hrun c Hne).
  - rewrite (dr_connection Hfl). apply (run_connection Hrun).
  - rewrite (dr_threshold Hfl). apply (run_threshold Hrun).
  - rewrite (dr_execs Hfl), (run_execs Hrun), (run_pending Hrun). simpl.
    rewrite execs_app. simpl. rewrite app_nil_r, Hnil.
    unfold source_batches. now rewrite map_app, app_assoc.
  - apply (dr_pending Hfl).
  - apply (dr_count Hfl).
  - generalize (dr_progress Hfl) (run_progress Hrun). simpl.
    rewrite incs_app, sumN_app. simpl. lia.
  - rewrite (dr_eachs Hfl), (run_eachs Hrun). simpl.
    rewrite eachs_app, app_nil_r. reflexivity.
  - destruct (dr_extends Hfl) as [e2 E2].
    destruct (run_extends Hrun) as [e1 E1]. simpl in E1.
    exists ([EvEach conn query] ++ e1 ++ e2)%list.
    rewrite E2, E1, <- !app_assoc. reflexivity.
Qed.
End SourceFacts.

(** ** One model *)

Section ModelFacts.
Context {driver : Driver}.
Variable model : Model.
Variable schema : Schema.
Variable merged : ConnId.

Lemma Drained_trans (w w1 w2 : World) (b1 b2 : list (list string))
    (r1 r2 : N) (s1 s2 : list ConnId) :
  Drained merged w w1 b1 r1 s1 -> Drained merged w1 w2 b2 r2 s2 ->
  Drained merged w w2 (b1 ++ b2) (r1 + r2) (s1 ++ s2).
Proof.
  intros H1 H2. constructor.
  - intros c Hc. rewrite (dr_frame H2 c Hc). apply (dr_frame H1 c Hc).
  - rewrite (dr_connection H2). apply (dr_connection H1).
  - rewrite (dr_threshold H2). apply (dr_threshold H1).
  - rewrite (dr_execs H2), (dr_execs H1), map_app, app_assoc. reflexivity.
  - apply (dr_pending H2).
  - apply (dr_count H2).
  - generalize (dr_progress H1) (dr_progress H2) (dr_count H1). lia.
  - rewrite (dr_eachs H2), (dr_eachs H1), app_assoc. reflexivity.
  - destruct (dr_extends H1) as [e1 E1]. destruct (dr_extends H2) as [e2 E2].
    exists (e1 ++ e2)%list. now rewrite E2, E1, app_assoc.
Qed.

Lemma checkClauses_world (names : list string) :
  forall idx checkJoins checkWheres (w : World),
    snd (checkClauses model names idx checkJoins checkWheres w) = w.
Proof.
  induction names as [|name rest IH]; intros idx joins wheres w;
    [reflexivity|].
  cbn [checkClauses]. unfold bind, unwrapOption.
  destruct (getCol model name) as [col|]; [|reflexivity].
  unfold ret. destruct (getRelatedColumn col model); apply IH.
Qed.

(** The probe template exists exactly for a model with a unique
    constraint, and compiling it leaves the world as it is. *)
Lemma buildCheckSqlTemplate_Ret (primaryKey : Column) (w w' : World)
    (template : option string) :
  buildCheckSqlTemplate model primaryKey w = (Ret template, w') ->
  w' = w /\ isSome template = isSome (model_unique model).
Proof.
  unfold buildCheckSqlTemplate.
  destruct (model_unique model) as [unique|].
  - unfold bind.
    assert (Hw := checkClauses_world (columnNames unique) 0 [] [] w).
    destruct (checkClauses model (columnNames unique) 0 [] [] w)
      as [[[joins wheres] | e] w1]; simpl in Hw; subst w1.
    + unfold ret. intros H. injection H as <- <-. now split.
    + discriminate.
  - unfold ret. intros H. injection H as <- <-. now split.
Qed.


Lemma buildCheckSqlTemplate_isSome (primaryKey : Column) (w : World)
    (template : option string) :
  fst (buildCheckSqlTemplate model primaryKey w) = Ret template ->
  isSome template = isSome (model_unique model).
Proof.
  destruct (buildCheckSqlTemplate model primaryKey w) as [[t | e] w'] eqn:H;
    simpl; intros Heq; [|discriminate].
  injection Heq as ->. now apply buildCheckSqlTemplate_Ret in H.
Qed.

(** The probe template does not depend on the world. *)
Lemma checkClauses_any (names : list string) :
  forall idx checkJoins checkWheres (w w0 : World),
    fst (checkClauses model names idx checkJoins checkWheres w)
    = fst (checkClauses model names idx checkJoins checkWheres w0).
Proof.
  induction names as [|name rest IH]; intros idx joins wheres w w0;
    [reflexivity|].
  cbn [checkClauses]. unfold bind, unwrapOption.
  destruct (getCol model name) as [col|]; [|reflexivity].
  unfold ret. destruct (getRelatedColumn col model); apply IH.
Qed.

Lemma buildCheckSqlTemplate_any (primaryKey : Column) (w w0 : World) :
  fst (buildCheckSqlTemplate model primaryKey w)
  = fst (buildCheckSqlTemplate model primaryKey w0).
Proof.
  unfold buildCheckSqlTemplate.
  destruct (model_unique model) as [unique|]; [|reflexivity].
  unfold bind.
  assert (H := checkClauses_any (columnNames unique) 0 [] [] w w0).
  destruct (checkClauses model (columnNames unique) 0 [] [] w)
    as [[[joins wheres] | e] w1];
    destruct (checkClauses model (columnNames unique) 0 [] [] w0)
      as [[[joins0 wheres0] | e0] w2]; simpl in H; try discriminate.
  - injection H as -> ->. reflexivity.
  - injection H as ->. reflexivity.
Qed.

Lemma counted_cons (w : World) (query : string) (c : ConnId)
    (conns : list ConnId) :
  counted (asked w c query) query conns = counted w query (c :: conns).
Proof. unfold counted, asked. simpl. now rewrite <- app_assoc. Qed.

(** The count loop from a state [(primary, primaryCount)] on: either no
    count of [conns] exceeds [primaryCount] and [primary] stays, or the
    new primary is the first connection of [conns] with the largest
    count, which exceeds [primaryCount]. *)
Lemma countRows_Ret (query : string) (conns : list ConnId) :
  forall totalRows primary primaryCount w total' primary' w',
    countRows query conns totalRows primary primaryCount w
      = (Ret (total', primary'), w') ->
    let counts := map (fun c => source_count w c query) conns in
    w' = counted w query conns /\
    total' = (totalRows + sumN counts)%N /\
    ((primary' = primary /\ Forall (fun n => (n <= primaryCount)%N) counts)
     \/ exists i m p,
          primary' = Some p /\
          nth_error conns i = Some p /\ nth_error counts i = Some m /\
          (primaryCount < m)%N /\
          (forall j n, nth_error counts j = Some n -> (n <= m)%N) /\
          (forall j n, j < i -> nth_error counts j = Some n -> (n < m)%N)).
Proof.
  induction conns as [|conn rest IH];
    intros totalRows primary primaryCount w total' primary' w' Hrun counts.
  - simpl in Hrun. unfold ret in Hrun. injection Hrun as <- <- <-.
    unfold counted, counts. simpl. rewrite app_nil_r, N.add_0_r.
    split3; [now destruct w | reflexivity | left; split; constructor].
  - cbn [countRows] in Hrun. unfold bind, get_count, emit, ret in Hrun.
    simpl in Hrun. fold (asked w conn query) in Hrun.
    destruct (db_get_count (dbs w conn) query) as [[n|] | e] eqn:Hget;
      simpl in Hrun; try discriminate.
    assert (Hn : source_count w conn query = n).
    { unfold source_count. now rewrite Hget. }
    assert (Hcounts : counts
              = n :: map (fun c => source_count (asked w conn query) c query)
                       rest).
    { unfold counts. simpl. now rewrite Hn. }
    rewrite Hcounts. clear Hcounts counts.
    set (counts := map (fun c => source_count (asked w conn query) c query)
                     rest).
    destruct (N.ltb primaryCount n) eqn:Hlt.
    + apply N.ltb_lt in Hlt.
      destruct (IH _ _ _ _ _ _ _ Hrun) as (Hw & Ht & Hp).
      fold counts in Ht, Hp.
      split3.
      * rewrite Hw. apply counted_cons.
      * rewrite Ht. simpl. lia.
      * right. destruct Hp as [[-> Hall] | (i & m & p & -> & Hi & Hm & Hlt' & Hle & Hbefore)].
        -- exists 0, n, conn. split; [reflexivity|].
           split; [reflexivity|]. split; [reflexivity|]. split; [assumption|].
           split.
           ++ intros [|j] x Hx; simpl in Hx.
              ** injection Hx as <-. lia.
              ** rewrite Forall_forall in Hall. apply Hall.
                 eapply nth_error_In; eassumption.
           ++ intros j x Hj. lia.
        -- exists (S i), m, p. split; [reflexivity|].
           split; [assumption|]. split; [assumption|]. split; [lia|].
           split.
           ++ intros [|j] x Hx; simpl in Hx.
              ** injection Hx as <-. lia.
              ** eapply Hle; eassumption.
           ++ intros [|j] x Hj Hx; simpl in Hx.
              ** injection Hx as <-. assumption.
              ** apply (Hbefore j x); [lia | assumption].
    + apply N.ltb_ge in Hlt.
      destruct (IH _ _ _ _ _ _ _ Hrun) as (Hw & Ht & Hp).
      fold counts in Ht, Hp.
      split3.
      * rewrite Hw. apply counted_cons.
      * rewrite Ht. simpl. lia.
      * destruct Hp as [[-> Hall] | (i & m & p & -> & Hi & Hm & Hlt' & Hle & Hbefore)].
        -- left. split; [reflexivity|]. constructor; assumption.
        -- right. exists (S i), m, p. split; [reflexivity|].
           split; [assumption|]. split; [assumption|]. split; [assumption|].
           split.
           ++ intros [|j] x Hx; simpl in Hx.
              ** injection Hx as <-. lia.
              ** eapply Hle; eassumption.
           ++ intros [|j] x Hj Hx; simpl in Hx.
              ** injection Hx as <-. lia.
              ** apply (Hbefore j x); [lia | assumption].
Qed.

(** From the start of the loop: the primary is the first source with
    the largest count. *)
Lemma countRows_primary (query : string) (conns : list ConnId)
    (w w' : World) (total : N) (primary : option ConnId) :
  conns <> [] ->
  countRows query conns 0%N (nth_error conns 0) 0%N w
    = (Ret (total, primary), w') ->
  let counts := map (fun c => source_count w c query) conns in
  w' = counted w query conns /\ total = sumN counts /\
  exists p, primary = Some p /\ is_primary conns counts p.
Proof.
  intros Hne Hrun counts.
  destruct (countRows_Ret _ _ _ _ _ _ _ _ _ Hrun) as (Hw & Ht & Hp).
  fold counts in Ht, Hp. split3; [assumption | now rewrite Ht |].
  destruct Hp as [[-> Hall] | (i & m & p & -> & Hi & Hm & Hlt & Hle & Hbefore)].
  - destruct conns as [|c rest]; [congruence|].
    exists c. split; [reflexivity|].
    exists 0, (source_count w c query). simpl.
    split; [reflexivity|]. split; [reflexivity|].
    assert (Hzero : forall j n, nth_error counts j = Some n -> n = 0%N).
    { intros j n Hj. rewrite Forall_forall in Hall.
      apply nth_error_In in Hj. apply Hall in Hj. lia. }
    split.
    + intros j n Hj. rewrite (Hzero j n Hj). lia.
    + intros j n Hj. lia.
  - exists p. split; [reflexivity|]. exists i, m. tauto.
Qed.
End ModelFacts.

Arguments Drained_trans {driver merged w w1 w2 b1 b2 r1 r2 s1 s2} _ _.

Section MergeModelFacts.
Context {driver : Driver}.
Variable model : Model.
Variable schema : Schema.
Variable merged : ConnId.

Lemma sources_Drained (primaryKey : Column) (template : option string)
    (p : ConnId) (T : Z) (w0 : World) :
  isSome template = isSome (model_unique model) ->
  forall conns w,
    ~ In merged conns ->
    (forall c, c <> merged -> dbs w c = dbs w0 c) ->
    connection (inserter w) = merged -> threshold (inserter w) = T ->
    statements (inserter w) = [] -> count (inserter w) = 0%N ->
    fst (forEach (map Some conns)
           (mergeSource model schema merged primaryKey template (Some p)) w)
      = Ret tt ->
    exists runs : list SourceRun,
      map fst runs = conns /\
      Forall (source_run_ok w0 (selectQuery model schema primaryKey) p) runs /\
      Drained merged w
        (snd (forEach (map Some conns)
                (mergeSource model schema merged primaryKey template (Some p))
                w))
        (flat_map (fun run => source_batches T
                                (processed_statements model schema primaryKey
                                   (snd run))) runs)
        (N.of_nat (List.length (processed_rows runs))) conns /\
      Forall (fun run =>
                Forall (tied model merged primaryKey template w
                          (snd (forEach (map Some conns)
                                  (mergeSource model schema merged primaryKey
                                     template (Some p)) w))
                          (Nat.eqb (fst run) p))
                  (snd run)) runs.
Proof.
  intros Htu. induction conns as [|conn rest IH];
    intros w Hnin Hframe Hc HT Hnil Hzero Hret.
  - exists []. simpl. split4; [reflexivity | constructor | | constructor].
    constructor; simpl; try reflexivity; try assumption.
    + now rewrite app_nil_r.
    + lia.
    + now rewrite app_nil_r.
    + exists []. now rewrite app_nil_r.
  - cbn [map forEach] in *. step Hret.
    assert (Hne : conn <> merged).
    { intros ->. apply Hnin. now left. }
    assert (Hs : fst (mergeSource model schema merged primaryKey template
                        (Some p) (Some conn) w) = Ret tt).
    { rewrite Hm. now destruct a. }
    destruct (@mergeSource_Drained driver model schema merged primaryKey
                template Htu (Some p) conn w Hc Hnil Hs)
      as (processed & Hrows & Hok & Hdr & Htied).
    rewrite Hm in Hdr, Htied. simpl in Hdr, Htied. rewrite HT in Hdr.
    assert (Hfirst : reached w w1).
    { apply (tracks_run _ w w1 (Ret a) (tracks_mergeSource model schema merged
                                           primaryKey template (Some p)
                                           (Some conn)) Hm). }
    assert (Hlater : reached w1
                       (snd (forEach (map Some rest)
                               (mergeSource model schema merged primaryKey
                                  template (Some p)) w1))).
    { apply tracks_forEach. intros c. apply tracks_mergeSource. }
    destruct (IH w1) as (runs & Hconns & Hruns & Hdr' & Htied').
    + intros Hin. apply Hnin. now right.
    + intros c Hcm. rewrite (dr_frame Hdr c Hcm). now apply Hframe.
    + now rewrite (dr_connection Hdr).
    + now rewrite (dr_threshold Hdr).
    + apply (dr_pending Hdr).
    + apply (dr_count Hdr).
    + assumption.
    + exists ((conn, processed) :: runs). split4.
      * simpl. now rewrite Hconns.
      * constructor; [|assumption]. split; simpl.
        -- rewrite Hrows. unfold source_rows. now rewrite (Hframe conn Hne).
        -- exact Hok.
      * replace (N.of_nat (List.length (processed_rows ((conn, processed) :: runs))))
          with (N.of_nat (List.length processed)
                + N.of_nat (List.length (processed_rows runs)))%N.
        2:{ unfold processed_rows. simpl. rewrite length_app. lia. }
        apply (Drained_trans Hdr Hdr').
      * constructor.
        -- simpl. eapply Forall_impl; [|exact Htied]. intros ro.
           apply tied_widen; [apply reached_refl | exact Hlater].
        -- eapply Forall_impl; [|exact Htied']. intros run Hrun.
           eapply Forall_impl; [|exact Hrun]. intros ro.
           apply tied_widen; [exact Hfirst | apply reached_refl].
Qed.

Lemma executed_execs (w : World) (c : ConnId) (sql : string) :
  execs c (trace (executed w c sql)) = (execs c (trace w) ++ [sql])%list.
Proof.
  unfold executed. simpl. rewrite execs_app. simpl.
  now rewrite Nat.eqb_refl.
Qed.

Lemma counted_execs (w : World) (c : ConnId) (query : string)
    (conns : list ConnId) :
  execs c (trace (counted w query conns)) = execs c (trace w).
Proof.
  unfold counted. simpl. rewrite execs_app.
  induction conns as [|x rest IH]; simpl; [apply app_nil_r | exact IH].
Qed.

Lemma counted_incs (w : World) (query : string) (conns : list ConnId) :
  incs (trace (counted w query conns)) = incs (trace w).
Proof.
  unfold counted. simpl. rewrite incs_app.
  induction conns as [|x rest IH]; simpl; [apply app_nil_r | exact IH].
Qed.

Lemma counted_eachs (w : World) (query : string) (conns : list ConnId) :
  eachs (trace (counted w query conns)) = eachs (trace w).
Proof.
  unfold counted. simpl. rewrite eachs_app.
  induction conns as [|x rest IH]; simpl; [apply app_nil_r | exact IH].
Qed.

(** A whole run of [mergeModel] that returns. *)
Lemma mergeModel_tied (connections : list ConnId) (minInserts : Z)
    (showProgress : bool) (w : World) :
  ~ In merged connections ->
  fst (mergeModel model schema connections merged minInserts showProgress w)
    = Ret tt ->
  let w' := snd (mergeModel model schema connections merged minInserts
                   showProgress w) in
  exists (pk : Column) (p : ConnId) (template : option string)
         (runs : list SourceRun),
    primaryKey model = Some pk /\
    fst (buildCheckSqlTemplate model pk w) = Ret template /\
    Forall (fun run =>
              Forall (tied model merged pk template w w'
                        (Nat.eqb (fst run) p)) (snd run)) runs /\
    let counts :=
      map (fun c => source_count w c (countQuery model pk)) connections in
    is_primary connections counts p /\
    map fst runs = p :: secondaries connections p /\
    Forall (source_run_ok w (selectQuery model schema pk) p) runs /\
    execs merged (trace w')
      = (execs merged (trace w)
           ++ createTableSql (mapTable model)
           :: map batchSql (model_batches model schema pk minInserts runs)
           ++ [createIndicesSql (mapTable model)])%list /\
    sumN (incs (trace w'))
      = (sumN (incs (trace w))
         + N.of_nat (List.length (processed_rows runs)))%N /\
    eachs (trace w') = (eachs (trace w) ++ map fst runs)%list /\
    (showProgress = true ->
     In (EvProgressCreate (model_name model) (sumN counts)) (trace w')).
Proof.
  intros Hnin Hret w'. unfold w'. clear w'. unfold mergeModel in *.
  (* createInto *)
  step Hret. unfold createInto in Hm. rewrite execOrError_eq in Hm.
  injection Hm as _ Hw0. clear a.
  (* new InsertManager *)
  step Hret. unfold set_inserter in Hm. injection Hm as _ Hw1. clear a.
  (* the primary key *)
  step Hret. rename a into pk.
  destruct (primaryKey model) as [pk'|] eqn:Hpk; [|discriminate].
  unfold unwrapOption, ret in Hm. injection Hm as -> Hw2.
  (* the probe template *)
  step Hret. rename a into template.
  assert (Htemplate : fst (buildCheckSqlTemplate model pk w) = Ret template).
  { rewrite (buildCheckSqlTemplate_any model pk w w2), Hm. reflexivity. }
  assert (R3 : reached w w3).
  { apply (reached_trans _ w0).
    { rewrite <- Hw0. apply reached_executed. }
    apply (reached_trans _ w1).
    { rewrite <- Hw1. apply (tracks_set_inserter _ w0). }
    rewrite Hw2.
    apply (tracks_run _ w2 w3 _ (tracks_buildCheckSqlTemplate model pk) Hm). }
  apply buildCheckSqlTemplate_Ret in Hm as [Hw3 Htu].
  (* the counts *)
  step Hret. destruct a as [totalRows primary].
  assert (Hne : connections <> []).
  { intros ->. simpl in Hm. unfold ret in Hm. injection Hm as _ <- _.
    cbv zeta iota beta in Hret. step Hret. step Hret.
    simpl in Hm0. discriminate. }
  destruct (countRows_primary _ _ _ _ _ _ Hne Hm) as (Hw4 & Htotal & p & -> & Hprim).
  cbv zeta iota beta in Hret |- *.
  (* the reporter *)
  step Hret. destruct a.
  assert (Hw5 : trace w5
                = (trace w4 ++ if showProgress
                               then [EvProgressCreate (model_name model) totalRows]
                               else [])%list
                /\ dbs w5 = dbs w4 /\ inserter w5 = inserter w4).
  { destruct showProgress.
    - unfold emit in Hm0. injection Hm0 as <-. simpl. tauto.
    - unfold ret in Hm0. injection Hm0 as <-. rewrite app_nil_r. tauto. }
  destruct Hw5 as (Htr5 & Hdb5 & Hin5).
  (* the sources *)
  step Hret. destruct a.
  assert (Hframe1 : forall c, c <> merged -> dbs w5 c = dbs w c).
  { intros c Hc. rewrite Hdb5, Hw4. simpl. subst w3 w2 w1 w0. simpl.
    apply Nat.eqb_neq in Hc. now rewrite Hc. }
  assert (Hins5 : inserter w5 = new_InsertManager merged minInserts).
  { rewrite Hin5, Hw4. simpl. subst w3 w2 w1. reflexivity. }
  assert (Hsorted : sortedConnections connections (Some p)
                    = map Some (p :: secondaries connections p)).
  { reflexivity. }
  rewrite Hsorted in Hm1.
  assert (R5 : reached w w5).
  { apply (reached_trans _ _ _ R3). apply (reached_trans _ w4).
    - exact (tracks_run _ w3 w4 _
               (tracks_countRows _ connections _ _ _) Hm).
    - refine (tracks_run _ w4 w5 _ _ Hm0).
      destruct showProgress; [apply tracks_emit; exact I | apply tracks_ret]. }
  destruct (@sources_Drained pk template p minInserts w Htu
              (p :: secondaries connections p) w5)
    as (runs & Hconns & Hruns & Hdr & Htied).
  { intros [-> | Hin].
    - destruct Hprim as (i & m & Hi & _). apply Hnin.
      eapply nth_error_In; eassumption.
    - apply filter_In in Hin. tauto. }
  { assumption. }
  { now rewrite Hins5. }
  { now rewrite Hins5. }
  { now rewrite Hins5. }
  { now rewrite Hins5. }
  { rewrite Hm1. reflexivity. }
  rewrite Hm1 in Hdr, Htied. simpl in Hdr, Htied.
  (* the last flush *)
  rewrite <- bind_assoc in Hret |- *.
  step Hret. destruct a.
  assert (Hc6 : connection (inserter w6) = merged).
  { now rewrite (dr_connection Hdr), Hins5. }
  assert (Hfl : fst ((n <- flush ;; progress_inc n) w6) = Ret tt)
    by exact (f_equal fst Hm2).
  apply (flush_Drained merged w6 Hc6) in Hfl.
  assert (Hw7 : snd ((n <- flush ;; progress_inc n) w6) = w7)
    by exact (f_equal snd Hm2).
  rewrite Hw7, (dr_pending Hdr) in Hfl.
  assert (Hall := Drained_trans Hdr Hfl).
  (* the indices and the end *)
  step Hret. destruct a.
  unfold createIndices in Hm3. rewrite execOrError_eq in Hm3.
  injection Hm3 as _ Hw8.
  unfold progress_finish, emit. simpl.
  exists pk, p, template, runs.
  assert (Hcounts : map (fun c => source_count w3 c (countQuery model pk))
                      connections
                    = map (fun c => source_count w c (countQuery model pk))
                        connections).
  { apply map_ext_in. intros c Hc. unfold source_count.
    subst w3 w2 w1 w0. simpl.
    assert (Hcm : c <> merged) by (intros ->; contradiction).
    apply Nat.eqb_neq in Hcm. now rewrite Hcm. }
  rewrite Hcounts in *.
  split; [reflexivity|]. split; [exact Htemplate|].
  split.
  { assert (R8 : reached w6
                   {| dbs := dbs w8; trace := (trace w8 ++ [EvFinish])%list;
                      uuids := uuids w8; inserter := inserter w8 |}).
    { apply (reached_trans _ w7).
      { exact (tracks_run _ w6 w7 _ tracks_flush_inc Hm2). }
      apply (reached_trans _ w8).
      { rewrite <- Hw8. apply reached_executed. }
      exact (tracks_emit EvFinish I w8). }
    eapply Forall_impl; [|exact Htied]. intros run Hrun.
    eapply Forall_impl; [|exact Hrun]. intros ro.
    apply tied_widen; [exact R5 | exact R8]. }
  split; [assumption|]. split; [assumption|].
  split; [assumption|].
  assert (Hex5 : execs merged (trace w5)
                 = (execs merged (trace w)
                      ++ [createTableSql (mapTable model)])%list).
  { rewrite Htr5, execs_app, Hw4, counted_execs.
    subst w3 w2 w1 w0. simpl trace.
    change (trace w ++ [EvExec merged (createTableSql (mapTable model))])%list
      with (trace (executed w merged (createTableSql (mapTable model)))).
    rewrite executed_execs.
    destruct showProgress; simpl; now rewrite app_nil_r. }
  assert (Hinc5 : incs (trace w5) = incs (trace w)).
  { rewrite Htr5, incs_app, Hw4, counted_incs.
    subst w3 w2 w1 w0. simpl trace. rewrite incs_app. simpl.
    destruct showProgress; simpl; now rewrite !app_nil_r. }
  assert (Heach5 : eachs (trace w5) = eachs (trace w)).
  { rewrite Htr5, eachs_app, Hw4, counted_eachs.
    subst w3 w2 w1 w0. simpl trace. rewrite eachs_app. simpl.
    destruct showProgress; simpl; now rewrite !app_nil_r. }
  split; [|split; [|split]].
  - rewrite execs_app, app_nil_r, <- Hw8, executed_execs.
    rewrite (dr_execs Hall), Hex5. unfold model_batches.
    rewrite <- !app_assoc. reflexivity.
  - rewrite incs_app, sumN_app. simpl. rewrite <- Hw8. unfold executed.
    simpl. rewrite incs_app, sumN_app. simpl.
    rewrite (dr_progress Hall), Hinc5, Hins5. simpl. lia.
  - rewrite eachs_app, app_nil_r, <- Hw8. unfold executed. simpl.
    rewrite eachs_app, app_nil_r. rewrite (dr_eachs Hall), Heach5, Hconns.
    now rewrite app_nil_r.
  - intros ->. apply in_or_app. left. rewrite <- Hw8. unfold executed.
    simpl. apply in_or_app. left.
    destruct (dr_extends Hall) as [evs ->]. apply in_or_app. left.
    rewrite Htr5, Htotal. apply in_or_app. right. now left.
Qed.

Lemma mergeModel_run (connections : list ConnId) (minInserts : Z)
    (showProgress : bool) (w : World) :
  ~ In merged connections ->
  fst (mergeModel model schema connections merged minInserts showProgress w)
    = Ret tt ->
  let w' := snd (mergeModel model schema connections merged minInserts
                   showProgress w) in
  exists (pk : Column) (p : ConnId) (runs : list SourceRun),
    primaryKey model = Some pk /\
    let counts :=
      map (fun c => source_count w c (countQuery model pk)) connections in
    is_primary connections counts p /\
    map fst runs = p :: secondaries connections p /\
    Forall (source_run_ok w (selectQuery model schema pk) p) runs /\
    execs merged (trace w')
      = (execs merged (trace w)
           ++ createTableSql (mapTable model)
           :: map batchSql (model_batches model schema pk minInserts runs)
           ++ [createIndicesSql (mapTable model)])%list /\
    sumN (incs (trace w'))
      = (sumN (incs (trace w))
         + N.of_nat (List.length (processed_rows runs)))%N /\
    eachs (trace w') = (eachs (trace w) ++ map fst runs)%list /\
    (showProgress = true ->
     In (EvProgressCreate (model_name model) (sumN counts)) (trace w')).
Proof.
  intros Hnin Hret.
  destruct (mergeModel_tied connections minInserts showProgress w Hnin Hret)
    as (pk & p & template & runs & Hpk & _ & _ & Hrest).
  exists pk, p, runs. split; [exact Hpk | exact Hrest].
Qed.
End MergeModelFacts.

(** ** The per-model merge driver *)

Section MergeModelClaims.
Context {driver : Driver}.




End MergeModelClaims.



(** ** The per-row step *)

Section RowClaims.
Context {driver : Driver}.
Variable model : Model.
Variable schema : Schema.
Variable merged : ConnId.
Variable primaryKey : Column.

Lemma Run_submits {w w' : World} {stmts : list string} {rows : N} :
  Run merged w w' stmts rows -> submits merged w w' stmts.
Proof.
  intros H.
  exists (fst (feed (threshold (inserter w)) (statements (inserter w)) stmts)).
  split; [apply (run_execs H)|].
  rewrite (run_pending H). apply feed_concat.
Qed.

Lemma plain_bind {A B} {m : M A} {k : A -> M B} :
  plain merged m -> (forall a, plain merged (k a)) -> plain merged (bind m k).
Proof.
  intros Hm Hk w. unfold bind. destruct (Hm w) as [Hg Hu].
  destruct (m w) as [[a | e] w1]; simpl in *.
  - destruct (Hk a w1) as [Hg' Hu']. split; congruence.
  - now split.
Qed.

Lemma plain_committed (w : World) :
  gets merged (trace (snd (committed w))) = gets merged (trace w)
  /\ uuids (snd (committed w)) = uuids w.
Proof.
  unfold committed. simpl. rewrite gets_app. simpl.
  now rewrite app_nil_r.
Qed.

Lemma plain_insert (s : string) : plain merged (insert s).
Proof.
  intros w. rewrite insert_eq. cbv zeta.
  destruct (Z.geb _ _);
    [exact (plain_committed (with_inserter w _)) | now split].
Qed.

Lemma plain_insertSupporting (s : string) : plain merged (insertSupporting s).
Proof.
  intros w. rewrite insertSupporting_eq. cbv zeta.
  destruct (Z.geb _ _);
    [exact (plain_committed (with_inserter w _)) | now split].
Qed.

Lemma plain_progress_inc (n : N) : plain merged (progress_inc n).
Proof.
  intros w. unfold progress_inc, emit. simpl. rewrite gets_app. simpl.
  now rewrite app_nil_r.
Qed.

Lemma plain_pushes (s : string) (op : string -> M N) :
  plain merged (op s) -> plain merged (n <- op s ;; progress_inc n).
Proof.
  intros H. apply plain_bind; [exact H | apply plain_progress_inc].
Qed.

Lemma plain_inserts (newPk : string) (row : Row) :
  plain merged (n <- insert (insert_sql model schema primaryKey row newPk) ;;
         progress_inc n ;;
         n <- insertSupporting (idMapInsert model (oldPk row) newPk) ;;
         progress_inc n).
Proof.
  apply plain_bind; [apply plain_insert|]. intros n.
  apply plain_bind; [apply plain_progress_inc|]. intros _.
  apply plain_bind; [apply plain_insertSupporting|]. intros n'.
  apply plain_progress_inc.
Qed.



Lemma afterCheck_gets (isPrimary : bool) (row : Row)
    (existingPk : option (option string)) (w : World) :
  gets merged (trace (snd (afterCheck model schema primaryKey isPrimary row
                             existingPk w)))
  = gets merged (trace w).
Proof.
  destruct existingPk as [existingId|]; cbn [afterCheck].
  - apply (plain_pushes _ insert (plain_insert _)).
  - unfold bind at 1. destruct isPrimary.
    + unfold ret at 1. apply (plain_inserts (oldPk row) row).
    + unfold crypto_randomUUID at 1.
      apply (plain_inserts (randomUUID (uuids w)) row
               {| dbs := dbs w; trace := trace w;
                  uuids := S (uuids w); inserter := inserter w |}).
Qed.

(** C5. The probe is sent for a row exactly when its source is a secondary
  and the model has a unique constraint.  When it finds a row, the key of
  that row becomes the existing key, and all the callback then does is to
  hand one statement to [insert], the operation that counts progress: the
  insert into the model's identity map of the old key of the row with the
  existing key, which the probe returned quoted.  No insert into the
  model's table is made. *)
Theorem probe_only_for_secondary_with_unique (template : option string)
    (isPrimary : bool) (row : Row) (w0 w : World) :
  fst (buildCheckSqlTemplate model primaryKey w0) = Ret template ->
  let run := mergeRow model schema merged primaryKey template isPrimary
               (Ok row) w in
  gets merged (trace (snd run))
    = (gets merged (trace w)
         ++ probe_queries model template isPrimary row)%list /\
  List.length (probe_queries model template isPrimary row)
    = (if negb isPrimary && isSome (model_unique model) then 1 else 0) /\
  forall t existingRow,
    isPrimary = false -> template = Some t ->
    db_get_row (dbs w merged) (probeSql model t row) = Ok (Some existingRow) ->
    let existingId := text (field existingRow (col_name primaryKey)) in
    let entry :=
      "INSERT INTO " ++ dq ++ (model_name model ++ "_id_map") ++ dq
        ++ " (old_id, new_id) VALUES ('" ++ oldPk row ++ "', " ++ existingId
        ++ ")" in
    run = (n <- insert entry ;; progress_inc n)
            (asked w merged (probeSql model t row)) /\
    (connection (inserter w) = merged -> fst run = Ret tt ->
     submits merged w (snd run) [entry]).
Proof.
  intros Htemplate run. unfold run.
  assert (Hu := buildCheckSqlTemplate_isSome model primaryKey w0 template
                  Htemplate).
  split; [|split].
  - rewrite mergeRow_Ok. unfold bind at 1.
    rewrite (existenceCheck_eq _ _ _ _ _ _ w Hu), afterCheck_gets.
    unfold probe_queries. destruct (probed template isPrimary).
    + destruct template as [t|].
      * unfold asked. simpl. rewrite gets_app. simpl.
        now rewrite Nat.eqb_refl.
      * now rewrite app_nil_r.
    + now rewrite app_nil_r.
  - unfold probe_queries, probed. rewrite <- Hu.
    destruct isPrimary; [reflexivity|]. now destruct template.
  - intros t existingRow -> -> Hget. cbv zeta.
    rewrite <- idMapInsertExisting_text.
    assert (Hfound : found w model merged primaryKey (Some t) false row
                     = Some (field existingRow (col_name primaryKey))).
    { unfold found. now rewrite Hget. }
    split.
    + rewrite mergeRow_Ok. unfold bind at 1.
      rewrite (existenceCheck_eq _ _ _ _ _ _ w Hu), Hfound. reflexivity.
    + intros Hc Hret.
      assert (Hrun := mergeRow_Run model schema merged primaryKey (Some t)
                        false row w Hu Hc Hret).
      unfold row_outcome in Hrun. rewrite Hfound in Hrun.
      exact (Run_submits Hrun).
Qed.

(** C8 (as the code has it). A read error delivered in place of a row is
  passed over: the callback returns at once and changes nothing, so the
  merge goes on and the row is missing from the destination.  What is
  fatal is the failure of the stream as a whole: when [Database.each]
  rejects, the error is thrown out of the loop over the sources. *)
Theorem row_read_error_skipped (template : option string)
    (primary : option ConnId) (conn : ConnId) (w : World) (e : Error) :
  snd (db_each (dbs w conn) (selectQuery model schema primaryKey)) = Err e ->
  fst (mergeSource model schema merged primaryKey template primary
         (Some conn) w) = Throw (DriverError e) /\
  forall (isPrimary : bool) (e' : Error) (w0 : World),
    mergeRow model schema merged primaryKey template isPrimary (Err e') w0
    = (Ret tt, w0).
Proof.
  intros He. split; [|reflexivity].
  unfold mergeSource, bind, each.
  destruct (db_each (dbs w conn) (selectQuery model schema primaryKey))
    as [results completion]. simpl in He. subst completion. simpl.
  now destruct (each_rows _ results _).
Qed.
End RowClaims.

(** ** The integrity check *)

Section IntegrityClaims.
Context {driver : Driver}.

(** C10. When the query of the foreign-key check fails, [verifyIntegrity]
  returns [Ok] and the loop of [merge] prints nothing for the table: the
  result and the calls made are those of a check that counted no
  violation. *)
Theorem integrity_check_error_reads_clean (model : Model) (merged : ConnId)
    (w : World) (e : Error) :
  db_get_count (dbs w merged) (integrityQuery model) = Err e ->
  fst (verifyIntegrity model merged w) = Ret (Ok tt) /\
  fst (reportIntegrity merged model w) = Ret tt /\
  logs (trace (snd (reportIntegrity merged model w))) = logs (trace w) /\
  forall w0 : World,
    db_get_count (dbs w0 merged) (integrityQuery model) = Ok (Some 0%N) ->
    trace w0 = trace w ->
    fst (verifyIntegrity model merged w0) = fst (verifyIntegrity model merged w)
    /\ fst (reportIntegrity merged model w0) = fst (reportIntegrity merged model w)
    /\ trace (snd (reportIntegrity merged model w0))
       = trace (snd (reportIntegrity merged model w)).
Proof.
  intros He.
  assert (Hv : verifyIntegrity model merged w
               = (Ret (Ok tt), asked w merged (integrityQuery model))).
  { unfold verifyIntegrity, bind, get_count, emit, ret. simpl.
    rewrite He. reflexivity. }
  assert (Hr : reportIntegrity merged model w
               = (Ret tt, asked w merged (integrityQuery model))).
  { unfold reportIntegrity, bind. rewrite Hv. reflexivity. }
  rewrite Hv, Hr. simpl. split; [reflexivity|]. split; [reflexivity|].
  split.
  - rewrite logs_app. simpl. now rewrite app_nil_r.
  - intros w0 H0 Htr.
    assert (Hv0 : verifyIntegrity model merged w0
                  = (Ret (Ok tt), asked w0 merged (integrityQuery model))).
    { unfold verifyIntegrity, bind, get_count, emit, ret. simpl.
      rewrite H0. reflexivity. }
    unfold reportIntegrity, bind. rewrite Hv0. simpl.
    now rewrite Htr.
Qed.
End IntegrityClaims.

(** ** The properties on the scenarios of the test suite *)



Lemma probe_only_for_secondary_with_unique_witness :
  fst (buildCheckSqlTemplate (driver := MockDriver) Owner idColumn
         duplicateWorld) = Ret (Some ownerTemplate) /\
  gets 0 (trace (snd (mergeRow (driver := MockDriver) Owner testSchema 0
                        idColumn (Some ownerTemplate) false
                        (Ok (ownerRow "b" "Woody")) duplicateWorld)))
  = probe_queries (driver := MockDriver) Owner (Some ownerTemplate) false
      (ownerRow "b" "Woody").
Proof.
  assert (H1 : fst (buildCheckSqlTemplate (driver := MockDriver) Owner idColumn
                      duplicateWorld) = Ret (Some ownerTemplate))
    by reflexivity.
  split; [exact H1|].
  destruct (probe_only_for_secondary_with_unique (driver := MockDriver)
              Owner testSchema 0 idColumn (Some ownerTemplate) false
              (ownerRow "b" "Woody") duplicateWorld duplicateWorld H1)
    as (Hg & _).
  exact Hg.
Defined.

Lemma row_read_error_skipped_witness :
  snd (db_each (Driver := MockDriver) (dbs rejectingWorld 1)
         (selectQuery Owner testSchema idColumn))
    = Err "database disk image is malformed" /\
  fst (mergeSource (driver := MockDriver) Owner testSchema 0 idColumn
         (Some ownerTemplate) (Some 1) (Some 1) rejectingWorld)
    = Throw (DriverError "database disk image is malformed").
Proof.
  assert (H1 : snd (db_each (Driver := MockDriver) (dbs rejectingWorld 1)
                      (selectQuery Owner testSchema idColumn))
               = Err "database disk image is malformed") by reflexivity.
  split; [exact H1|].
  exact (proj1 (row_read_error_skipped (driver := MockDriver) Owner testSchema
                  0 idColumn (Some ownerTemplate) (Some 1) 1 rejectingWorld
                  _ H1)).
Defined.

Lemma integrity_check_error_reads_clean_witness :
  db_get_count (Driver := MockDriver) (dbs uncheckedWorld 0)
    (integrityQuery TodoList)
    = Err "no such table: pragma_foreign_key_check" /\
  db_get_count (Driver := MockDriver) (dbs cleanWorld 0)
    (integrityQuery TodoList) = Ok (Some 0%N) /\
  trace cleanWorld = trace uncheckedWorld /\
  fst (verifyIntegrity (driver := MockDriver) TodoList 0 uncheckedWorld)
    = Ret (Ok tt) /\
  trace (snd (reportIntegrity (driver := MockDriver) 0 TodoList cleanWorld))
    = trace (snd (reportIntegrity (driver := MockDriver) 0 TodoList
                    uncheckedWorld)).
Proof.
  assert (H1 : db_get_count (Driver := MockDriver) (dbs uncheckedWorld 0)
                 (integrityQuery TodoList)
               = Err "no such table: pragma_foreign_key_check")
    by reflexivity.
  assert (H2 : db_get_count (Driver := MockDriver) (dbs cleanWorld 0)
                 (integrityQuery TodoList) = Ok (Some 0%N)) by reflexivity.
  assert (H3 : trace cleanWorld = trace uncheckedWorld) by reflexivity.
  repeat (split; [assumption|]).
  destruct (integrity_check_error_reads_clean (driver := MockDriver) TodoList 0
              uncheckedWorld "no such table: pragma_foreign_key_check" H1)
    as (Hv & _ & _ & Hsame).
  split; [exact Hv|].
  destruct (Hsame cleanWorld H2 H3) as (_ & _ & Ht). exact Ht.
Defined.

(** ** The batch boundary *)

Lemma feed_sizes (T : Z) (stmts : list string) :
  forall pending,
    map (@List.length string) (fst (feed T pending stmts))
      = fst (feedN T (List.length pending) (List.length stmts)) /\
    List.length (snd (feed T pending stmts))
      = snd (feedN T (List.length pending) (List.length stmts)).
Proof.
  induction stmts as [|s rest IH]; intros pending; simpl.
  - now split.
  - rewrite length_app. simpl.
    destruct (Z.geb (Z.of_nat (List.length pending + 1)) T).
    + destruct (IH []) as [H1 H2]. simpl in H1, H2.
      destruct (feed T [] rest) as [b p].
      destruct (feedN T 0 (List.length rest)) as [sizes left]. simpl in *.
      rewrite length_app. simpl. split; congruence.
    + destruct (IH (pending ++ [s])%list) as [H1 H2].
      rewrite length_app in H1, H2. simpl in H1, H2. now split.
Qed.

Section BatchBoundary.
Context {driver : Driver}.

Lemma inserted_statements_length (model : Model) (schema : Schema)
    (pk : Column) (processed : list (Row * RowOutcome)) :
  Forall (fun ro => outcome_ok true (fst ro) (snd ro)) processed ->
  List.length (processed_statements model schema pk processed)
  = 2 * List.length processed.
Proof.
  induction 1 as [|[row o] rest Ho _ IH]; [reflexivity|].
  unfold processed_statements in *. simpl. rewrite length_app, IH.
  destruct o as [existing | newPk]; simpl in *; [discriminate | lia].
Qed.

(** C7 (as the code has it). With threshold 3 and one source of 10 rows, a
  run of the merge driver that returns commits 8 batches: each row hands
  over two statements, the insert and its identity-map entry, and the
  threshold counts both, so that 6 batches of 3 statements leave during
  the stream, the flush after the stream commits the last 2 and the final
  flush commits an empty batch.  The progress reported adds up to 10. *)
Theorem batch_boundary_ten_rows (model : Model) (schema : Schema)
    (pk : Column) (conn merged : ConnId) (showProgress : bool) (w : World) :
  conn <> merged ->
  primaryKey model = Some pk ->
  List.length (source_rows w conn (selectQuery model schema pk)) = 10 ->
  fst (mergeModel model schema [conn] merged 3 showProgress w) = Ret tt ->
  let w' := snd (mergeModel model schema [conn] merged 3 showProgress w) in
  exists batches : list (list string),
    execs merged (trace w')
      = (execs merged (trace w)
           ++ createTableSql (mapTable model)
           :: map batchSql batches
           ++ [createIndicesSql (mapTable model)])%list /\
    map (@List.length string) batches = [3; 3; 3; 3; 3; 3; 2; 0] /\
    sumN (incs (trace w')) = (sumN (incs (trace w)) + 10)%N.
Proof.
  intros Hne Hpk Hlen Hret w'.
  assert (Hnin : ~ In merged [conn]).
  { intros [H | []]. now apply Hne. }
  destruct (mergeModel_run model schema merged [conn] 3 showProgress w
              Hnin Hret)
    as (pk' & p & runs & Hpk' & Hprim & Hconns & Hruns & Hexecs & Hincs & _).
  assert (pk' = pk) by congruence. subst pk'.
  assert (p = conn).
  { destruct Hprim as (i & m & Hi & _). apply nth_error_In in Hi.
    destruct Hi as [H | []]. now symmetry. }
  subst p.
  assert (Hsec : secondaries [conn] conn = []).
  { unfold secondaries. simpl. now rewrite Nat.eqb_refl. }
  rewrite Hsec in Hconns.
  destruct runs as [|[c processed] [|run2 runs]]; try discriminate.
  simpl in Hconns. injection Hconns as ->.
  inversion Hruns as [|? ? [Hrows Hok] _]; subst. simpl in Hrows, Hok.
  rewrite Nat.eqb_refl in Hok.
  assert (Hp : List.length processed = 10).
  { rewrite <- Hlen, <- Hrows. now rewrite length_map. }
  exists (model_batches model schema pk 3 [(conn, processed)]).
  split; [exact Hexecs|]. split.
  - unfold model_batches, source_batches. simpl. rewrite app_nil_r.
    rewrite !map_app. simpl.
    destruct (feed_sizes 3 (processed_statements model schema pk processed) [])
      as [H1 H2].
    rewrite H1, H2, (inserted_statements_length model schema pk _ Hok), Hp.
    reflexivity.
  - unfold w'. rewrite Hincs. unfold processed_rows. simpl.
    rewrite app_nil_r, Hp. reflexivity.
Qed.
End BatchBoundary.

Lemma batch_boundary_ten_rows_witness :
  1 <> 0 /\
  primaryKey Owner = Some idColumn /\
  List.length (source_rows (driver := MockDriver) tenWorld 1
                 (selectQuery Owner testSchema idColumn)) = 10 /\
  fst (mergeModel (driver := MockDriver) Owner testSchema [1] 0 3 false tenWorld)
    = Ret tt /\
  sumN (incs (trace (snd (mergeModel (driver := MockDriver) Owner testSchema
                            [1] 0 3 false tenWorld)))) = 10%N.
Proof.
  assert (H1 : 1 <> 0) by discriminate.
  assert (H2 : primaryKey Owner = Some idColumn) by reflexivity.
  assert (H3 : List.length (source_rows (driver := MockDriver) tenWorld 1
                              (selectQuery Owner testSchema idColumn)) = 10)
    by reflexivity.
  assert (H4 : fst (mergeModel (driver := MockDriver) Owner testSchema [1] 0 3
                      false tenWorld) = Ret tt)
    by (vm_compute; reflexivity).
  repeat (split; [assumption|]).
  destruct (batch_boundary_ten_rows (driver := MockDriver) Owner testSchema
              idColumn 1 0 false tenWorld H1 H2 H3 H4)
    as (batches & _ & _ & Hsum).
  exact Hsum.
Defined.

(** The batch-boundary scenario as the design words it (4 commits of 3, 3, 3
    and 1 rows) is not what the engine does: on ten rows it commits 8
    batches, of 3, 3, 3, 3, 3, 3, 2 and 0 statements. *)
Lemma batch_boundary_counterexample :
  let w' := snd (mergeModel (driver := MockDriver) Owner testSchema [1] 0 3
                   false tenWorld) in
  let batches :=
    model_batches Owner testSchema idColumn 3
      [(1, map (fun row => (row, Inserted (oldPk row))) tenOwners)] in
  fst (mergeModel (driver := MockDriver) Owner testSchema [1] 0 3 false tenWorld)
    = Ret tt /\
  execs 0 (trace w')
    = (createTableSql (mapTable Owner) :: map batchSql batches
         ++ [createIndicesSql (mapTable Owner)])%list /\
  map (@List.length string) batches = [3; 3; 3; 3; 3; 3; 2; 0] /\
  List.length batches <> 4 /\
  incs (trace w')
    = [0; 0; 2; 0; 0; 1; 0; 0; 2; 0; 0; 1; 0; 0; 2; 0; 0; 1; 0; 0; 1; 0]%N.
Proof.
  cbv zeta. split; [vm_compute; reflexivity|].
  split; [vm_compute; reflexivity|].
  split; [vm_compute; reflexivity|].
  split; [vm_compute; discriminate | vm_compute; reflexivity].
Qed.

(** A read error in the middle of a stream does not abort the merge: the
    run returns, and of the three rows of the source the two that were read
    are committed. *)
Lemma row_read_error_counterexample :
  let run := mergeModel (driver := MockDriver) Owner testSchema [1] 0 1000
               false brokenWorld in
  fst (db_each (Driver := MockDriver) (dbs brokenWorld 1)
         (selectQuery Owner testSchema idColumn))
    = [Ok (ownerRow "w" "Woody"); Err "disk I/O error"; Ok (ownerRow "b" "Bo")]
  /\ fst run = Ret tt
  /\ execs 0 (trace (snd run))
     = [createTableSql (mapTable Owner);
        batchSql
          [insert_sql Owner testSchema idColumn (ownerRow "w" "Woody") "w";
           idMapInsert Owner "w" "w";
           insert_sql Owner testSchema idColumn (ownerRow "b" "Bo") "b";
           idMapInsert Owner "b" "b"];
        batchSql [];
        createIndicesSql (mapTable Owner)].
Proof.
  cbv zeta. split; [reflexivity|].
  split; vm_compute; reflexivity.
Qed.

(** ** The order of the merges *)

Section Scheduling.
Context {driver : Driver}.

Lemma forEach_cons {A} (x : A) (l : list A) (body : A -> M unit) (w : World) :
  fst (forEach (x :: l) body w) = Ret tt ->
  exists w1, body x w = (Ret tt, w1)
             /\ forEach (x :: l) body w = forEach l body w1.
Proof.
  cbn [forEach]. intros H.
  destruct (bind_inv _ _ H) as ([] & w1 & Hm & Hk). now exists w1.
Qed.


End Scheduling.






(** * Further properties *)

(** ** The schema objects ([data.ts]) *)

Lemma primaryKeyIndex_from_spec (cols : list Column) :
  forall (k : nat) (acc : option nat),
    match primaryKeyIndex_from k cols acc with
    | Some i =>
        (acc = Some i /\ forallb (fun c => negb (primary_key c)) cols = true)
        \/ exists l1 c l2,
             i = k + List.length l1 /\ cols = (l1 ++ c :: l2)%list /\
             primary_key c = true /\
             forallb (fun c => negb (primary_key c)) l2 = true
    | None => acc = None /\ forallb (fun c => negb (primary_key c)) cols = true
    end.
Proof.
  induction cols as [|c cols IH]; intros k acc; simpl.
  - destruct acc; [left|]; split; reflexivity.
  - specialize (IH (S k) (if primary_key c then Some k else acc)).
    destruct (primaryKeyIndex_from (S k) cols _) as [i|].
    + destruct IH as [[Hacc Hall] | (l1 & c' & l2 & -> & -> & Hc' & Hall)].
      * destruct (primary_key c) eqn:Hc.
        -- injection Hacc as <-. right. exists [], c, cols. simpl.
           split4; try assumption; try reflexivity. lia.
        -- left. now split.
      * right. exists (c :: l1), c', l2. simpl.
        split4; try assumption; try reflexivity. lia.
    + destruct IH as [Hacc Hall].
      destruct (primary_key c); [discriminate|]. now split.
Qed.

(** X1. The primary key of a model is the last of its columns flagged as
    primary key; a model has none exactly when no column is flagged. *)
Theorem primaryKey_last_flagged (m : Model) :
  match primaryKey m with
  | Some c =>
      exists l1 l2,
        columns m = (l1 ++ c :: l2)%list /\ primary_key c = true /\
        forallb (fun c => negb (primary_key c)) l2 = true
  | None => forallb (fun c => negb (primary_key c)) (columns m) = true
  end.
Proof.
  unfold primaryKey, primaryKeyIndex.
  assert (H := primaryKeyIndex_from_spec (columns m) 0 None).
  destruct (primaryKeyIndex_from 0 (columns m) None) as [i|].
  - destruct H as [[H _] | (l1 & c & l2 & -> & Hcols & Hc & Hall)];
      [discriminate|].
    rewrite Hcols. simpl. rewrite nth_error_app2 by lia.
    rewrite Nat.sub_diag. simpl. now exists l1, l2.
  - apply H.
Qed.

(** ** The schema read from Prisma ([prisma.ts]) *)

Lemma Map_get_set {V} (entries : list (string * V)) (key key' : string)
    (value : V) :
  Map_get (Map_set entries key value) key'
  = if String.eqb key key' then Some value else Map_get entries key'.
Proof.
  unfold Map_get. induction entries as [|[k v] rest IH]; simpl.
  - destruct (String.eqb key key'); reflexivity.
  - destruct (String.eqb k key) eqn:Hk; simpl.
    + apply String.eqb_eq in Hk. subst k.
      destruct (String.eqb key key'); reflexivity.
    + destruct (String.eqb k key') eqn:Hk'; simpl.
      * apply String.eqb_eq in Hk'. subst k. now rewrite String.eqb_sym, Hk.
      * exact IH.
Qed.

Lemma Map_set_keys {V} (entries : list (string * V)) (key : string)
    (value : V) :
  map fst (Map_set entries key value)
  = if includes (map fst entries) key then map fst entries
    else (map fst entries ++ [key])%list.
Proof.
  unfold includes. induction entries as [|[k v] rest IH]; simpl; [reflexivity|].
  rewrite (String.eqb_sym key k).
  destruct (String.eqb k key) eqn:Hk; simpl; [reflexivity|].
  rewrite IH. now destruct (existsb (String.eqb key) (map fst rest)).
Qed.

Lemma Map_set_In {V} (entries : list (string * V)) (key : string) (value : V)
    (e : string * V) :
  In e (Map_set entries key value) -> In e entries \/ e = (key, value).
Proof.
  induction entries as [|[k v] rest IH]; simpl.
  - intros [<- | []]. now right.
  - destruct (String.eqb k key) eqn:Hk; simpl.
    + apply String.eqb_eq in Hk. subst k. intros [<- | H]; tauto.
    + intros [<- | H]; [tauto|]. apply IH in H. tauto.
Qed.

Lemma schema_wf_set (entries : list (string * Model)) (m : Model) :
  schema_wf {| models := entries |} ->
  schema_wf {| models := Map_set entries (model_name m) m |}.
Proof.
  unfold schema_wf. simpl. intros [Hnd Hnames]. split.
  - rewrite Map_set_keys.
    destruct (includes (map fst entries) (model_name m)) eqn:Hin;
      [assumption|].
    apply NoDup_Add with (a := model_name m) (l := map fst entries).
    + rewrite <- (app_nil_r (map fst entries)) at 1. apply Add_app.
    + split; [assumption|]. intros H. apply includes_In in H. congruence.
  - apply Forall_forall. intros e He. apply Map_set_In in He as [He | ->].
    + rewrite Forall_forall in Hnames. now apply Hnames.
    + reflexivity.
Qed.

Lemma fold_Map_set_wf (datamodel : list DMMF_Model) :
  forall entries,
    schema_wf {| models := entries |} ->
    schema_wf {| models :=
                   fold_left
                     (fun entries model =>
                        Map_set entries (dmmf_name model) (handleModel model))
                     datamodel entries |}.
Proof.
  induction datamodel as [|m dm IH]; intros entries H; simpl; [assumption|].
  apply IH. exact (schema_wf_set entries (handleModel m) H).
Qed.

(** X2. The [Map] that [getSchema] fills is well formed whatever the data
    model: its keys are pairwise distinct and each is the name of the model
    it leads to. *)
Theorem getSchema_well_formed (datamodel : list DMMF_Model) :
  schema_wf (getSchema datamodel).
Proof.
  unfold getSchema. apply fold_Map_set_wf.
  split; [constructor | constructor].
Qed.

Lemma find_app_first {A} (f : A -> bool) (l1 l2 : list A) :
  find f (l1 ++ l2)
  = match find f l1 with Some x => Some x | None => find f l2 end.
Proof.
  induction l1 as [|x l1 IH]; simpl; [reflexivity|].
  now destruct (f x).
Qed.

Lemma getSchema_get (datamodel : list DMMF_Model) (name : string) :
  Map_get (models (getSchema datamodel)) name
  = option_map handleModel
      (find (fun model => String.eqb (dmmf_name model) name) (rev datamodel)).
Proof.
  unfold getSchema. simpl.
  assert (G : forall dm entries,
             Map_get (fold_left
                        (fun entries model =>
                           Map_set entries (dmmf_name model) (handleModel model))
                        dm entries) name
             = match find (fun model => String.eqb (dmmf_name model) name)
                       (rev dm) with
               | Some model => Some (handleModel model)
               | None => Map_get entries name
               end).
  { induction dm as [|m dm IH]; intros entries; simpl; [reflexivity|].
    rewrite IH, find_app_first.
    destruct (find _ (rev dm)); [reflexivity|]. simpl.
    rewrite Map_get_set. now destruct (String.eqb (dmmf_name m) name). }
  rewrite G. now destruct (find _ (rev datamodel)).
Qed.

(** X3. Looking a name up in the schema of [getSchema] gives the model built
    from the last model of that name in the data model, and nothing when no
    model has the name; a data model whose names are pairwise distinct is
    listed in its own order. *)
Theorem getSchema_lookup (datamodel : list DMMF_Model) (name : string) :
  Map_get (models (getSchema datamodel)) name
  = option_map handleModel
      (find (fun model => String.eqb (dmmf_name model) name) (rev datamodel))
  /\ (NoDup (map dmmf_name datamodel) ->
      Map_values (models (getSchema datamodel)) = map handleModel datamodel).
Proof.
  split; [apply getSchema_get|].
  unfold getSchema, Map_values. simpl.
  assert (G : forall dm entries,
             NoDup (map fst entries ++ map dmmf_name dm) ->
             fold_left
               (fun entries model =>
                  Map_set entries (dmmf_name model) (handleModel model))
               dm entries
             = (entries
                  ++ map (fun model => (dmmf_name model, handleModel model)) dm)
               %list).
  { induction dm as [|m dm IH]; intros entries Hnd; simpl.
    - now rewrite app_nil_r.
    - assert (Hfresh : Map_set entries (dmmf_name m) (handleModel m)
                       = (entries ++ [(dmmf_name m, handleModel m)])%list).
      { simpl in Hnd. apply NoDup_remove_2 in Hnd.
        assert (Hn : ~ In (dmmf_name m) (map fst entries)).
        { intros H. apply Hnd. apply in_app_iff. now left. }
        clear - Hn. induction entries as [|[k v] rest IH]; simpl; [reflexivity|].
        destruct (String.eqb k (dmmf_name m)) eqn:Hk.
        - apply String.eqb_eq in Hk. exfalso. apply Hn. now left.
        - f_equal. apply IH. intros H. apply Hn. now right. }
      rewrite Hfresh, IH.
      + now rewrite <- app_assoc.
      + rewrite map_app. simpl. rewrite <- app_assoc. exact Hnd. }
  intros Hnd. rewrite G by exact Hnd. simpl. rewrite map_map. reflexivity.
Qed.

Lemma find_isSome_existsb {A} (f : A -> bool) (l : list A) :
  isSome (find f l) = existsb f l.
Proof.
  induction l as [|x l IH]; simpl; [reflexivity|].
  now destruct (f x).
Qed.

(** X4. In the schema of [getSchema] a column is regular exactly when its
    field is no id, no list, carries no relation of its own and has a type
    that names no model of the data model: a field whose type is a model,
    on either side of a relation, is never copied as data. *)
Theorem isRegular_getSchema (datamodel : list DMMF_Model) (f : DMMF_Field) :
  isRegular (handleColumn f) (getSchema datamodel)
  = negb (isId f) && negb (isList f)
    && negb (isSome (relationFromColumn f))
    && negb (existsb (fun model => String.eqb (dmmf_name model) (field_type f))
               datamodel).
Proof.
  unfold isRegular, Map_has, hasRelation. rewrite getSchema_get. simpl.
  do 2 f_equal.
  destruct (find _ (rev datamodel)) as [m|] eqn:Hf; simpl.
  - apply find_some in Hf as [Hin Hm]. symmetry. apply existsb_exists.
    exists m. split; [now apply in_rev | assumption].
  - symmetry. apply not_true_is_false. intros H.
    apply existsb_exists in H as (m & Hin & Hm).
    apply in_rev in Hin. now rewrite (find_none _ _ Hf m Hin) in Hm.
Qed.

(** ** The statements built for a model ([merge.ts]) *)

Section StatementFacts.
Context {driver : Driver}.
Variable model : Model.
Variable schema : Schema.

Lemma checkClauses_shape (names : list string) :
  forall idx checkJoins checkWheres (w : World),
    if uniqueResolves model names
    then exists joins wheres,
           fst (checkClauses model names idx checkJoins checkWheres w)
           = Ret ((checkJoins ++ joins)%list, (checkWheres ++ wheres)%list)
           /\ List.length wheres = List.length names
           /\ List.length joins
              = List.length (uniqueForeignKeys model names)
    else fst (checkClauses model names idx checkJoins checkWheres w)
         = Throw UnwrapNone.
Proof.
  induction names as [|name rest IH]; intros idx joins wheres w.
  - simpl. exists [], []. now rewrite !app_nil_r.
  - cbn [checkClauses uniqueResolves forallb uniqueForeignKeys filter].
    unfold bind, unwrapOption.
    destruct (getCol model name) as [col|]; [|reflexivity].
    cbn [isSome andb ret]. unfold isForeignKey.
    destruct (getRelatedColumn col model) as [related|]; cbn [isSome].
    + match goal with
      | |- context [checkClauses model rest (S idx) ?j ?h w] =>
          specialize (IH (S idx) j h w)
      end.
      fold (uniqueResolves model rest). fold (uniqueForeignKeys model rest).
      destruct (uniqueResolves model rest); [|exact IH].
      destruct IH as (joins' & wheres' & -> & Hw & Hj).
      eexists (_ :: joins'), (_ :: wheres').
      rewrite <- !app_assoc. simpl. split3; [reflexivity | lia | ].
      f_equal. exact Hj.
    + match goal with
      | |- context [checkClauses model rest (S idx) ?j ?h w] =>
          specialize (IH (S idx) j h w)
      end.
      fold (uniqueResolves model rest). fold (uniqueForeignKeys model rest).
      destruct (uniqueResolves model rest); [|exact IH].
      destruct IH as (joins' & wheres' & -> & Hw & Hj).
      eexists joins', (_ :: wheres').
      rewrite <- !app_assoc. simpl. split3; [reflexivity | lia | exact Hj].
Qed.

Lemma buildCheckSqlTemplate_world (primaryKey : Column) (w : World) :
  snd (buildCheckSqlTemplate model primaryKey w) = w.
Proof.
  unfold buildCheckSqlTemplate.
  destruct (model_unique model) as [unique|]; [|reflexivity].
  unfold bind.
  assert (Hw := checkClauses_world model (columnNames unique) 0 [] [] w).
  destruct (checkClauses model (columnNames unique) 0 [] [] w)
    as [[[joins wheres] | e] w1]; simpl in Hw; now subst w1.
Qed.

Lemma buildCheckSqlTemplate_fst (primaryKey : Column) (w : World) :
  match model_unique model with
  | None => fst (buildCheckSqlTemplate model primaryKey w) = Ret None
  | Some unique =>
      if uniqueResolves model (columnNames unique)
      then exists template,
             fst (buildCheckSqlTemplate model primaryKey w)
             = Ret (Some template)
      else fst (buildCheckSqlTemplate model primaryKey w) = Throw UnwrapNone
  end.
Proof.
  unfold buildCheckSqlTemplate.
  destruct (model_unique model) as [unique|]; [|reflexivity].
  assert (H := checkClauses_shape (columnNames unique) 0 [] [] w).
  unfold bind.
  destruct (uniqueResolves model (columnNames unique)).
  - destruct H as (joins & wheres & H & _).
    destruct (checkClauses model (columnNames unique) 0 [] [] w)
      as [[[j h] | e] w1]; simpl in H; [|discriminate].
    eexists. reflexivity.
  - destruct (checkClauses model (columnNames unique) 0 [] [] w)
      as [[[j h] | e] w1]; simpl in H; [discriminate|].
    simpl. now injection H as ->.
Qed.

(** X5. Building the probe template touches nothing.  A model without a
    unique index has no template; one whose index names only columns of
    the model has a template; when the index names a column the model
    lacks, the build throws "Tried to unwrap a None". *)
Theorem buildCheckSqlTemplate_outcome (primaryKey : Column) (w : World) :
  snd (buildCheckSqlTemplate model primaryKey w) = w /\
  match model_unique model with
  | None => fst (buildCheckSqlTemplate model primaryKey w) = Ret None
  | Some unique =>
      if uniqueResolves model (columnNames unique)
      then exists template,
             fst (buildCheckSqlTemplate model primaryKey w)
             = Ret (Some template)
      else fst (buildCheckSqlTemplate model primaryKey w) = Throw UnwrapNone
  end.
Proof.
  split; [apply buildCheckSqlTemplate_world | apply buildCheckSqlTemplate_fst].
Qed.

(** X6. The probe of a model compares every column of the unique index
    once: the loop over the index returns one [WHERE] clause per name and
    one [JOIN] per name that is a foreign key, behind those it was given,
    and throws when a name is no column of the model. *)
Theorem checkClauses_one_clause_per_column (names : list string) (idx : nat)
    (checkJoins checkWheres : list string) (w : World) :
  if uniqueResolves model names
  then exists joins wheres,
         fst (checkClauses model names idx checkJoins checkWheres w)
         = Ret ((checkJoins ++ joins)%list, (checkWheres ++ wheres)%list)
         /\ List.length wheres = List.length names
         /\ List.length joins = List.length (uniqueForeignKeys model names)
  else fst (checkClauses model names idx checkJoins checkWheres w)
       = Throw UnwrapNone.
Proof. apply checkClauses_shape. Qed.

Lemma insertParts_shape (row : Row) (cols : list Column) :
  forall (values : list (option string)) (names joins : list string),
  exists values' joins',
    insertParts model schema row cols values names joins
    = ((values ++ values')%list,
       (names ++ map col_name (filter (copied model schema) cols))%list,
       (joins ++ joins')%list)
    /\ List.length values'
       = List.length (filter (copied model schema) cols)
    /\ List.length joins'
       = List.length (filter (isForeignKey model) cols).
Proof.
  induction cols as [|column rest IH]; intros values names joins.
  - exists [], []. simpl. now rewrite !app_nil_r.
  - cbn [insertParts filter]. unfold copied, isForeignKey.
    destruct (getRelatedColumn column model) as [related|]; cbn [isSome orb].
    + match goal with
      | |- context [insertParts model schema row rest ?v ?n ?j] =>
          destruct (IH v n j) as (values' & joins' & -> & Hv & Hj)
      end.
      eexists (_ :: values'), (_ :: joins').
      rewrite <- !app_assoc. simpl. split3; [reflexivity | | ].
      * f_equal. exact Hv.
      * f_equal. exact Hj.
    + destruct (isRegular column schema).
      * match goal with
        | |- context [insertParts model schema row rest ?v ?n ?j] =>
            destruct (IH v n j) as (values' & joins' & -> & Hv & Hj)
        end.
        eexists (_ :: values'), joins'.
        rewrite <- !app_assoc. simpl. split3; [reflexivity | | exact Hj].
        f_equal. exact Hv.
      * destruct (IH values names joins) as (values' & joins' & -> & Hv & Hj).
        exists values', joins'. split3; [reflexivity | exact Hv | exact Hj].
Qed.

(** X7. The insert built for a row names its columns and its values in
    step: the primary key first, under the new key, then every column
    that is a foreign key or regular, in the order of the model, one
    value each; and it joins one identity map per foreign key.  A column
    that is neither (a relation object, a list, a second primary key)
    gets no place. *)
Theorem insert_columns_match_values (primaryKey : Column) (row : Row)
    (newPk : string) :
  exists values joins,
    insertParts model schema row (columns model)
      [Some ("'" ++ newPk ++ "'")] [col_name primaryKey] []
    = (Some ("'" ++ newPk ++ "'") :: values,
       col_name primaryKey
         :: map col_name (filter (copied model schema) (columns model)),
       joins)
    /\ List.length values
       = List.length (filter (copied model schema) (columns model))
    /\ List.length joins
       = List.length (filter (isForeignKey model) (columns model)).
Proof.
  destruct (insertParts_shape row (columns model)
              [Some ("'" ++ newPk ++ "'")] [col_name primaryKey] [])
    as (values & joins & H & Hv & Hj).
  exists values, joins. now split3.
Qed.
End StatementFacts.

Section HandleModelFacts.
Context {driver : Driver}.

Lemma getCol_handleModel (model : DMMF_Model) (name : string) :
  isSome (getCol (handleModel model) name)
  = existsb (fun f => String.eqb (field_name f) name) (dmmf_fields model).
Proof.
  unfold getCol. rewrite find_isSome_existsb. simpl.
  induction (dmmf_fields model) as [|f fs IH]; simpl; [reflexivity|].
  now rewrite IH.
Qed.

Lemma find_handleColumn (fields : list DMMF_Field) :
  find col_unique (map handleColumn fields)
  = option_map handleColumn (find isUnique fields).
Proof.
  induction fields as [|f fields IH]; [reflexivity|]. simpl.
  now destruct (isUnique f).
Qed.

(** X8. The model [handleModel] builds takes its unique index from the
    first compound index of the Prisma model, whatever fields are marked
    unique, and, when the model has no compound index, from the first
    field marked unique; without either it has none.  When the names of
    that index are fields of the model (as those of a single unique field
    always are), the probe template of the model is built without an
    error, and there is one exactly when the model has a compound index
    or a unique field. *)
Theorem handleModel_probe_builds (model : DMMF_Model) (primaryKey : Column)
    (w : World) :
  (forall first,
      nth_error (uniqueFields model) 0 = Some first ->
      forallb (fun name =>
                 existsb (fun f => String.eqb (field_name f) name)
                   (dmmf_fields model)) first = true) ->
  model_unique (handleModel model)
  = match uniqueFields model with
    | first :: _ => Some {| columnNames := first |}
    | [] =>
        match find isUnique (dmmf_fields model) with
        | Some f => Some {| columnNames := [field_name f] |}
        | None => None
        end
    end /\
  exists template,
    buildCheckSqlTemplate (handleModel model) primaryKey w
    = (Ret template, w) /\
    isSome template
    = match uniqueFields model with
      | [] => existsb isUnique (dmmf_fields model)
      | _ :: _ => true
      end.
Proof.
  intros Hknown. split.
  { unfold handleModel. cbn [model_unique].
    destruct (uniqueFields model) as [|first others]; cbn [nth_error];
      [|reflexivity].
    rewrite find_handleColumn.
    now destruct (find isUnique (dmmf_fields model)). }
  assert (Hw := buildCheckSqlTemplate_world (handleModel model) primaryKey w).
  assert (Hf := buildCheckSqlTemplate_fst (handleModel model) primaryKey w).
  assert (Hres : forall names,
             uniqueResolves (handleModel model) names
             = forallb (fun name =>
                          existsb (fun f => String.eqb (field_name f) name)
                            (dmmf_fields model)) names).
  { intros names. unfold uniqueResolves.
    induction names as [|name names IH]; simpl; [reflexivity|].
    now rewrite IH, getCol_handleModel. }
  destruct (buildCheckSqlTemplate (handleModel model) primaryKey w)
    as [r w1]. cbn [fst snd] in Hw, Hf. subst w1.
  assert (Hmu : model_unique (handleModel model)
                = match nth_error (uniqueFields model) 0 with
                  | Some first => Some {| columnNames := first |}
                  | None =>
                      match find col_unique
                              (map handleColumn (dmmf_fields model)) with
                      | Some uniqueCol =>
                          Some {| columnNames := [col_name uniqueCol] |}
                      | None => None
                      end
                  end) by reflexivity.
  rewrite Hmu in Hf. clear Hmu.
  destruct (uniqueFields model) as [|first others] eqn:Hu;
    cbn [nth_error] in Hf.
  - destruct (find col_unique (map handleColumn (dmmf_fields model)))
      as [uniqueCol|] eqn:Hfind.
    + cbn [columnNames] in Hf. rewrite Hres in Hf. cbn [forallb] in Hf.
      assert (Hin : existsb (fun f => String.eqb (field_name f)
                                        (col_name uniqueCol))
                      (dmmf_fields model) = true).
      { apply find_some in Hfind as [Hin _].
        apply in_map_iff in Hin as (f & <- & Hf'). apply existsb_exists.
        exists f. split; [assumption | apply String.eqb_refl]. }
      rewrite Hin in Hf. simpl in Hf. destruct Hf as [t ->].
      exists (Some t). split; [reflexivity|]. simpl. symmetry.
      apply find_some in Hfind as [Hin' Hun].
      apply in_map_iff in Hin' as (f & <- & Hf').
      apply existsb_exists. now exists f.
    + rewrite Hf. exists None. split; [reflexivity|]. simpl. symmetry.
      apply not_true_is_false. intros H.
      apply existsb_exists in H as (f & Hin & Hun).
      assert (Hno := find_none _ _ Hfind (handleColumn f)
                       (in_map handleColumn _ _ Hin)).
      simpl in Hno. congruence.
  - cbn [columnNames] in Hf.
    rewrite Hres, (Hknown first eq_refl) in Hf. destruct Hf as [t ->].
    exists (Some t). split; reflexivity.
Qed.
End HandleModelFacts.

(** ** The insert batcher under any sequence of calls ([insert_manager.ts]) *)

Section BatcherFacts.
Context {driver : Driver}.

Lemma call_eq (c : Call) (w : World) :
  call c w =
  match c with
  | CallFlush => committed w
  | CallInsert s | CallInsertSupporting s =>
      let k := match c with CallInsert _ => 1%N | _ => 0%N end in
      let w1 := with_inserter w (pushed (inserter w) s k) in
      if Z.geb (Z.of_nat (List.length (statements (inserter w)) + 1))
               (threshold (inserter w))
      then committed w1 else (Ret 0%N, w1)
  end.
Proof.
  destruct c as [s | s |]; simpl.
  - apply insert_eq.
  - apply insertSupporting_eq.
  - apply flush_eq.
Qed.

(** One call that returns. *)
Lemma call_step (c : Call) (w : World) (n : N) :
  fst (call c w) = Ret n ->
  let w' := snd (call c w) in
  connection (inserter w') = connection (inserter w) /\
  exists batches,
    execs (connection (inserter w)) (trace w')
    = (execs (connection (inserter w)) (trace w) ++ map batchSql batches)%list
    /\ (List.concat batches ++ statements (inserter w'))%list
       = (statements (inserter w) ++ submitted [c])%list
    /\ (n + count (inserter w') = count (inserter w) + regular [c])%N.
Proof.
  rewrite call_eq. intros Hret. split.
  - destruct c as [s | s |]; cbv zeta; try destruct (Z.geb _ _); reflexivity.
  - assert (Hcom : forall w0 : World,
               fst (committed w0) = Ret n ->
               execs (connection (inserter w0)) (trace (snd (committed w0)))
               = (execs (connection (inserter w0)) (trace w0)
                    ++ map batchSql [statements (inserter w0)])%list
               /\ statements (inserter (snd (committed w0))) = []
               /\ count (inserter (snd (committed w0))) = 0%N
               /\ n = count (inserter w0)).
    { intros w0 H0. split4.
      - now apply committed_execs.
      - reflexivity.
      - reflexivity.
      - now apply committed_Ret. }
    destruct c as [s | s |]; cbv zeta in *.
    + destruct (Z.geb _ _) eqn:Hfull.
      * destruct (Hcom _ Hret) as (He & Hs & Hc & Hn).
        exists [(statements (inserter w) ++ [s])%list].
        split3.
        -- exact He.
        -- rewrite Hs. simpl. now rewrite !app_nil_r.
        -- rewrite Hc, Hn. unfold regular. simpl. lia.
      * exists []. simpl in *. injection Hret as <-.
        split3.
        -- now rewrite app_nil_r.
        -- reflexivity.
        -- unfold regular. simpl. lia.
    + destruct (Z.geb _ _) eqn:Hfull.
      * destruct (Hcom _ Hret) as (He & Hs & Hc & Hn).
        exists [(statements (inserter w) ++ [s])%list].
        split3.
        -- exact He.
        -- rewrite Hs. simpl. now rewrite !app_nil_r.
        -- rewrite Hc, Hn. unfold regular. simpl. lia.
      * exists []. simpl in *. injection Hret as <-.
        split3.
        -- now rewrite app_nil_r.
        -- reflexivity.
        -- unfold regular. simpl. lia.
    + destruct (Hcom _ Hret) as (He & Hs & Hc & Hn).
      exists [statements (inserter w)]. split3.
      * exact He.
      * rewrite Hs. simpl. now rewrite !app_nil_r.
      * rewrite Hc, Hn. unfold regular. simpl. lia.
Qed.

Lemma submitted_cons (c : Call) (l : list Call) :
  submitted (c :: l) = (submitted [c] ++ submitted l)%list.
Proof. unfold submitted. simpl. now rewrite app_nil_r. Qed.

Lemma regular_cons (c : Call) (l : list Call) :
  regular (c :: l) = (regular [c] + regular l)%N.
Proof.
  unfold regular. destruct c; cbn [filter List.length];
    rewrite ?Nat2N.inj_succ; lia.
Qed.

(** X10. Over any sequence of [insert], [insertSupporting] and [flush]
    calls that all return, nothing is lost, repeated or reordered: the
    statements committed, batch after batch, followed by those still
    pending are the statements that were pending before followed by
    those handed over, in order; and the numbers the calls returned add
    up, with the count still pending, to the count pending before plus
    the number of [insert] calls. *)
Theorem calls_conserve (l : list Call) (w : World) (ns : list N) :
  fst (calls l w) = Ret ns ->
  let w' := snd (calls l w) in
  exists batches,
    execs (connection (inserter w)) (trace w')
    = (execs (connection (inserter w)) (trace w) ++ map batchSql batches)%list
    /\ (List.concat batches ++ statements (inserter w'))%list
       = (statements (inserter w) ++ submitted l)%list
    /\ (sumN ns + count (inserter w') = count (inserter w) + regular l)%N
    /\ List.length ns = List.length l.
Proof.
  revert w ns. induction l as [|c l IH]; intros w ns Hret.
  - simpl in *. injection Hret as <-. exists []. simpl.
    rewrite !app_nil_r. split4; try reflexivity. unfold regular. simpl. lia.
  - cbn [calls] in *. step Hret. step Hret.
    unfold ret in Hret. simpl in Hret. injection Hret as <-.
    assert (H1 : fst (call c w) = Ret a) by now rewrite Hm.
    destruct (call_step c w a H1) as (Hconn & b1 & He1 & Hs1 & Hn1).
    rewrite Hm in Hconn, He1, Hs1, Hn1. cbn [snd] in Hconn, He1, Hs1, Hn1.
    assert (H2 : fst (calls l w0) = Ret a0) by now rewrite Hm0.
    destruct (IH w0 a0 H2) as (b2 & He2 & Hs2 & Hn2 & Hlen).
    rewrite Hm0 in He2, Hs2, Hn2. cbn [snd] in He2, Hs2, Hn2.
    rewrite Hconn in He2.
    exists (b1 ++ b2)%list. unfold ret. cbn [snd]. split4.
    + rewrite He2, He1, map_app, app_assoc. reflexivity.
    + rewrite submitted_cons, concat_app, <- app_assoc, Hs2, !app_assoc, Hs1.
      reflexivity.
    + rewrite regular_cons. cbn [sumN fold_right]. fold (sumN a0). lia.
    + simpl. now rewrite Hlen.
Qed.
End BatcherFacts.

Lemma calls_conserve_witness :
  fst (calls (driver := MockDriver)
         [CallInsert "INSERT 3"; CallInsertSupporting "INSERT 4"; CallFlush]
         (mockWorld (fun _ => mockSource []) twoPending))
  = Ret [2%N; 0%N; 0%N] /\
  exists batches,
    execs 0 (trace (snd (calls (driver := MockDriver)
                           [CallInsert "INSERT 3";
                            CallInsertSupporting "INSERT 4"; CallFlush]
                           (mockWorld (fun _ => mockSource []) twoPending))))
    = map batchSql batches /\
    List.concat batches = ["INSERT 1"; "INSERT 2"; "INSERT 3"; "INSERT 4"].
Proof.
  split; [reflexivity|].
  destruct (calls_conserve (driver := MockDriver)
              [CallInsert "INSERT 3"; CallInsertSupporting "INSERT 4"; CallFlush]
              (mockWorld (fun _ => mockSource []) twoPending)
              [2%N; 0%N; 0%N] eq_refl)
    as (batches & He & Hs & _).
  exists batches. split; [exact He|].
  simpl in Hs. rewrite app_nil_r in Hs. exact Hs.
Defined.

(** ** What the engine touches ([merge.ts]) *)

Section ConfinedFacts.
Context {driver : Driver}.
Variable merged : ConnId.

Lemma Confined_refl (w : World) : Confined merged w w.
Proof.
  split; [reflexivity|]. exists []. now rewrite app_nil_r.
Qed.

Lemma Confined_inserter (w : World) (im : InsertManager) :
  Confined merged w (with_inserter w im).
Proof.
  split; [reflexivity|]. exists []. split; [|constructor].
  simpl. now rewrite app_nil_r.
Qed.

Lemma Confined_trans (w w1 w2 : World) :
  Confined merged w w1 -> Confined merged w1 w2 -> Confined merged w w2.
Proof.
  intros [F1 (e1 & E1 & H1)] [F2 (e2 & E2 & H2)]. split.
  - intros c Hc. now rewrite F2, F1.
  - exists (e1 ++ e2)%list. split.
    + now rewrite E2, E1, app_assoc.
    + apply Forall_app. now split.
Qed.

Section Any.
Variable I : InsertManager -> Prop.

Lemma good_ret {A} (a : A) : good merged I (ret a).
Proof. intros w HI. split; [exact HI | apply Confined_refl]. Qed.

Lemma good_throw {A} (e : Exn) : good merged I (@throw _ A e).
Proof. intros w HI. split; [exact HI | apply Confined_refl]. Qed.

Lemma good_bind {A B} (m : M A) (k : A -> M B) :
  good merged I m -> (forall a, good merged I (k a)) ->
  good merged I (bind m k).
Proof.
  intros Hm Hk w HI. unfold bind.
  destruct (Hm w HI) as [HI1 HC1].
  destruct (m w) as [[a | e] w1]; simpl in *.
  - destruct (Hk a w1 HI1) as [HI2 HC2]. split; [exact HI2|].
    eapply Confined_trans; eassumption.
  - now split.
Qed.

Lemma good_emit (ev : Event) : harmless merged ev -> good merged I (emit ev).
Proof.
  intros Hev w HI. split; [exact HI|]. split; [reflexivity|].
  exists [ev]. split; [reflexivity|]. now constructor.
Qed.

Lemma good_exec (sql : string) : good merged I (exec merged sql).
Proof.
  intros w HI. rewrite exec_eq. split; [exact HI|]. split.
  - intros c Hc. simpl. apply Nat.eqb_neq in Hc. now rewrite Hc.
  - exists [EvExec merged sql]. split; [reflexivity|].
    constructor; [reflexivity | constructor].
Qed.

Lemma good_unwrapResult {R} (r : Result R Error) :
  good merged I (unwrapResult r).
Proof. destruct r; [apply good_ret | apply good_throw]. Qed.

Lemma good_unwrapOption {T} (o : option T) : good merged I (unwrapOption o).
Proof. destruct o; [apply good_ret | apply good_throw]. Qed.

Lemma good_execOrError (sql : string) : good merged I (execOrError merged sql).
Proof.
  apply good_bind; [apply good_exec | intros r; apply good_unwrapResult].
Qed.

Lemma good_get_count (c : ConnId) (sql : string) :
  good merged I (get_count c sql).
Proof.
  intros w HI. split; [exact HI|]. split; [reflexivity|].
  exists [EvGet c sql]. split; [reflexivity|].
  constructor; [exact Logic.I | constructor].
Qed.

Lemma good_get_row (c : ConnId) (sql : string) :
  good merged I (get_row c sql).
Proof.
  intros w HI. split; [exact HI|]. split; [reflexivity|].
  exists [EvGet c sql]. split; [reflexivity|].
  constructor; [exact Logic.I | constructor].
Qed.

Lemma good_crypto_randomUUID : good merged I crypto_randomUUID.
Proof.
  intros w HI. split; [exact HI|]. split; [reflexivity|].
  exists []. split; [simpl; now rewrite app_nil_r | constructor].
Qed.

Lemma good_forEach {A} (l : list A) (body : A -> M unit) :
  (forall x, good merged I (body x)) -> good merged I (forEach l body).
Proof.
  intros Hbody. induction l as [|x l IH]; simpl.
  - apply good_ret.
  - apply good_bind; [apply Hbody | intros _; exact IH].
Qed.

Lemma each_rows_good (callback : Result Row Error -> M unit)
    (rows : list (Result Row Error)) :
  (forall r, good merged I (callback r)) ->
  forall w, I (inserter w) ->
            I (inserter (snd (each_rows callback rows w)))
            /\ Confined merged w (snd (each_rows callback rows w)).
Proof.
  intros Hcb. induction rows as [|r rows IH]; intros w HI; simpl.
  - split; [exact HI | apply Confined_refl].
  - destruct (Hcb r w HI) as [HI1 HC1].
    destruct (callback r w) as [[[] | e] w1]; simpl in *.
    + destruct (IH w1 HI1) as [HI2 HC2]. split; [exact HI2|].
      eapply Confined_trans; eassumption.
    + destruct (IH w1 HI1) as [HI2 HC2]. split; [exact HI2|].
      eapply Confined_trans; eassumption.
Qed.

Lemma each_snd (conn : ConnId) (query : string)
    (callback : Result Row Error -> M unit) (w : World) :
  snd (each conn query callback w)
  = snd (each_rows callback (fst (db_each (dbs w conn) query))
           (snd (emit (EvEach conn query) w))).
Proof.
  unfold each. destruct (db_each (dbs w conn) query) as [rows completion].
  simpl.
  destruct (each_rows callback rows _) as [thrown w1]. simpl.
  destruct completion; [destruct thrown|]; reflexivity.
Qed.

Lemma good_each (conn : ConnId) (query : string)
    (callback : Result Row Error -> M unit) :
  (forall r, good merged I (callback r)) ->
  good merged I (each conn query callback).
Proof.
  intros Hcb w HI. rewrite each_snd.
  destruct (good_emit (EvEach conn query) Logic.I w HI) as [HI0 HC0].
  destruct (each_rows_good callback
              (fst (db_each (dbs w conn) query)) Hcb _ HI0) as [HI1 HC1].
  split; [exact HI1|]. eapply Confined_trans; eassumption.
Qed.

Lemma good_lift {A} (o : Outcome A) :
  good merged I (fun w => match o with
                          | Ret a => (Ret a, w)
                          | Throw e => (Throw e, w)
                          end).
Proof.
  intros w HI. destruct o; (split; [exact HI | apply Confined_refl]).
Qed.
End Any.

Let toM := toMerged merged.

Lemma good_committed : good merged toM (fun w => committed w).
Proof.
  intros w HI. unfold committed. simpl. split; [exact HI|]. split.
  - intros c Hc. simpl. rewrite HI. apply Nat.eqb_neq in Hc. now rewrite Hc.
  - eexists [_]. split; [reflexivity|].
    constructor; [exact HI | constructor].
Qed.

Lemma good_flush : good merged toM flush.
Proof. intros w HI. rewrite flush_eq. now apply good_committed. Qed.

Lemma good_push (s : string) (k : N) (op : M N) :
  (forall w, op w =
     let w1 := with_inserter w (pushed (inserter w) s k) in
     if Z.geb (Z.of_nat (List.length (statements (inserter w)) + 1))
              (threshold (inserter w))
     then committed w1 else (Ret 0%N, w1)) ->
  good merged toM op.
Proof.
  intros Hop w HI. rewrite Hop. cbv zeta.
  assert (H1 : Confined merged w (with_inserter w (pushed (inserter w) s k)))
    by apply Confined_inserter.
  destruct (Z.geb _ _).
  - destruct (good_committed (with_inserter w (pushed (inserter w) s k)) HI)
      as [HI2 HC2].
    split; [exact HI2|]. exact (Confined_trans _ _ _ H1 HC2).
  - split; [exact HI | exact H1].
Qed.

Lemma good_insert (s : string) : good merged toM (insert s).
Proof. apply (good_push s 1). apply insert_eq. Qed.

Lemma good_insertSupporting (s : string) :
  good merged toM (insertSupporting s).
Proof. apply (good_push s 0). apply insertSupporting_eq. Qed.

Lemma good_progress_inc (I : InsertManager -> Prop) (n : N) :
  good merged I (progress_inc n).
Proof. apply good_emit. exact Logic.I. Qed.

Lemma good_buildCheckSqlTemplate (I : InsertManager -> Prop) (model : Model)
    (primaryKey : Column) :
  good merged I (buildCheckSqlTemplate model primaryKey).
Proof.
  intros w HI. rewrite (buildCheckSqlTemplate_world model primaryKey w).
  split; [exact HI | apply Confined_refl].
Qed.

Lemma good_countRows (I : InsertManager -> Prop) (query : string)
    (conns : list ConnId) :
  forall totalRows primary primaryCount,
    good merged I (countRows query conns totalRows primary primaryCount).
Proof.
  induction conns as [|conn rest IH]; intros totalRows primary primaryCount;
    cbn [countRows].
  - apply good_ret.
  - apply good_bind; [apply good_get_count | intros r].
    apply good_bind; [apply good_unwrapResult | intros o].
    apply good_bind; [apply good_unwrapOption | intros n].
    destruct (N.ltb primaryCount n); apply IH.
Qed.

Lemma good_probe (I : InsertManager -> Prop) (model : Model)
    (primaryKey : Column) (template : string) (row : Row) :
  good merged I (probe model merged primaryKey template row).
Proof.
  unfold probe.
  apply good_bind; [apply good_unwrapOption | intros unique].
  apply good_bind; [apply good_get_row | intros found].
  destruct found as [[existingRow|] | e]; apply good_ret.
Qed.

Lemma good_mergeRow (model : Model) (schema : Schema) (primaryKey : Column)
    (template : option string) (isPrimary : bool)
    (rowResult : Result Row Error) :
  good merged toM
    (mergeRow model schema merged primaryKey template isPrimary rowResult).
Proof.
  unfold mergeRow. destruct rowResult as [row | e]; [|apply good_ret].
  apply good_bind.
  - destruct (negb isPrimary); [|apply good_ret].
    destruct template; [apply good_probe | apply good_ret].
  - intros [existingId|].
    + apply good_bind; [apply good_insert | intros n].
      apply good_progress_inc.
    + apply good_bind.
      * destruct isPrimary; [apply good_ret | apply good_crypto_randomUUID].
      * intros newPk.
        apply good_bind; [apply good_insert | intros n].
        apply good_bind; [apply good_progress_inc | intros _].
        apply good_bind; [apply good_insertSupporting | intros n'].
        apply good_progress_inc.
Qed.

Lemma good_mergeSource (model : Model) (schema : Schema)
    (primaryKey : Column) (template : option string)
    (primary conn : option ConnId) :
  good merged toM
    (mergeSource model schema merged primaryKey template primary conn).
Proof.
  unfold mergeSource. destruct conn as [conn|]; [|apply good_throw].
  apply good_bind.
  - apply good_each. intros r. apply good_mergeRow.
  - intros _. apply good_bind; [apply good_flush | intros n].
    apply good_progress_inc.
Qed.

Lemma good_set_inserter {A} (im : InsertManager) (rest : M A) :
  toM im -> good merged toM rest ->
  good merged anyInserter (set_inserter im ;; rest).
Proof.
  intros Him Hrest w _. unfold bind, set_inserter. split; [exact Logic.I|].
  destruct (Hrest {| dbs := dbs w; trace := trace w; uuids := uuids w;
                     inserter := im |} Him) as [_ HC].
  eapply Confined_trans; [|exact HC]. apply (Confined_inserter w im).
Qed.

Lemma good_mergeModel (model : Model) (schema : Schema)
    (connections : list ConnId) (minInserts : Z) (showProgress : bool) :
  good merged anyInserter
    (mergeModel model schema connections merged minInserts showProgress).
Proof.
  unfold mergeModel.
  apply good_bind; [apply good_execOrError | intros _].
  apply good_set_inserter; [reflexivity|].
  apply good_bind; [apply good_unwrapOption | intros primaryKey].
  apply good_bind; [apply good_buildCheckSqlTemplate | intros template].
  apply good_bind; [apply good_countRows | intros [totalRows primary]].
  apply good_bind.
  { destruct showProgress; [apply good_emit; exact Logic.I | apply good_ret]. }
  intros _. apply good_bind.
  { apply good_forEach. intros conn. apply good_mergeSource. }
  intros _. apply good_bind; [apply good_flush | intros n].
  apply good_bind; [apply good_progress_inc | intros _].
  apply good_bind; [apply good_execOrError | intros _].
  apply good_emit. exact Logic.I.
Qed.

Lemma good_copySchemaRow (I : InsertManager -> Prop)
    (result : Result Row Error) :
  good merged I (copySchemaRow merged result).
Proof.
  unfold copySchemaRow.
  apply good_bind; [apply good_unwrapResult | intros row].
  destruct (field row "sql") as [sql|]; [|apply good_ret].
  destruct (String.eqb sql EmptyString);
    [apply good_ret | apply good_execOrError].
Qed.

Lemma good_prismerge (schema : Schema) (connections : list ConnId)
    (minInserts : Z) (showProgress : bool) :
  good merged anyInserter
    (prismerge schema connections merged minInserts showProgress).
Proof.
  unfold prismerge.
  apply good_bind; [apply good_lift | intros order].
  apply good_bind; [apply good_execOrError | intros _].
  apply good_bind.
  { destruct (nth_error connections 0) as [first|]; [|apply good_throw].
    apply good_bind; [|intros n; apply good_ret].
    apply good_each. intros r. apply good_copySchemaRow. }
  intros _. apply good_bind; [|intros _; apply good_execOrError].
  unfold mergeEach. apply good_forEach. intros [currentModel|].
  - apply good_mergeModel.
  - apply good_throw.
Qed.

Lemma good_reportIntegrity (I : InsertManager -> Prop) (currentModel : Model) :
  good merged I (reportIntegrity merged currentModel).
Proof.
  unfold reportIntegrity, verifyIntegrity.
  apply good_bind.
  - apply good_bind; [apply good_get_count | intros check].
    destruct (isOk check); [|apply good_ret].
    apply good_bind; [apply good_unwrapResult | intros o].
    apply good_bind; [apply good_unwrapOption | intros n].
    destruct (N.ltb 0 n); apply good_ret.
  - intros [[] | value]; [apply good_ret | apply good_emit; exact Logic.I].
Qed.

Lemma closing_bind {A} (m : M A) (k : A -> M unit) :
  good merged anyInserter m -> (forall a, closing merged (k a)) ->
  closing merged (bind m k).
Proof.
  intros Hm Hk w. unfold bind.
  destruct (Hm w Logic.I) as [_ [F1 (e1 & E1 & H1)]].
  destruct (m w) as [[a | e] w1]; simpl in *.
  - destruct (Hk a w1) as [F2 (e2 & H2 & E2)]. split.
    + intros c Hc. now rewrite F2, F1.
    + exists (e1 ++ e2)%list. split; [apply Forall_app; now split|].
      destruct E2 as [[E2 O2] | [E2 O2]]; [left | right].
      * split; [|exact O2]. now rewrite E2, E1, <- !app_assoc.
      * split; [|exact O2]. now rewrite E2, E1, <- !app_assoc.
  - split; [exact F1|]. exists e1. split; [exact H1|].
    right. split; [exact E1 | now exists e].
Qed.

Lemma closing_close : closing merged (close merged).
Proof.
  intros w. unfold close, bind, emit, unwrapResult. simpl.
  split.
  - intros c Hc. now destruct (db_close (dbs w merged)).
  - exists []. split; [constructor|]. left.
    destruct (db_close (dbs w merged)) as [[] | e] eqn:Hclose; simpl;
      rewrite Hclose; split; reflexivity.
Qed.

Lemma merge_closing (schema : Schema) (connections : list ConnId)
    (minInserts : Z) (keepIdMaps : bool) :
  closing merged (merge schema connections merged minInserts keepIdMaps).
Proof.
  unfold merge.
  apply closing_bind; [apply good_prismerge | intros _].
  apply closing_bind.
  { apply good_forEach. intros m. apply good_reportIntegrity. }
  intros _. apply closing_bind.
  { destruct (negb keepIdMaps); [|apply good_ret].
    apply good_forEach. intros m. apply good_execOrError. }
  intros _. apply closing_bind.
  { unfold vacuum. apply good_bind; [apply good_exec | intros r].
    apply good_ret. }
  intros _. apply closing_close.
Qed.

Lemma harmless_execs (c : ConnId) (evs : list Event) :
  c <> merged -> Forall (harmless merged) evs -> execs c evs = [].
Proof.
  intros Hc H. induction H as [|ev evs Hev _ IH]; [reflexivity|].
  unfold execs in *. simpl. rewrite IH, app_nil_r.
  destruct ev; try reflexivity. simpl in Hev. subst conn.
  apply not_eq_sym in Hc. apply Nat.eqb_neq in Hc. now rewrite Hc.
Qed.

Lemma harmless_closes (evs : list Event) :
  Forall (harmless merged) evs -> closes evs = [].
Proof.
  intros H. induction H as [|ev evs Hev _ IH]; [reflexivity|].
  unfold closes in *. simpl. rewrite IH, app_nil_r.
  destruct ev; try reflexivity. destruct Hev.
Qed.

Lemma closes_app (t1 t2 : list Event) :
  closes (t1 ++ t2) = (closes t1 ++ closes t2)%list.
Proof. apply flat_map_app. Qed.

Lemma execs_close (c : ConnId) (evs : list Event) :
  execs c (evs ++ [EvClose merged]) = execs c evs.
Proof. rewrite execs_app. simpl. apply app_nil_r. Qed.

(** X11. Whatever happens in a run of [merge], an input is only read: no
    statement is executed on a connection other than the destination, and
    the database behind every other connection is the one it was. *)
Theorem merge_only_reads_inputs (schema : Schema) (connections : list ConnId)
    (minInserts : Z) (keepIdMaps : bool) (w : World) (c : ConnId) :
  c <> merged ->
  let w' := snd (merge schema connections merged minInserts keepIdMaps w) in
  dbs w' c = dbs w c /\ execs c (trace w') = execs c (trace w).
Proof.
  intros Hc w'.
  destruct (merge_closing schema connections minInserts keepIdMaps w)
    as [F (evs & Hevs & E)].
  split; [now apply F|]. unfold w'.
  destruct E as [[E _] | [E _]]; rewrite E.
  - rewrite app_assoc, execs_close, execs_app.
    rewrite (harmless_execs c evs Hc Hevs). apply app_nil_r.
  - rewrite execs_app, (harmless_execs c evs Hc Hevs). apply app_nil_r.
Qed.

End ConfinedFacts.

(** ** Edges of the merge ([merge.ts]) *)

Section MergeEdges.
Context {driver : Driver}.

(** X13. A model without a primary key, or whose unique index names a
    column it lacks, stops the merge with "Tried to unwrap a None" (or
    with the driver's error when the table cannot be created): by then
    the identity-map table of the model has been created on the
    destination, and nothing else was done: no source was counted or
    read. *)
Theorem mergeModel_aborts_before_reading (model : Model) (schema : Schema)
    (connections : list ConnId) (merged : ConnId) (minInserts : Z)
    (showProgress : bool) (w : World) :
  primaryKey model = None \/
  (exists unique, model_unique model = Some unique /\
                  uniqueResolves model (columnNames unique) = false) ->
  let run := mergeModel model schema connections merged minInserts
               showProgress w in
  fst run
  = match exec_result w merged (createTableSql (mapTable model)) with
    | Ok _ => Throw UnwrapNone
    | Err e => Throw (DriverError e)
    end /\
  trace (snd run)
  = (trace w ++ [EvExec merged (createTableSql (mapTable model))])%list.
Proof.
  intros H run.
  assert (E : exists w',
             run = (match exec_result w merged
                            (createTableSql (mapTable model)) with
                    | Ok _ => Throw UnwrapNone
                    | Err e => Throw (DriverError e)
                    end, w')
             /\ trace w'
                = (trace w
                     ++ [EvExec merged (createTableSql (mapTable model))])
                  %list).
  { unfold run, mergeModel, createInto.
    unfold bind at 1. rewrite execOrError_eq.
    destruct (exec_result w merged (createTableSql (mapTable model)))
      as [[] | e]; [|eexists; split; reflexivity].
    unfold bind at 1. unfold set_inserter at 1.
    unfold bind at 1. unfold unwrapOption at 1.
    destruct (primaryKey model) as [pk|] eqn:Hpk;
      [|eexists; split; reflexivity].
    destruct H as [H | (unique & Hu & Hres)]; [discriminate|].
    unfold ret at 1. unfold bind at 1.
    match goal with
    | |- context [buildCheckSqlTemplate model pk ?w0] =>
        assert (Hw := buildCheckSqlTemplate_world model pk w0);
        assert (Hf := buildCheckSqlTemplate_fst model pk w0);
        destruct (buildCheckSqlTemplate model pk w0) as [[t | x] w1]
    end.
    - rewrite Hu, Hres in Hf. simpl in Hf. discriminate.
    - rewrite Hu, Hres in Hf. simpl in Hf, Hw. injection Hf as ->. subst w1.
      eexists. split; reflexivity. }
  destruct E as (w' & -> & Ht). split; [reflexivity | exact Ht].
Qed.

(** X14. With no input connection [prismerge] throws a [TypeError] as
    soon as it has switched the destination to the fast pragmas, which
    are then never switched back; nothing else is done. *)
Theorem prismerge_without_inputs (schema : Schema) (merged : ConnId)
    (minInserts : Z) (showProgress : bool) (w : World)
    (order : list (option Model)) :
  sortedModels schema = Ret order ->
  prismerge schema [] merged minInserts showProgress w
  = (match exec_result w merged fastPragmas with
     | Ok _ => Throw TypeError
     | Err e => Throw (DriverError e)
     end,
     executed w merged fastPragmas).
Proof.
  intros Hs. unfold prismerge. rewrite Hs. unfold bind at 1.
  unfold bind at 1. rewrite execOrError_eq.
  destruct (exec_result w merged fastPragmas) as [[] | e]; reflexivity.
Qed.

Lemma copySchemaRow_trace (merged : ConnId) (r : Result Row Error)
    (w : World) :
  trace (snd (copySchemaRow merged r w))
  = (trace w ++ map (EvExec merged) (schemaStatements [r]))%list.
Proof.
  unfold copySchemaRow, schemaStatements, bind. destruct r as [row | e]; simpl.
  - destruct (field row "sql") as [sql|]; simpl; [|now rewrite app_nil_r].
    destruct (String.eqb sql EmptyString); simpl; [now rewrite app_nil_r|].
    rewrite execOrError_eq. reflexivity.
  - now rewrite app_nil_r.
Qed.

Lemma schemaStatements_cons (r : Result Row Error)
    (rows : list (Result Row Error)) :
  schemaStatements (r :: rows)
  = (schemaStatements [r] ++ schemaStatements rows)%list.
Proof. unfold schemaStatements. simpl. now rewrite app_nil_r. Qed.

Lemma copySchema_rows_trace (merged : ConnId)
    (rows : list (Result Row Error)) :
  forall w,
    trace (snd (each_rows (copySchemaRow merged) rows w))
    = (trace w ++ map (EvExec merged) (schemaStatements rows))%list.
Proof.
  induction rows as [|r rows IH]; intros w.
  - simpl. now rewrite app_nil_r.
  - cbn [each_rows]. assert (Hr := copySchemaRow_trace merged r w).
    rewrite schemaStatements_cons, map_app, app_assoc, <- Hr.
    destruct (copySchemaRow merged r w) as [[[] | e] w1]; simpl; apply IH.
Qed.

Lemma copySchema_rows_throw (merged : ConnId) (e : Error)
    (rows : list (Result Row Error)) :
  In (Err e) rows ->
  forall w, exists x, fst (each_rows (copySchemaRow merged) rows w) = Some x.
Proof.
  induction rows as [|r rows IH]; intros Hin w; [destruct Hin|].
  cbn [each_rows]. destruct Hin as [-> | Hin].
  - simpl. now exists (DriverError e).
  - destruct (copySchemaRow merged r w) as [[[] | x] w1].
    + apply (IH Hin).
    + now exists x.
Qed.

Lemma schema_copy_trace (first merged : ConnId) (w : World) :
  trace (snd (each first "SELECT sql FROM sqlite_master;"
                (copySchemaRow merged) w))
  = (trace w ++ EvEach first "SELECT sql FROM sqlite_master;"
       :: map (EvExec merged)
            (schemaStatements
               (fst (db_each (dbs w first)
                       "SELECT sql FROM sqlite_master;"))))%list.
Proof.
  rewrite each_snd, copySchema_rows_trace. simpl.
  now rewrite <- app_assoc.
Qed.

Lemma execs_execs (c : ConnId) (l : list string) :
  execs c (map (EvExec c) l) = l.
Proof.
  induction l as [|s l IH]; [reflexivity|].
  unfold execs in *. simpl. now rewrite Nat.eqb_refl, IH.
Qed.

(** X15. The schema copy of [prismerge] sends every statement the stream
    of [sqlite_master] delivers to the destination, in order, leaving out
    the rows without one, and goes on after a statement the destination
    refused; a read error in place of a row, unlike in the merge of a
    model, makes the copy throw, and so does the failure of the stream. *)
Theorem schema_copy_sends_every_statement (first merged : ConnId)
    (w : World) :
  let query := "SELECT sql FROM sqlite_master;" in
  let rows := fst (db_each (dbs w first) query) in
  let run := each first query (copySchemaRow merged) w in
  trace (snd run)
  = (trace w ++ EvEach first query
       :: map (EvExec merged) (schemaStatements rows))%list /\
  (forall e, In (Err e) rows -> exists x, fst run = Throw x) /\
  (forall e, snd (db_each (dbs w first) query) = Err e ->
             fst run = Throw (DriverError e)).
Proof.
  intros query rows run. split3.
  - apply schema_copy_trace.
  - intros e Hin. unfold run, each. fold query. unfold rows in Hin.
    destruct (db_each (dbs w first) query) as [rs completion]. simpl in *.
    destruct (copySchema_rows_throw merged e rs Hin
                {| dbs := dbs w;
                   trace := (trace w ++ [EvEach first query])%list;
                   uuids := uuids w; inserter := inserter w |}) as [x Hx].
    destruct (each_rows (copySchemaRow merged) rs _) as [thrown w1].
    simpl in Hx. subst thrown.
    destruct completion as [n | e']; eexists; reflexivity.
  - intros e He. unfold run, each. fold query.
    destruct (db_each (dbs w first) query) as [rs completion]. simpl in *.
    subst completion.
    now destruct (each_rows (copySchemaRow merged) rs _).
Qed.

(** X16. The count loop stops at the first source whose count cannot be
    read: the error of the driver is thrown, the sources before it and
    that one have been asked, the ones behind it have not. *)
Theorem countRows_stops_at_first_failure (query : string)
    (before after : list ConnId) (conn : ConnId) (e : Error) (w : World) :
  Forall (fun c => exists n, db_get_count (dbs w c) query = Ok (Some n))
    before ->
  db_get_count (dbs w conn) query = Err e ->
  forall totalRows primary primaryCount,
    countRows query (before ++ conn :: after) totalRows primary primaryCount w
    = (Throw (DriverError e), counted w query (before ++ [conn])).
Proof.
  intros Hbefore Hconn. revert w Hbefore Hconn.
  induction before as [|c before IH]; intros w Hbefore Hconn
                                           totalRows primary primaryCount.
  - simpl. unfold bind, get_count, emit, ret. simpl. rewrite Hconn. reflexivity.
  - inversion Hbefore as [|? ? [n Hn] Hrest]; subst.
    simpl app. cbn [countRows]. unfold bind at 1.
    unfold get_count at 1. unfold bind at 1, emit at 1, ret at 1.
    cbn [fst snd]. rewrite Hn. unfold bind at 1. cbn [unwrapResult].
    unfold ret at 1. unfold bind at 1. cbn [unwrapOption]. unfold ret at 1.
    set (w1 := {| dbs := dbs w; trace := (trace w ++ [EvGet c query])%list;
                  uuids := uuids w; inserter := inserter w |}).
    assert (Hc : counted w query (c :: before ++ [conn])
                 = counted w1 query (before ++ [conn])).
    { unfold counted, w1. simpl. now rewrite <- app_assoc. }
    rewrite Hc.
    destruct (N.ltb primaryCount n); apply IH; assumption.
Qed.
End MergeEdges.

(** ** The end of [merge] *)

Section Cleanup.
Context {driver : Driver}.
Variable merged : ConnId.

Lemma reportIntegrity_trace (m : Model) (w : World) :
  exists lines,
    trace (snd (reportIntegrity merged m w))
    = (trace w ++ EvGet merged (integrityQuery m) :: map EvLog lines)%list.
Proof.
  unfold reportIntegrity, verifyIntegrity, bind, get_count, emit, ret.
  simpl.
  destruct (db_get_count (dbs w merged) (integrityQuery m))
    as [[n|] | e]; simpl.
  - destruct (N.ltb 0 n); simpl.
    + eexists [_]. rewrite <- app_assoc. reflexivity.
    + now exists [].
  - now exists [].
  - now exists [].
Qed.

Lemma report_loop (ms : list Model) :
  forall w,
    fst (forEach ms (reportIntegrity merged) w) = Ret tt ->
    exists checks : list (Model * list string),
      map fst checks = ms /\
      trace (snd (forEach ms (reportIntegrity merged) w))
      = (trace w
           ++ flat_map (fun check =>
                          EvGet merged (integrityQuery (fst check))
                            :: map EvLog (snd check)) checks)%list.
Proof.
  induction ms as [|m ms IH]; intros w Hret.
  - exists []. simpl. now rewrite app_nil_r.
  - cbn [forEach] in *. step Hret.
    destruct (reportIntegrity_trace m w) as [lines Ht].
    rewrite Hm in Ht. simpl in Ht.
    destruct (IH w0 Hret) as (checks & Hms & Hc).
    exists ((m, lines) :: checks). split; [simpl; now rewrite Hms|].
    rewrite Hc, Ht. simpl. rewrite <- !app_assoc. reflexivity.
Qed.

Lemma drop_loop (ms : list Model) :
  forall w,
    fst (forEach ms (fun currentModel =>
                       dropFrom (mapTable currentModel) merged) w) = Ret tt ->
    trace (snd (forEach ms (fun currentModel =>
                              dropFrom (mapTable currentModel) merged) w))
    = (trace w
         ++ map (fun m => EvExec merged (dropSql (mapTable m))) ms)%list.
Proof.
  induction ms as [|m ms IH]; intros w Hret.
  - simpl. now rewrite app_nil_r.
  - cbn [forEach] in *. step Hret. rewrite (IH w0 Hret).
    unfold dropFrom in Hm. rewrite execOrError_eq in Hm.
    injection Hm as _ <-. simpl. now rewrite <- app_assoc.
Qed.

(** X17. In a run of [merge] that returns, what is done once [prismerge]
    is back is, in this order: for every model, in the order of the
    schema, the foreign-key check is asked of the destination, followed by
    what is printed for that model; then, unless the identity maps are to
    be kept, the map table of every model is dropped, in the same order;
    then [VACUUM] is sent; then the destination is closed.  Nothing else
    is done, and with [keepIdMaps] nothing is dropped. *)
Theorem merge_cleans_up (schema : Schema) (connections : list ConnId)
    (minInserts : Z) (keepIdMaps : bool) (w : World) :
  fst (merge schema connections merged minInserts keepIdMaps w) = Ret tt ->
  exists (w1 : World) (checks : list (Model * list string)),
    prismerge schema connections merged minInserts true w = (Ret tt, w1) /\
    let w' := snd (merge schema connections merged minInserts keepIdMaps w) in
    let ms := Map_values (models schema) in
    map fst checks = ms /\
    trace w'
    = (trace w1
         ++ flat_map (fun check =>
                        EvGet merged (integrityQuery (fst check))
                          :: map EvLog (snd check)) checks
         ++ (if keepIdMaps then []
             else map (fun m => EvExec merged (dropSql (mapTable m))) ms)
         ++ [EvExec merged "VACUUM;"; EvClose merged])%list.
Proof.
  intros Hret. unfold merge in *.
  step Hret. destruct a. exists w0.
  step Hret. destruct a.
  destruct (report_loop (Map_values (models schema)) w0) as (checks & Hms & Hc).
  { now rewrite Hm0. }
  rewrite Hm0 in Hc. simpl in Hc.
  exists checks. split; [exact Hm|]. cbv zeta. split; [exact Hms|].
  step Hret. destruct a.
  assert (Hdrop : trace w2
                  = (trace w1
                       ++ (if keepIdMaps then []
                           else map (fun m => EvExec merged
                                                (dropSql (mapTable m)))
                                  (Map_values (models schema))))%list).
  { destruct keepIdMaps; simpl in Hm1.
    - injection Hm1 as <-. now rewrite app_nil_r.
    - assert (Hd := drop_loop (Map_values (models schema)) w1).
      rewrite Hm1 in Hd. apply Hd. reflexivity. }
  unfold bind at 1. unfold vacuum at 1. unfold bind at 1.
  rewrite exec_eq. unfold ret at 1. unfold close, bind, emit. simpl.
  destruct (db_close _); simpl;
    rewrite Hdrop, Hc, <- !app_assoc; reflexivity.
Qed.
End Cleanup.

(** ** Progress *)

Section Progress.
Context {driver : Driver}.

(** X18. In a run of the merge of a model that returns, the progress
    reported adds up to the number of rows the sources delivered, the
    primary [p] and then the others: every row counts once, whether it
    was inserted or matched, and a read error in place of a row counts
    for nothing. *)
Theorem progress_counts_every_row (model : Model) (schema : Schema)
    (connections : list ConnId) (merged : ConnId) (minInserts : Z)
    (showProgress : bool) (w : World) :
  ~ In merged connections ->
  fst (mergeModel model schema connections merged minInserts showProgress w)
    = Ret tt ->
  let w' := snd (mergeModel model schema connections merged minInserts
                   showProgress w) in
  exists (pk : Column) (p : ConnId),
    primaryKey model = Some pk /\ In p connections /\
    sumN (incs (trace w'))
    = (sumN (incs (trace w))
       + N.of_nat
           (List.length
              (flat_map
                 (fun c => source_rows w c (selectQuery model schema pk))
                 (p :: secondaries connections p))))%N.
Proof.
  intros Hnin Hret w'.
  destruct (mergeModel_run model schema merged connections minInserts
              showProgress w Hnin Hret)
    as (pk & p & runs & Hpk & Hprim & Hconns & Hruns & _ & Hincs & _).
  exists pk, p. split; [exact Hpk|]. split.
  { destruct Hprim as (i & m & Hi & _). eapply nth_error_In. exact Hi. }
  fold w' in Hincs. rewrite Hincs.
  do 2 f_equal. rewrite <- Hconns. unfold processed_rows.
  clear - Hruns. induction Hruns as [|run runs [Hrows _] _ IH];
    [reflexivity|].
  simpl. rewrite !length_app, IH, <- Hrows, length_map. reflexivity.
Qed.
End Progress.

Section Console.
Import ConsoleProgress.

(** X19. [ConsoleProgress] counts what it is told: after any calls of
    [inc] its count is the count it had plus the sum of the increments;
    it prints one line for each increment other than 0 and none for an
    increment of 0; [finish] then sets the count to the total and prints
    the total as reached, whatever had been counted. *)
Theorem ConsoleProgress_counts_what_it_is_told (this : t)
    (tr : list Event) :
  ~ In EvFinish tr ->
  let after := fst (console this tr) in
  let lines := snd (console this tr) in
  count after = (count this + sumN (incs tr))%N /\
  model_name after = model_name this /\
  total_rows after = total_rows this /\
  List.length lines
  = List.length (filter (fun delta => negb (N.eqb delta 0)) (incs tr)) /\
  finish after
  = ({| model_name := model_name this; total_rows := total_rows this;
        count := total_rows this |},
     [model_name this ++ ": Processed "
        ++ show_nat (N.to_nat (total_rows this)) ++ "/"
        ++ show_nat (N.to_nat (total_rows this)) ++ " records"]).
Proof.
  revert this. induction tr as [|ev tr IH]; intros this Hfin; cbv zeta.
  - simpl. rewrite N.add_0_r. now split4; [| | |split].
  - assert (Hfin' : ~ In EvFinish tr) by (intros H; apply Hfin; now right).
    cbn [console].
    destruct ev; try (exfalso; apply Hfin; now left);
      try (specialize (IH this Hfin'); cbv zeta in IH;
           destruct (console this tr) as [this2 lines2];
           exact IH).
    unfold inc. cbv beta iota zeta.
    match goal with
    | |- context [console ?p tr] =>
        specialize (IH p Hfin'); cbv zeta in IH;
        destruct (console p tr) as [this2 lines2]
    end.
    cbn [fst snd] in *. destruct IH as (Hc & Hn & Ht & Hl & Hf).
    cbn [model_name total_rows count] in *.
    split4; [| exact Hn | exact Ht | split; [|exact Hf]].
    + rewrite Hc. change (incs (EvInc delta :: tr)) with (delta :: incs tr).
      change (sumN (delta :: incs tr)) with (delta + sumN (incs tr))%N. lia.
    + rewrite length_app, Hl.
      change (incs (EvInc delta :: tr)) with (delta :: incs tr).
      cbn [filter]. now destruct (N.eqb delta 0).
Qed.
End Console.

(** ** The command-line program *)

Section CommandLine.
Import CLI.

Lemma existsSync_unlinkSync (fs : list string) (path p : string) :
  existsSync (unlinkSync fs path) p
  = negb (String.eqb p path) && existsSync fs p.
Proof.
  unfold existsSync, unlinkSync, includes.
  induction fs as [|x fs IH]; simpl.
  - now rewrite andb_false_r.
  - destruct (String.eqb x path) eqn:Hx; simpl.
    + rewrite IH. apply String.eqb_eq in Hx. subst x.
      destruct (String.eqb p path); reflexivity.
    + rewrite IH. destruct (String.eqb p x) eqn:Hp; simpl.
      * apply String.eqb_eq in Hp. subst x. now rewrite Hx.
      * reflexivity.
Qed.

(** X20. The command-line program starts the merge only on an output
    path at which no file exists by then, and always with [keepIdMaps]
    at its default, whatever the options say; a file found at the output
    path is deleted only under [--remove] or after an answer with a [y]
    or [Y] in it, otherwise the program exits with code 1 and merges
    nothing; no other file is touched. *)
Theorem main_merges_into_a_fresh_file (options : CLIOptions)
    (inputPaths : list string) (fs : list string) (answer : string) :
  let fs' := fst (main options inputPaths fs answer) in
  let steps := snd (main options inputPaths fs answer) in
  let path := outputPath options in
  (forall i o n k,
      In (Merge i o n k) steps ->
      existsSync fs' path = false /\
      Merge i o n k = Merge inputPaths path (minInserts options) false) /\
  (existsSync fs path = true -> remove options = false ->
   matches_yY answer = false ->
   fs' = fs /\ In (Exit 1) steps /\
   forall i o n k, ~ In (Merge i o n k) steps) /\
  (forall p, p <> path -> existsSync fs' p = existsSync fs p).
Proof.
  intros fs' steps path. unfold fs', steps, main. fold path.
  assert (Hgone : forall l, existsSync (unlinkSync l path) path = false).
  { intros l. now rewrite existsSync_unlinkSync, String.eqb_refl. }
  assert (Hkeep : forall l p, p <> path ->
                  existsSync (unlinkSync l path) p = existsSync l p).
  { intros l p Hp. rewrite existsSync_unlinkSync.
    apply String.eqb_neq in Hp. now rewrite Hp. }
  destruct (remove options) eqn:Hrm; simpl.
  - destruct (existsSync fs path) eqn:Hex; simpl.
    + rewrite Hgone. simpl. split3.
      * intros i o n k [H | []]. split; [apply Hgone | now symmetry].
      * discriminate.
      * apply Hkeep.
    + rewrite Hex. simpl. split3.
      * intros i o n k [H | []]. split; [exact Hex | now symmetry].
      * discriminate.
      * reflexivity.
  - destruct (existsSync fs path) eqn:Hex; simpl.
    + destruct (matches_yY answer) eqn:Hy; simpl.
      * split3.
        -- intros i o n k [H | [H | [H | []]]]; try discriminate.
           split; [apply Hgone | now symmetry].
        -- discriminate.
        -- apply Hkeep.
      * split3.
        -- intros i o n k [H | [H | [H | []]]]; discriminate.
        -- intros _ _ _. split3; [reflexivity | now right; right; left |].
           intros i o n k [H | [H | [H | []]]]; discriminate.
        -- reflexivity.
    + split3.
      * intros i o n k [H | []]. split; [exact Hex | now symmetry].
      * discriminate.
      * reflexivity.
Qed.
End CommandLine.

(** ** A schema with a cycle ([data.ts], [toposort]) *)

Module ToposortCycles.
Import Toposort.
Import ToposortSpec.
Import ToposortFacts.

Lemma topo_closed (E : string -> string -> Prop) (l : list string) :
topo E l -> forall x y, In x l -> clos_trans string E x y -> In y l.
Proof.
intros Ht.
assert (Hstep : forall l, topo E l -> forall x y, In x l -> E x y -> In y l).
{ clear. induction l as [|a l IH]; intros Ht x y Hx Hxy; [destruct Hx|].
  destruct Ht as [Ha Ht]. destruct Hx as [-> | Hx].
  - right. now apply Ha.
  - right. eapply IH; eassumption. }
intros x y Hx Hxy. induction Hxy as [x y Hxy | x y z _ IH1 _ IH2].
- eapply Hstep; eassumption.
- apply IH2. now apply IH1.
Qed.

(** A list in topological order holds no node of a cycle. *)
Lemma topo_no_cycle (E : string -> string -> Prop) (l : list string) :
topo E l -> NoDup l -> forall x, In x l -> ~ clos_trans string E x x.
Proof.
induction l as [|a l IH]; intros Ht Hnd x Hx Hcyc; [destruct Hx|].
destruct Ht as [Ha Ht]. inversion Hnd as [|? ? Hnotin Hnd']; subst.
destruct Hx as [-> | Hx].
- apply Hnotin. apply clos_trans_t1n in Hcyc.
  inversion Hcyc as [y Hxy | y z Hxy Hrest]; subst.
  + now apply Ha.
  + apply (topo_closed E l Ht y x); [now apply Ha|].
    now apply clos_t1n_trans.
- exact (IH Ht Hnd' x Hx Hcyc).
Qed.

Section Cyclic.
Variable nodes : list string.
Variable edges : list (string * string).

Let E (a b : string) : Prop := In (a, b) edges.

Hypothesis nodes_NoDup : NoDup nodes.
Hypothesis edges_known : forall a b, E a b -> In a nodes /\ In b nodes.

Let Inv := SearchInv nodes E.

(** What a call of [visit] for [child] on the path [P] ends with. *)
Let visited_post (P L : list string) (child : string)
: Outcome State -> Prop :=
search_post E
  (fun st' => exists new,
       Inv P (new ++ L) st' /\ predecessors st' = P /\ In child (new ++ L)).

Lemma visit_children_any visit1 P :
forall children st L,
  (forall c, In c children ->
             forall st L, Inv P L st -> predecessors st = P ->
                          visited_post P L c (visit1 c st)) ->
  Inv P L st -> predecessors st = P ->
  search_post E
    (fun st' => exists new,
         Inv P (new ++ L) st' /\ predecessors st' = P /\
         forall c, In c children -> In c (new ++ L))
    (visit_children visit1 children st).
Proof.
induction children as [|c cs IH]; intros st L Hspec HI HP.
- simpl. exists []. split3; [assumption | assumption | intros c []].
- cbn [visit_children].
  assert (Hc := Hspec c (or_introl eq_refl) st L HI HP).
  unfold visited_post in Hc.
  destruct (visit1 c st) as [st1 | e]; [|exact Hc].
  simpl in Hc. destruct Hc as (new1 & HI1 & HP1 & Hin1).
  assert (Hrest := IH st1 (new1 ++ L)%list
                     (fun c' H => Hspec c' (or_intror H)) HI1 HP1).
  destruct (visit_children visit1 cs st1) as [st2 | e]; [|exact Hrest].
  simpl in *. destruct Hrest as (new2 & HI2 & HP2 & Hin2).
  exists (new2 ++ new1)%list. rewrite <- app_assoc.
  split3; [assumption | assumption |].
  intros c' [<- | Hc']; [|now apply Hin2].
  apply in_app_iff. now right.
Qed.

Lemma visit_any :
forall fuel node idx st P L,
  Inv P L st -> predecessors st = P ->
  nth_error nodes idx = Some node ->
  (forall p, In p P -> clos_trans string E p node) ->
  List.length nodes < fuel + List.length P ->
  visited_post P L node (visit nodes edges fuel node (Some idx) st).
Proof.
induction fuel as [|fuel IH]; intros node idx st P L HI HP Hidx Hpath Hfuel.
- assert (Hlen := Inv_length nodes edges HI). simpl in Hfuel. lia.
- cbn [visit]. rewrite HP.
  destruct (includes P node) eqn:HinP.
  { simpl. apply Hpath. now apply includes_In. }
  assert (HnP : ~ In node P).
  { intros H. apply includes_In in H. congruence. }
  rewrite (nodesHash_nth nodes_NoDup Hidx).
  destruct (existsb (Nat.eqb idx) (visited st)) eqn:Hvis.
  + apply existsb_nat_In in Hvis. simpl.
    exists []. simpl. split3; [assumption | assumption |].
    apply (inv_visited HI Hidx) in Hvis.
    apply in_app_iff in Hvis. tauto.
  + assert (Hnv : ~ In idx (visited st)).
    { intros H. apply existsb_nat_In in H. congruence. }
    assert (HI1 := Inv_enter nodes edges nodes_NoDup HI Hidx Hnv).
    assert (Hmid :
             search_post E
               (fun st3 => exists new,
                    Inv (P ++ [node]) (new ++ L) st3 /\
                    predecessors st3 = P /\
                    forall y, E node y -> In y (new ++ L))
               (match outgoingEdges edges node with
                | [] => Ret (mark_visited idx st)
                | _ :: _ =>
                    match
                      visit_children
                        (fun child =>
                           visit nodes edges fuel child
                             (nodesHash nodes child))
                        (rev (outgoingEdges edges node))
                        (set_predecessors
                           (Set_add (predecessors (mark_visited idx st))
                              node)
                           (mark_visited idx st))
                    with
                    | Ret st0 =>
                        Ret (set_predecessors
                               (Set_delete (predecessors st0) node) st0)
                    | Throw e => Throw e
                    end
                end)).
    { destruct (outgoingEdges edges node) as [|c0 cs0] eqn:Hout.
      - simpl. exists []. simpl. split3; [assumption | assumption |].
        intros y Hy. apply outgoingEdges_In in Hy.
        rewrite Hout in Hy. destruct Hy.
      - rewrite <- Hout. clear c0 cs0 Hout.
        simpl predecessors. rewrite HP, (Set_add_fresh _ HnP).
        assert (Hch :=
                  visit_children_any
                    (fun child =>
                       visit nodes edges fuel child (nodesHash nodes child))
                    (P ++ [node])%list
                    (rev (outgoingEdges edges node))
                    (set_predecessors (P ++ [node])%list
                       (mark_visited idx st))
                    L).
        match type of Hch with
        | ?A -> ?B -> ?C -> _ =>
            assert (HA : A); [|assert (HB : B); [|assert (HC : C)]]
        end.
        + intros c Hc. apply in_rev in Hc. apply outgoingEdges_In in Hc.
          intros st0 L0 HI0 HP0.
          destruct (edges_known _ _ Hc) as [_ Hcn].
          apply In_nth_error in Hcn as [j Hj].
          rewrite (nodesHash_nth nodes_NoDup Hj).
          apply IH; try assumption.
          * intros p Hp. apply in_app_iff in Hp.
            destruct Hp as [Hp | [<- | []]].
            -- eapply t_trans; [apply Hpath; eassumption|].
               now apply t_step.
            -- now apply t_step.
          * rewrite length_app. simpl. lia.
        + now apply Inv_set_predecessors.
        + reflexivity.
        + specialize (Hch HA HB HC).
          destruct (visit_children _ _ _) as [st2 | e]; [|exact Hch].
          simpl in *. destruct Hch as (new & HI2 & HP2 & Hcs).
          exists new. rewrite HP2.
          replace (Set_delete (P ++ [node]) node) with P
            by (rewrite <- (Set_add_fresh _ HnP);
                symmetry; now apply Set_delete_add).
          split3; [now apply Inv_set_predecessors | reflexivity |].
          intros y Hy. apply Hcs. apply -> in_rev.
          now apply outgoingEdges_In. }
    destruct (match outgoingEdges edges node with
              | [] => _
              | _ :: _ => _
              end) as [st3 | e]; [|exact Hmid].
    simpl in *. destruct Hmid as (new & HI3 & HP3 & Hch).
    exists (node :: new)%list. split3.
    * simpl. now apply Inv_leave.
    * assumption.
    * now left.
Qed.

Lemma visit_all_any :
forall fuel indices st L,
  List.length nodes < fuel ->
  Inv [] L st ->
  (forall i, In i indices -> i < List.length nodes) ->
  search_post E
    (fun st' => exists new,
         Inv [] (new ++ L) st' /\
         forall i, In i indices -> In i (visited st'))
    (visit_all nodes edges fuel indices st).
Proof.
intros fuel indices. induction indices as [|i rest IH];
  intros st L Hfuel HI Hrange.
- simpl. exists []. split; [assumption | intros i []].
- cbn [visit_all].
  assert (Hmono : forall st1 new1 st2 new2 j,
             Inv [] (new1 ++ L) st1 -> Inv [] (new2 ++ new1 ++ L) st2 ->
             j < List.length nodes ->
             In j (visited st1) -> In j (visited st2)).
  { intros st1 new1 st2 new2 j H1 H2 Hj Hin.
    destruct (nth_error nodes j) as [x|] eqn:Hx.
    - apply (inv_visited H2 Hx). simpl.
      apply (inv_visited H1 Hx) in Hin. simpl in Hin.
      apply in_app_iff. now right.
    - apply nth_error_None in Hx. lia. }
  destruct (existsb (Nat.eqb i) (visited st)) eqn:Hvis.
  + assert (Hr := IH st L Hfuel HI (fun j H => Hrange j (or_intror H))).
    destruct (visit_all nodes edges fuel rest st) as [st' | e];
      [|exact Hr].
    simpl in *. destruct Hr as (new & HI' & Hin).
    exists new. split; [assumption|].
    intros j [<- | Hj]; [|now apply Hin].
    apply existsb_nat_In in Hvis.
    apply (Hmono st [] st' new i); simpl; try assumption.
    apply Hrange. now left.
  + assert (Hi : i < List.length nodes) by (apply Hrange; now left).
    destruct (nth_error nodes i) as [node|] eqn:Hnode;
      [|apply nth_error_None in Hnode; lia].
    assert (Hv := visit_any fuel node i (set_predecessors [] st) [] L
                    (Inv_set_predecessors nodes edges [] HI)
                    eq_refl Hnode (fun p H => match H with end)).
    unfold visited_post in Hv.
    destruct (visit nodes edges fuel node (Some i) (set_predecessors [] st))
      as [st1 | e]; [|apply Hv; simpl; lia].
    simpl in Hv. destruct Hv as (new1 & HI1 & HP1 & Hin1); [simpl; lia|].
    assert (Hr := IH st1 (new1 ++ L)%list Hfuel HI1
                    (fun j H => Hrange j (or_intror H))).
    destruct (visit_all nodes edges fuel rest st1) as [st' | e];
      [|exact Hr].
    simpl in *. destruct Hr as (new & HI' & Hin).
    exists (new ++ new1)%list. rewrite <- app_assoc.
    split; [assumption|].
    intros j [<- | Hj]; [|now apply Hin].
    apply (Hmono st1 new1 st' new i); try assumption.
    apply (inv_visited HI1 Hnode). simpl. assumption.
Qed.

(** [toposort.array] returns the nodes in topological order, or throws
  "Cyclic dependency" for a node on a cycle; it does nothing else. *)
Lemma array_any :
search_post E
  (fun sorted => exists L,
       sorted = map Some L /\ Permutation L nodes /\ topo E L)
  (array nodes edges).
Proof.
unfold array.
replace (existsb (unknown_edge nodes) edges) with false.
2:{ symmetry. apply not_true_is_false. intros H.
    apply existsb_exists in H as [[a b] [Hin Hu]].
    unfold unknown_edge in Hu. simpl in Hu.
    destruct (edges_known _ _ Hin) as [Ha Hb].
    rewrite (nodesHash_In _ _ Ha), (nodesHash_In _ _ Hb) in Hu.
    discriminate. }
set (n := List.length nodes).
assert (Hv := visit_all_any (S n) (rev (seq 0 n))
                {| cursor := n; sorted := repeat None n;
                   visited := []; predecessors := [] |} []).
match type of Hv with
| ?A -> ?B -> ?C -> _ =>
    assert (HA : A); [|assert (HB : B); [|assert (HC : C)]]
end.
- unfold n. lia.
- constructor; simpl.
  + now rewrite app_nil_r.
  + unfold n. lia.
  + constructor.
  + intros x [].
  + intros i x _. tauto.
  + exact I.
- intros i Hi. apply in_rev in Hi. apply in_seq in Hi. unfold n in Hi. lia.
- specialize (Hv HA HB HC).
  destruct (visit_all nodes edges (S n) (rev (seq 0 n)) _) as [st' | e];
    [|exact Hv].
  simpl in *. destruct Hv as (L & HI & Hall). rewrite app_nil_r in HI.
  assert (Hnd : NoDup L) by apply (inv_nodup HI).
  assert (Hincl : incl nodes L).
  { intros x Hx. apply In_nth_error in Hx as [i Hi].
    apply (inv_visited HI Hi). apply Hall.
    apply -> in_rev. apply in_seq. split; [lia|]. simpl.
    apply nth_error_Some. congruence. }
  assert (Hperm : Permutation L nodes).
  { apply NoDup_Permutation; try assumption.
    intros x. split; [apply (inv_incl HI) | apply Hincl]. }
  exists L. split3.
  + rewrite (inv_sorted HI).
    assert (cursor st' = 0).
    { generalize (inv_cursor HI). rewrite (Permutation_length Hperm).
      unfold n. lia. }
    now rewrite H.
  + assumption.
  + apply (inv_topo HI).
Qed.

Lemma array_cyclic (x : string) :
clos_trans string E x x ->
exists node,
  array nodes edges = Throw (CyclicDependency node) /\
  clos_trans string E node node.
Proof.
intros Hcyc. assert (H := array_any).
destruct (array nodes edges) as [sorted | e].
- simpl in H. destruct H as (L & _ & Hperm & Htopo). exfalso.
  assert (Hx : In x nodes).
  { apply clos_trans_t1n in Hcyc.
    inversion Hcyc as [y Hxy | y z Hxy _]; subst;
      apply (edges_known _ _ Hxy). }
  apply (topo_no_cycle E L Htopo) with (x := x).
  + eapply Permutation_NoDup; [|exact nodes_NoDup].
    now apply Permutation_sym.
  + eapply Permutation_in; [|exact Hx]. now apply Permutation_sym.
  + exact Hcyc.
- destruct e; simpl in H; try contradiction.
  now exists node.
Qed.
End Cyclic.
End ToposortCycles.

(** X21. A schema whose relations form a cycle (a model that refers to
    itself is one) is refused: [sortedModels] throws "Cyclic dependency"
    for a model on a cycle, and [prismerge] throws it before it has made
    any call on any connection. *)
Theorem cyclic_schema_is_refused (s : Schema) (A : string) :
  schema_wf s -> clos_trans string (relation_edge s) A A ->
  exists node,
    sortedModels s = Throw (CyclicDependency node) /\
    clos_trans string (relation_edge s) node node /\
    forall (driver : Driver) (connections : list ConnId) (merged : ConnId)
           (minInserts : Z) (showProgress : bool) (w : World),
      prismerge s connections merged minInserts showProgress w
      = (Throw (CyclicDependency node), w).
Proof.
  intros Hwf Hcyc. assert (Hwf' := Hwf). destruct Hwf' as [Hnd Hnames].
  assert (Hkeys : map model_name (Map_values (models s)) = map fst (models s)).
  { unfold Map_values. rewrite map_map. apply map_ext_in.
    intros e He. rewrite Forall_forall in Hnames. symmetry. now apply Hnames. }
  destruct (ToposortCycles.array_cyclic
              (map model_name (Map_values (models s))) (relationEdges s))
    with (x := A) as (node & Harr & Hnode).
  - now rewrite Hkeys.
  - intros a b Hab. apply relationEdges_In in Hab
      as (entry & column & child & Hentry & Hcol & Hrel & Hg & -> & ->).
    split.
    + apply in_map. unfold Map_values. now apply in_map.
    + apply in_map. unfold Map_values.
      apply Map_get_In in Hg. now apply (in_map snd) in Hg.
  - eapply clos_trans_incl; [|exact Hcyc].
    intros a b. now apply relationEdges_edge.
  - exists node.
    assert (Hsorted : sortedModels s = Throw (CyclicDependency node)).
    { unfold sortedModels. now rewrite Harr. }
    split3.
    + exact Hsorted.
    + eapply clos_trans_incl; [|exact Hnode].
      intros a b. now apply relationEdges_edge.
    + intros driver connections merged minInserts showProgress w.
      unfold prismerge. rewrite Hsorted. reflexivity.
Qed.

(** X22. On the schema of any Prisma data model [sortedModels] does one of
    two things: it returns all the models, each once, every model behind
    the models it refers to; or it throws "Cyclic dependency" for a model
    that lies on a cycle of relations.  It throws nothing else, and no
    entry of its result is [undefined]. *)
Theorem sortedModels_sorts_or_names_a_cycle (datamodel : list DMMF_Model) :
  let s := getSchema datamodel in
  (exists order : list Model,
      sortedModels s = Ret (map Some order) /\
      Permutation order (Map_values (models s)) /\
      forall A B, relation_edge s A B ->
        exists modelA modelB,
          model_name modelA = A /\ model_name modelB = B /\
          before modelB modelA order)
  \/
  (exists node,
      sortedModels s = Throw (CyclicDependency node) /\
      clos_trans string (relation_edge s) node node).
Proof.
  intros s.
  assert (Hwf : schema_wf s).
  { unfold s, getSchema. apply fold_Map_set_wf. split; constructor. }
  assert (Hwf' := Hwf). destruct Hwf' as [Hnd Hnames].
  assert (Hkeys : map model_name (Map_values (models s)) = map fst (models s)).
  { unfold Map_values. rewrite map_map. apply map_ext_in.
    intros e He. rewrite Forall_forall in Hnames. symmetry. now apply Hnames. }
  assert (Hnodes : NoDup (map model_name (Map_values (models s))))
    by now rewrite Hkeys.
  assert (Hknown : forall a b,
             In (a, b) (relationEdges s) ->
             In a (map model_name (Map_values (models s))) /\
             In b (map model_name (Map_values (models s)))).
  { intros a b Hab. apply relationEdges_In in Hab
      as (entry & column & child & Hentry & Hcol & Hrel & Hg & -> & ->).
    split.
    - apply in_map. unfold Map_values. now apply in_map.
    - apply in_map. unfold Map_values.
      apply Map_get_In in Hg. now apply (in_map snd) in Hg. }
  assert (Hany := ToposortCycles.array_any
                    (map model_name (Map_values (models s)))
                    (relationEdges s) Hnodes Hknown).
  destruct (Toposort.array (map model_name (Map_values (models s)))
              (relationEdges s)) as [sorted | e] eqn:Harr.
  - left. apply sortedModels_order; [exact Hwf|].
    intros A HA.
    destruct (ToposortCycles.array_cyclic
                (map model_name (Map_values (models s))) (relationEdges s)
                Hnodes Hknown A) as (node & Hthrow & _).
    + eapply clos_trans_incl; [|exact HA].
      intros a b. now apply relationEdges_edge.
    + congruence.
  - right. destruct e; simpl in Hany; try contradiction.
    exists node. split.
    + unfold sortedModels. now rewrite Harr.
    + eapply clos_trans_incl; [|exact Hany].
      intros a b. now apply relationEdges_edge.
Qed.

(** ** The further properties on the scenarios *)

Lemma getSchema_lookup_witness :
  NoDup (map dmmf_name [ownerDMMF; todoListDMMF]) /\
  Map_values (models (getSchema [ownerDMMF; todoListDMMF]))
  = [handleModel ownerDMMF; handleModel todoListDMMF].
Proof.
  assert (H : NoDup (map dmmf_name [ownerDMMF; todoListDMMF])).
  { simpl. repeat constructor; simpl; intuition discriminate. }
  split; [exact H|].
  destruct (getSchema_lookup [ownerDMMF; todoListDMMF] "Owner") as [_ Hv].
  exact (Hv H).
Defined.

Lemma handleModel_probe_builds_witness :
  model_unique (handleModel todoListDMMF)
  = Some {| columnNames := ["name"; "ownerId"] |} /\
  exists template,
    buildCheckSqlTemplate (driver := MockDriver) (handleModel todoListDMMF)
      idColumn cleanWorld
    = (Ret template, cleanWorld) /\
    isSome template = true.
Proof.
  assert (H : forall first,
             nth_error (uniqueFields todoListDMMF) 0 = Some first ->
             forallb (fun name =>
                        existsb (fun f => String.eqb (field_name f) name)
                          (dmmf_fields todoListDMMF)) first = true).
  { intros first Hf. injection Hf as <-. reflexivity. }
  destruct (handleModel_probe_builds (driver := MockDriver) todoListDMMF
              idColumn cleanWorld H) as (Hu & template & Hb & Hs).
  split; [exact Hu|].
  exists template. split; [exact Hb | exact Hs].
Defined.

Lemma merge_only_reads_inputs_witness :
  1 <> 0 /\
  execs 1 (trace (snd (merge (driver := MockDriver) testSchema [1; 2] 0 1
                         false ownersWorld)))
  = execs 1 (trace ownersWorld).
Proof.
  assert (H : 1 <> 0) by discriminate.
  split; [exact H|].
  destruct (merge_only_reads_inputs (driver := MockDriver) 0 testSchema [1; 2]
              1 false ownersWorld 1 H) as [_ He].
  exact He.
Defined.

Lemma mergeModel_aborts_before_reading_witness :
  (primaryKey Keyless = None \/
   exists unique, model_unique Keyless = Some unique /\
                  uniqueResolves Keyless (columnNames unique) = false) /\
  fst (mergeModel (driver := MockDriver) Keyless testSchema [1; 2] 0 1 false
         ownersWorld) = Throw UnwrapNone.
Proof.
  assert (H : primaryKey Keyless = None \/
              exists unique, model_unique Keyless = Some unique /\
                             uniqueResolves Keyless (columnNames unique)
                             = false)
    by (left; reflexivity).
  split; [exact H|].
  destruct (mergeModel_aborts_before_reading (driver := MockDriver) Keyless
              testSchema [1; 2] 0 1 false ownersWorld H) as [Hf _].
  exact Hf.
Defined.

Lemma prismerge_without_inputs_witness :
  sortedModels testSchema = Ret [Some Owner; Some TodoList] /\
  fst (prismerge (driver := MockDriver) testSchema [] 0 1 false cleanWorld)
  = Throw TypeError.
Proof.
  assert (H : sortedModels testSchema = Ret [Some Owner; Some TodoList])
    by reflexivity.
  split; [exact H|].
  rewrite (prismerge_without_inputs (driver := MockDriver) testSchema 0 1 false
             cleanWorld [Some Owner; Some TodoList] H).
  reflexivity.
Defined.

Lemma countRows_stops_at_first_failure_witness :
  Forall (fun c => exists n,
              db_get_count (Driver := MockDriver) (dbs uncountedWorld c)
                "SELECT COUNT(id)" = Ok (Some n)) [1] /\
  db_get_count (Driver := MockDriver) (dbs uncountedWorld 2) "SELECT COUNT(id)"
  = Err "no such table: Owner" /\
  fst (countRows (driver := MockDriver) "SELECT COUNT(id)" [1; 2; 3] 0 (Some 1)
         0 uncountedWorld)
  = Throw (DriverError "no such table: Owner").
Proof.
  assert (H1 : Forall (fun c => exists n,
                           db_get_count (Driver := MockDriver)
                             (dbs uncountedWorld c) "SELECT COUNT(id)"
                           = Ok (Some n)) [1]).
  { constructor; [|constructor]. exists 1%N. reflexivity. }
  assert (H2 : db_get_count (Driver := MockDriver) (dbs uncountedWorld 2)
                 "SELECT COUNT(id)" = Err "no such table: Owner")
    by reflexivity.
  split; [exact H1|]. split; [exact H2|].
  assert (E := countRows_stops_at_first_failure (driver := MockDriver)
                 "SELECT COUNT(id)" [1] [3] 2 "no such table: Owner"
                 uncountedWorld H1 H2 0%N (Some 1) 0%N).
  exact (f_equal fst E).
Defined.

Lemma merge_cleans_up_witness :
  fst (merge (driver := MockDriver) testSchema [1; 2] 0 1 false ownersWorld)
  = Ret tt /\
  exists (w1 : MockWorld) (checks : list (Model * list string)),
    map fst checks = [Owner; TodoList] /\
    trace (snd (merge (driver := MockDriver) testSchema [1; 2] 0 1 false
                  ownersWorld))
    = (trace w1
         ++ flat_map (fun check =>
                        EvGet 0 (integrityQuery (fst check))
                          :: map EvLog (snd check)) checks
         ++ [EvExec 0 (dropSql (mapTable Owner));
             EvExec 0 (dropSql (mapTable TodoList));
             EvExec 0 "VACUUM;"; EvClose 0])%list.
Proof.
  assert (H : fst (merge (driver := MockDriver) testSchema [1; 2] 0 1 false
                     ownersWorld) = Ret tt)
    by (vm_compute; reflexivity).
  split; [exact H|].
  destruct (merge_cleans_up (driver := MockDriver) 0 testSchema [1; 2] 1 false
              ownersWorld H) as (w1 & checks & _ & Hms & Ht).
  exists w1, checks. split; [exact Hms | exact Ht].
Defined.

Lemma progress_counts_every_row_witness :
  ~ In 0 [1; 2] /\
  fst (mergeModel (driver := MockDriver) Owner testSchema [1; 2] 0 1000 false
         brokenWorld) = Ret tt /\
  sumN (incs (trace (snd (mergeModel (driver := MockDriver) Owner testSchema
                            [1; 2] 0 1000 false brokenWorld)))) = 4%N.
Proof.
  assert (Hnin : ~ In 0 [1; 2]) by (simpl; intuition discriminate).
  assert (Hret : fst (mergeModel (driver := MockDriver) Owner testSchema [1; 2]
                        0 1000 false brokenWorld) = Ret tt)
    by (vm_compute; reflexivity).
  split; [exact Hnin|]. split; [exact Hret|].
  destruct (progress_counts_every_row (driver := MockDriver) Owner testSchema
              [1; 2] 0 1000 false brokenWorld Hnin Hret)
    as (pk & p & Hpk & Hp & Hsum).
  rewrite Hsum. injection Hpk as <-.
  destruct Hp as [<- | [<- | []]]; reflexivity.
Defined.

Lemma ConsoleProgress_counts_what_it_is_told_witness :
  ~ In EvFinish [EvInc 2; EvExec 0 "COMMIT;"; EvInc 0; EvInc 1] /\
  ConsoleProgress.count
    (fst (ConsoleProgress.console (ConsoleProgress.new "Owner" 4)
            [EvInc 2; EvExec 0 "COMMIT;"; EvInc 0; EvInc 1])) = 3%N /\
  List.length
    (snd (ConsoleProgress.console (ConsoleProgress.new "Owner" 4)
            [EvInc 2; EvExec 0 "COMMIT;"; EvInc 0; EvInc 1])) = 2.
Proof.
  assert (H : ~ In EvFinish [EvInc 2; EvExec 0 "COMMIT;"; EvInc 0; EvInc 1])
    by (simpl; intuition discriminate).
  split; [exact H|].
  destruct (ConsoleProgress_counts_what_it_is_told
              (ConsoleProgress.new "Owner" 4)
              [EvInc 2; EvExec 0 "COMMIT;"; EvInc 0; EvInc 1] H)
    as (Hc & _ & _ & Hl & _).
  split; [exact Hc | exact Hl].
Defined.

Lemma treeSchema_wf : schema_wf treeSchema.
Proof.
  split.
  - simpl. repeat constructor; simpl; intuition.
  - repeat constructor.
Qed.

Lemma treeSchema_cycle :
  clos_trans string (relation_edge treeSchema) "Category" "Category".
Proof.
  apply t_step. exists Category.
  exists {| col_name := "parent";
            ty := {| ty_name := "Category"; collection := false;
                     nullable := true |};
            relation := Some {| fields := ["parentId"]; references := ["id"] |};
            col_unique := false; primary_key := false |}.
  simpl. intuition.
Qed.

Lemma cyclic_schema_is_refused_witness :
  schema_wf treeSchema /\
  clos_trans string (relation_edge treeSchema) "Category" "Category" /\
  exists node, sortedModels treeSchema = Throw (CyclicDependency node).
Proof.
  split; [exact treeSchema_wf|]. split; [exact treeSchema_cycle|].
  destruct (cyclic_schema_is_refused treeSchema "Category" treeSchema_wf
              treeSchema_cycle) as (node & Hs & _).
  exists node. exact Hs.
Defined.

(** ** A whole run of [prismerge] *)

Section WholeRun.
Context {driver : Driver}.
Variable schema : Schema.
Variable connections : list ConnId.
Variable merged : ConnId.
Variable minInserts : Z.
Variable showProgress : bool.

Hypothesis merged_no_input : ~ In merged connections.

Lemma mergeEach_segments (order : list (option Model)) :
  forall w,
    fst (mergeEach schema connections merged minInserts showProgress order w)
      = Ret tt ->
    exists segments : list (Model * list (list string)),
      order = map (fun s => Some (fst s)) segments /\
      execs merged
        (trace (snd (mergeEach schema connections merged minInserts
                       showProgress order w)))
      = (execs merged (trace w) ++ flat_map model_segment segments)%list.
Proof.
  unfold mergeEach. induction order as [|[m|] order IH]; intros w Hret.
  - exists []. simpl. now rewrite app_nil_r.
  - destruct (forEach_cons _ _ _ _ Hret) as (w1 & Hm & Hrest).
    rewrite Hrest in *. destruct (IH w1 Hret) as (segments & -> & He).
    assert (Hret1 : fst (mergeModel m schema connections merged minInserts
                           showProgress w) = Ret tt) by now rewrite Hm.
    destruct (mergeModel_run m schema merged connections minInserts
                showProgress w merged_no_input Hret1)
      as (pk & p & runs & _ & _ & _ & _ & Hexecs & _).
    rewrite Hm in Hexecs. simpl in Hexecs.
    exists ((m, model_batches m schema pk minInserts runs) :: segments).
    split; [reflexivity|]. rewrite He, Hexecs.
    cbn [flat_map]. unfold model_segment at 2. cbn [fst snd].
    now rewrite <- app_assoc.
  - cbn [forEach] in Hret. unfold bind, throw in Hret. discriminate.
Qed.

(** X23. In a run of [prismerge] that returns (the destination not being
    one of the inputs), the statements executed on the destination are,
    in this order: the fast pragmas; the statements of the schema of the
    first input; for every model, in the order [sortedModels] gives, the
    creation of its identity map, its batches and the indices of the
    map; the safe pragmas.  Nothing else is executed, and every model of
    the order is merged. *)
Theorem prismerge_statements (w : World) :
  fst (prismerge schema connections merged minInserts showProgress w)
    = Ret tt ->
  let w' := snd (prismerge schema connections merged minInserts
                   showProgress w) in
  exists (first : ConnId) (segments : list (Model * list (list string))),
    nth_error connections 0 = Some first /\
    sortedModels schema = Ret (map (fun s => Some (fst s)) segments) /\
    execs merged (trace w')
    = (execs merged (trace w)
         ++ fastPragmas
         :: schemaStatements
              (fst (db_each (dbs w first) "SELECT sql FROM sqlite_master;"))
         ++ flat_map model_segment segments
         ++ [safePragmas])%list.
Proof.
  intros Hret. unfold prismerge in *.
  destruct (sortedModels schema) as [order | e] eqn:Hsorted;
    [|unfold bind in Hret; simpl in Hret; discriminate].
  step Hret. injection Hm as <- <-.
  step Hret. rewrite execOrError_eq in Hm. injection Hm as _ <-. clear a.
  step Hret. destruct a.
  destruct (nth_error connections 0) as [first|] eqn:Hfirst;
    [|unfold throw in Hm; discriminate].
  assert (Hne : first <> merged).
  { intros ->. apply merged_no_input. eapply nth_error_In. exact Hfirst. }
  assert (Ht : trace w0
               = (trace w ++ EvExec merged fastPragmas
                    :: EvEach first "SELECT sql FROM sqlite_master;"
                    :: map (EvExec merged)
                         (schemaStatements
                            (fst (db_each (dbs w first)
                                    "SELECT sql FROM sqlite_master;"))))
                 %list).
  { unfold bind in Hm.
    assert (Hs := schema_copy_trace first merged
                    (executed w merged fastPragmas)).
    destruct (each first "SELECT sql FROM sqlite_master;"
                (copySchemaRow merged) (executed w merged fastPragmas))
      as [[n | e] w2]; [|discriminate].
    unfold ret in Hm. injection Hm as <-.
    simpl in Hs. rewrite Hs.
    apply Nat.eqb_neq in Hne. rewrite Hne, <- app_assoc. reflexivity. }
  step Hret. destruct a.
  assert (Hret1 : fst (mergeEach schema connections merged minInserts
                         showProgress order w0) = Ret tt) by now rewrite Hm0.
  destruct (mergeEach_segments order w0 Hret1) as (segments & -> & He).
  rewrite Hm0 in He. simpl in He.
  exists first, segments. split; [reflexivity|]. split; [reflexivity|].
  rewrite execOrError_eq. simpl. rewrite execs_app, He, Ht. simpl.
  rewrite Nat.eqb_refl, !execs_app. simpl. rewrite Nat.eqb_refl.
  rewrite execs_execs, <- !app_assoc. reflexivity.
Qed.
End WholeRun.

Lemma prismerge_statements_witness :
  ~ In 0 [1; 2] /\
  fst (prismerge (driver := MockDriver) testSchema [1; 2] 0 1 false ownersWorld)
  = Ret tt /\
  exists segments : list (Model * list (list string)),
    map fst segments = [Owner; TodoList].
Proof.
  assert (Hnin : ~ In 0 [1; 2]) by (simpl; intuition discriminate).
  assert (Hret : fst (prismerge (driver := MockDriver) testSchema [1; 2] 0 1
                        false ownersWorld) = Ret tt)
    by (vm_compute; reflexivity).
  split; [exact Hnin|]. split; [exact Hret|].
  destruct (prismerge_statements (driver := MockDriver) testSchema [1; 2] 0 1
              false Hnin ownersWorld Hret)
    as (first & segments & _ & Hs & _).
  exists segments.
  assert (H : map (fun s : Model * list (list string) => Some (fst s)) segments
              = map Some [Owner; TodoList])
    by (change (map Some [Owner; TodoList])
          with (match sortedModels testSchema with
                | Ret l => l
                | Throw _ => []
                end); now rewrite Hs).
  clear - H. destruct segments as [|[m1 b1] [|[m2 b2] [|s3 rest]]];
    simpl in H; try discriminate.
  now injection H as -> ->.
Defined.

(** ** The progress display and the merge *)

Section Oblivious.
Context {driver : Driver}.

Lemma oblivious_ret {A} (a : A) : oblivious (ret a) (ret a).
Proof. intros w1 w2 H. now split. Qed.

Lemma oblivious_throw {A} (e : Exn) : oblivious (@throw _ A e) (throw e).
Proof. intros w1 w2 H. now split. Qed.

Lemma oblivious_bind {A B} (m1 m2 : M A) (k1 k2 : A -> M B) :
  oblivious m1 m2 -> (forall a, oblivious (k1 a) (k2 a)) ->
  oblivious (bind m1 k1) (bind m2 k2).
Proof.
  intros Hm Hk w1 w2 H. unfold bind.
  destruct (Hm w1 w2 H) as [Hf Ha].
  destruct (m1 w1) as [[a1 | e1] v1], (m2 w2) as [[a2 | e2] v2];
    simpl in *; try discriminate.
  - injection Hf as <-. now apply Hk.
  - injection Hf as <-. now split.
Qed.

Lemma alike_emit (ev : Event) (w1 w2 : World) :
  alike w1 w2 -> alike (snd (emit ev w1)) (snd (emit ev w2)).
Proof.
  intros (Hd & Hu & Hi & Ht). unfold emit. simpl.
  split4; simpl; try assumption. now rewrite !filter_app, Ht.
Qed.

Lemma oblivious_emit (ev : Event) : oblivious (emit ev) (emit ev).
Proof. intros w1 w2 H. split; [reflexivity | now apply alike_emit]. Qed.

Lemma oblivious_exec (c : ConnId) (sql : string) :
  oblivious (exec c sql) (exec c sql).
Proof.
  intros w1 w2 H. rewrite !exec_eq. destruct H as (Hd & Hu & Hi & Ht).
  unfold exec_result, executed. simpl. split; [now rewrite Hd|].
  split4; simpl; try assumption.
  - now rewrite Hd.
  - now rewrite !filter_app, Ht.
Qed.

Lemma oblivious_unwrapResult {R} (r : Result R Error) :
  oblivious (unwrapResult r) (unwrapResult r).
Proof. destruct r; [apply oblivious_ret | apply oblivious_throw]. Qed.

Lemma oblivious_unwrapOption {T} (o : option T) :
  oblivious (unwrapOption o) (unwrapOption o).
Proof. destruct o; [apply oblivious_ret | apply oblivious_throw]. Qed.

Lemma oblivious_execOrError (c : ConnId) (sql : string) :
  oblivious (execOrError c sql) (execOrError c sql).
Proof.
  apply oblivious_bind; [apply oblivious_exec|].
  intros r. apply oblivious_unwrapResult.
Qed.

Lemma oblivious_get_count (c : ConnId) (sql : string) :
  oblivious (get_count c sql) (get_count c sql).
Proof.
  intros w1 w2 H. unfold get_count, bind, ret. simpl.
  assert (Ha := alike_emit (EvGet c sql) w1 w2 H).
  destruct H as (Hd & _). split; [now rewrite Hd | exact Ha].
Qed.

Lemma oblivious_get_row (c : ConnId) (sql : string) :
  oblivious (get_row c sql) (get_row c sql).
Proof.
  intros w1 w2 H. unfold get_row, bind, ret. simpl.
  assert (Ha := alike_emit (EvGet c sql) w1 w2 H).
  destruct H as (Hd & _). split; [now rewrite Hd | exact Ha].
Qed.

Lemma oblivious_crypto_randomUUID :
  oblivious crypto_randomUUID crypto_randomUUID.
Proof.
  intros w1 w2 (Hd & Hu & Hi & Ht). unfold crypto_randomUUID. simpl.
  rewrite Hu. split; [reflexivity|]. split4; simpl; congruence.
Qed.

Lemma oblivious_get_inserter : oblivious get_inserter get_inserter.
Proof.
  intros w1 w2 H. unfold get_inserter. simpl.
  split; [|exact H]. destruct H as (_ & _ & Hi & _). now rewrite Hi.
Qed.

Lemma oblivious_set_inserter (im : InsertManager) :
  oblivious (set_inserter im) (set_inserter im).
Proof.
  intros w1 w2 (Hd & Hu & Hi & Ht). unfold set_inserter. simpl.
  split; [reflexivity|]. split4; simpl; congruence.
Qed.

Lemma oblivious_forEach {A} (l : list A) (body1 body2 : A -> M unit) :
  (forall x, oblivious (body1 x) (body2 x)) ->
  oblivious (forEach l body1) (forEach l body2).
Proof.
  intros Hbody. induction l as [|x l IH]; simpl.
  - apply oblivious_ret.
  - apply oblivious_bind; [apply Hbody | intros _; exact IH].
Qed.

Lemma oblivious_each_rows (callback : Result Row Error -> M unit)
    (rows : list (Result Row Error)) :
  (forall r, oblivious (callback r) (callback r)) ->
  forall w1 w2,
    alike w1 w2 ->
    fst (each_rows callback rows w1) = fst (each_rows callback rows w2) /\
    alike (snd (each_rows callback rows w1))
      (snd (each_rows callback rows w2)).
Proof.
  intros Hcb. induction rows as [|r rows IH]; intros w1 w2 H; simpl.
  - now split.
  - destruct (Hcb r w1 w2 H) as [Hf Ha].
    destruct (callback r w1) as [[[] | e1] v1],
             (callback r w2) as [[[] | e2] v2];
      simpl in *; try discriminate.
    + now apply IH.
    + injection Hf as <-. destruct (IH v1 v2 Ha) as [_ Ha']. now split.
Qed.

Lemma oblivious_each (conn : ConnId) (query : string)
    (callback : Result Row Error -> M unit) :
  (forall r, oblivious (callback r) (callback r)) ->
  oblivious (each conn query callback) (each conn query callback).
Proof.
  intros Hcb w1 w2 H. unfold each.
  assert (Hd : dbs w1 = dbs w2) by apply H. rewrite Hd.
  destruct (db_each (dbs w2 conn) query) as [rows completion].
  assert (Ha := alike_emit (EvEach conn query) w1 w2 H).
  destruct (emit (EvEach conn query) w1) as [o1 v1],
           (emit (EvEach conn query) w2) as [o2 v2]. simpl in Ha.
  destruct (oblivious_each_rows callback rows Hcb v1 v2 Ha) as [Hf Ha'].
  destruct (each_rows callback rows v1) as [t1 u1],
           (each_rows callback rows v2) as [t2 u2]. simpl in *. subst t2.
  destruct completion; [destruct t1|]; now split.
Qed.

Lemma oblivious_flush : oblivious flush flush.
Proof.
  unfold flush.
  apply oblivious_bind; [apply oblivious_get_inserter | intros this].
  apply oblivious_bind; [apply oblivious_set_inserter | intros _].
  apply oblivious_bind; [apply oblivious_execOrError | intros _].
  apply oblivious_ret.
Qed.

Lemma oblivious_maybeFlush : oblivious maybeFlush maybeFlush.
Proof.
  unfold maybeFlush.
  apply oblivious_bind; [apply oblivious_get_inserter | intros this].
  destruct (Z.geb _ _); [apply oblivious_flush | apply oblivious_ret].
Qed.

Lemma oblivious_insert (s : string) : oblivious (insert s) (insert s).
Proof.
  unfold insert.
  apply oblivious_bind; [apply oblivious_get_inserter | intros this].
  apply oblivious_bind; [apply oblivious_set_inserter | intros _].
  apply oblivious_maybeFlush.
Qed.

Lemma oblivious_insertSupporting (s : string) :
  oblivious (insertSupporting s) (insertSupporting s).
Proof.
  unfold insertSupporting.
  apply oblivious_bind; [apply oblivious_get_inserter | intros this].
  apply oblivious_bind; [apply oblivious_set_inserter | intros _].
  apply oblivious_maybeFlush.
Qed.

Lemma oblivious_checkClauses (model : Model) (names : list string) :
  forall idx joins wheres,
    oblivious (checkClauses model names idx joins wheres)
      (checkClauses model names idx joins wheres).
Proof.
  induction names as [|name rest IH]; intros idx joins wheres;
    cbn [checkClauses].
  - apply oblivious_ret.
  - apply oblivious_bind; [apply oblivious_unwrapOption | intros col].
    destruct (getRelatedColumn col model); apply IH.
Qed.

Lemma oblivious_buildCheckSqlTemplate (model : Model) (primaryKey : Column) :
  oblivious (buildCheckSqlTemplate model primaryKey)
    (buildCheckSqlTemplate model primaryKey).
Proof.
  unfold buildCheckSqlTemplate.
  destruct (model_unique model) as [unique|]; [|apply oblivious_ret].
  apply oblivious_bind; [apply oblivious_checkClauses | intros [joins wheres]].
  apply oblivious_ret.
Qed.

Lemma oblivious_countRows (query : string) (conns : list ConnId) :
  forall totalRows primary primaryCount,
    oblivious (countRows query conns totalRows primary primaryCount)
      (countRows query conns totalRows primary primaryCount).
Proof.
  induction conns as [|conn rest IH]; intros totalRows primary primaryCount;
    cbn [countRows].
  - apply oblivious_ret.
  - apply oblivious_bind; [apply oblivious_get_count | intros r].
    apply oblivious_bind; [apply oblivious_unwrapResult | intros o].
    apply oblivious_bind; [apply oblivious_unwrapOption | intros n].
    destruct (N.ltb primaryCount n); apply IH.
Qed.

Lemma oblivious_mergeRow (model : Model) (schema : Schema) (merged : ConnId)
    (primaryKey : Column) (template : option string) (isPrimary : bool)
    (rowResult : Result Row Error) :
  oblivious
    (mergeRow model schema merged primaryKey template isPrimary rowResult)
    (mergeRow model schema merged primaryKey template isPrimary rowResult).
Proof.
  unfold mergeRow. destruct rowResult as [row | e]; [|apply oblivious_ret].
  apply oblivious_bind.
  - destruct (negb isPrimary); [|apply oblivious_ret].
    destruct template; [|apply oblivious_ret]. unfold probe.
    apply oblivious_bind; [apply oblivious_unwrapOption | intros unique].
    apply oblivious_bind; [apply oblivious_get_row | intros found].
    destruct found as [[existingRow|] | e]; apply oblivious_ret.
  - intros [existingId|].
    + apply oblivious_bind; [apply oblivious_insert | intros n].
      apply oblivious_emit.
    + apply oblivious_bind.
      * destruct isPrimary;
          [apply oblivious_ret | apply oblivious_crypto_randomUUID].
      * intros newPk.
        apply oblivious_bind; [apply oblivious_insert | intros n].
        apply oblivious_bind; [apply oblivious_emit | intros _].
        apply oblivious_bind; [apply oblivious_insertSupporting | intros n'].
        apply oblivious_emit.
Qed.

Lemma oblivious_mergeSource (model : Model) (schema : Schema)
    (merged : ConnId) (primaryKey : Column) (template : option string)
    (primary conn : option ConnId) :
  oblivious
    (mergeSource model schema merged primaryKey template primary conn)
    (mergeSource model schema merged primaryKey template primary conn).
Proof.
  unfold mergeSource. destruct conn as [conn|]; [|apply oblivious_throw].
  apply oblivious_bind.
  - apply oblivious_each. intros r. apply oblivious_mergeRow.
  - intros _. apply oblivious_bind; [apply oblivious_flush | intros n].
    apply oblivious_emit.
Qed.

Lemma oblivious_mergeModel (model : Model) (schema : Schema)
    (connections : list ConnId) (merged : ConnId) (minInserts : Z) :
  oblivious
    (mergeModel model schema connections merged minInserts true)
    (mergeModel model schema connections merged minInserts false).
Proof.
  unfold mergeModel.
  apply oblivious_bind; [apply oblivious_execOrError | intros _].
  apply oblivious_bind; [apply oblivious_set_inserter | intros _].
  apply oblivious_bind; [apply oblivious_unwrapOption | intros primaryKey].
  apply oblivious_bind;
    [apply oblivious_buildCheckSqlTemplate | intros template].
  apply oblivious_bind;
    [apply oblivious_countRows | intros [totalRows primary]].
  apply oblivious_bind.
  { intros w1 w2 (Hd & Hu & Hi & Ht). split; [reflexivity|].
    unfold emit, ret. simpl. split4; simpl; try assumption.
    rewrite filter_app. simpl. now rewrite app_nil_r. }
  intros _. apply oblivious_bind.
  { apply oblivious_forEach. intros conn. apply oblivious_mergeSource. }
  intros _. apply oblivious_bind; [apply oblivious_flush | intros n].
  apply oblivious_bind; [apply oblivious_emit | intros _].
  apply oblivious_bind; [apply oblivious_execOrError | intros _].
  apply oblivious_emit.
Qed.

Lemma oblivious_copySchemaRow (merged : ConnId) (r : Result Row Error) :
  oblivious (copySchemaRow merged r) (copySchemaRow merged r).
Proof.
  unfold copySchemaRow.
  apply oblivious_bind; [apply oblivious_unwrapResult | intros row].
  destruct (field row "sql") as [sql|]; [|apply oblivious_ret].
  destruct (String.eqb sql EmptyString);
    [apply oblivious_ret | apply oblivious_execOrError].
Qed.

(** X24. Whether [prismerge] shows progress or not changes nothing of
    what it does: started from the same world, the run with the display
    and the run without it end with the same outcome, the same databases,
    the same buffer and the same number of keys drawn, and make the same
    calls in the same order but for the creation of the reporters. *)
Theorem showProgress_changes_nothing (schema : Schema)
    (connections : list ConnId) (merged : ConnId) (minInserts : Z)
    (w : World) :
  let shown := prismerge schema connections merged minInserts true w in
  let silent := prismerge schema connections merged minInserts false w in
  fst shown = fst silent /\
  dbs (snd shown) = dbs (snd silent) /\
  uuids (snd shown) = uuids (snd silent) /\
  inserter (snd shown) = inserter (snd silent) /\
  filter notProgressCreate (trace (snd shown))
  = filter notProgressCreate (trace (snd silent)).
Proof.
  assert (H : oblivious
                (prismerge schema connections merged minInserts true)
                (prismerge schema connections merged minInserts false)).
  { unfold prismerge. apply oblivious_bind.
    { intros w1 w2 Ha. destruct (sortedModels schema); now split. }
    intros order.
    apply oblivious_bind; [apply oblivious_execOrError | intros _].
    apply oblivious_bind.
    { destruct (nth_error connections 0) as [first|];
        [|apply oblivious_throw].
      apply oblivious_bind; [|intros n; apply oblivious_ret].
      apply oblivious_each. intros r. apply oblivious_copySchemaRow. }
    intros _. apply oblivious_bind; [|intros _; apply oblivious_execOrError].
    unfold mergeEach. apply oblivious_forEach. intros [currentModel|].
    - apply oblivious_mergeModel.
    - apply oblivious_throw. }
  intros shown silent.
  destruct (H w w) as [Hf Ha]; [now split4|].
  split; [exact Hf | exact Ha].
Qed.
End Oblivious.
